(** * Planar leg kinematics: geometry engine and workspace analysis

    A shallow embedding of [utils.py], of the leg models under
    [configs/] ([leg_interface.py], [serial.py], [pantograph.py],
    [fivebar.py]), and of the geometry of the widget stack
    ([ui_manager.py]) with the layout calls [dashboard.py] makes on it.

    Numbers.  The Python code computes with floats (numpy float64).  They are
    modelled here as real numbers: arithmetic is exact, [np.sqrt] is
    [sqrt], [np.cos]/[np.sin] are [cos]/[sin], and comparisons are the
    (decidable) order of [R].  Unless it says otherwise, a statement below
    is about this exact-arithmetic reading of the code.

    Rounding.  Where rounding changes what the code answers (a boolean, or
    a result against none), the functions involved are read a second time
    in IEEE binary64, over Rocq's primitive floats (module [Binary64]), and
    the input that shows it is evaluated there.  [ccw_rounded] and
    [intersect_rounded] are the orientation tests with the rounding of
    every difference and product made explicit.

    Containers and errors.  Python dicts keyed by strings are
    [gmap string _], numpy arrays of points are lists, the toggling edge
    set of the alpha shape is a [gset].  A function that can raise (a
    missing key, an index out of range, Qhull rejecting its input) returns
    an [option], [None] standing for the exception; [update_params], where
    the state reached before the error matters, runs in a small state and
    error monad. *)

From Stdlib Require Import Reals Lra Lia Psatz.
From Stdlib Require PrimFloat SpecFloat FloatOps.
From stdpp Require Import gmap strings list.

Open Scope R_scope.

(** ** Comparisons on floats as decidable propositions *)

#[global] Instance Rlt_decision (x y : R) : Decision (x < y) := Rlt_dec x y.
#[global] Instance Rle_decision (x y : R) : Decision (x <= y) := Rle_dec x y.
#[global] Instance Rgt_decision (x y : R) : Decision (x > y) := Rgt_dec x y.
#[global] Instance Rge_decision (x y : R) : Decision (x >= y) := Rge_dec x y.
#[global] Instance R_eq_decision : EqDecision R := Req_dec_T.
#[global] Instance R_inhabited : Inhabited R := populate 0.

(** ** Points and vectors: numpy arrays of shape (2,) *)

Record Point : Type := mkPoint { px : R; py : R }.

Declare Scope vec_scope.
Delimit Scope vec_scope with V.
Bind Scope vec_scope with Point.

Definition vadd (p q : Point) : Point := mkPoint (px p + px q) (py p + py q).
Definition vsub (p q : Point) : Point := mkPoint (px p - px q) (py p - py q).
(** [v * k] and [v / k] for an array [v] and a scalar [k]. *)
Definition vscale (v : Point) (k : R) : Point := mkPoint (px v * k) (py v * k).
Definition vdiv (v : Point) (k : R) : Point := mkPoint (px v / k) (py v / k).
(** [np.dot(u, v)] and [np.sum(v ** 2)]. *)
Definition dot (u v : Point) : R := px u * px v + py u * py v.
Definition sum_sq (v : Point) : R := px v ^ 2 + py v ^ 2.
(** [np.linalg.norm(v)]. *)
Definition norm (v : Point) : R := sqrt (sum_sq v).

Infix "+" := vadd : vec_scope.
Infix "-" := vsub : vec_scope.

#[global] Instance Point_inhabited : Inhabited Point := populate (mkPoint 0 0).

(** [np.radians] and [np.degrees]. *)
Definition radians (deg : R) : R := deg * (PI / 180).
Definition degrees (rad : R) : R := rad * (180 / PI).

(** ** utils.py: geometry primitives *)

Definition pol2cart (rho phi : R) : Point := mkPoint (rho * cos phi) (rho * sin phi).

Definition get_circle_intersection
    (p1 : Point) (r1 : R) (p2 : Point) (r2 : R) (chirality : Z) : option Point :=
  let d2 := sum_sq (p1 - p2)%V in
  let d := sqrt d2 in
  if bool_decide (d > r1 + r2) || bool_decide (d < Rabs (r1 - r2)) || bool_decide (d = 0)
  then None
  else
    let a := (r1 ^ 2 - r2 ^ 2 + d2) / (2 * d) in
    let h := sqrt (Rmax 0 (r1 ^ 2 - a ^ 2)) in
    let x2 := px p1 + a * (px p2 - px p1) / d in
    let y2 := py p1 + a * (py p2 - py p1) / d in
    let dx := py p2 - py p1 in
    let dy := px p2 - px p1 in
    let x3_1 := x2 + h * dx / d in
    let y3_1 := y2 - h * dy / d in
    let x3_2 := x2 - h * dx / d in
    let y3_2 := y2 + h * dy / d in
    if bool_decide (chirality = 1%Z) then Some (mkPoint x3_1 y3_1)
    else Some (mkPoint x3_2 y3_2).

Definition dist_point_segment (p a b : Point) : R :=
  let ab := (b - a)%V in
  let ap := (p - a)%V in
  let len_sq := sum_sq ab in
  if bool_decide (len_sq = 0) then norm ap
  else
    let t := Rmax 0 (Rmin 1 (dot ap ab / len_sq)) in
    let projection := (a + vscale ab t)%V in
    norm (p - projection)%V.

Definition ccw (A B C : Point) : bool :=
  bool_decide ((py C - py A) * (px B - px A) > (py B - py A) * (px C - px A)).

(** Python's [!=] on two booleans is exclusive or. *)
Definition intersect (A B C D : Point) : bool :=
  xorb (ccw A C D) (ccw B C D) && xorb (ccw A B C) (ccw A B D).

Abbreviation Segment := (Point * Point)%type.

Definition min_dist_segments (seg1 seg2 : Segment) : R :=
  let '(p1, p2) := seg1 in
  let '(p3, p4) := seg2 in
  if intersect p1 p2 p3 p4 then 0
  else
    let d1 := dist_point_segment p3 p1 p2 in
    let d2 := dist_point_segment p4 p1 p2 in
    let d3 := dist_point_segment p1 p3 p4 in
    let d4 := dist_point_segment p2 p3 p4 in
    Rmin d1 (Rmin d2 (Rmin d3 d4)).

(** [get_scan_limits_at_y] and the ellipse fitter use a few numpy and Python
    built-ins, modelled by their documented meaning. *)

(** [max(l)] and [min(l)] of a non-empty list (Python raises on an empty
    one; every call below is on a list already known to be non-empty). *)
Definition list_max (l : list R) : R :=
  match l with [] => 0 | x :: l' => foldl Rmax x l' end.
Definition list_min (l : list R) : R :=
  match l with [] => 0 | x :: l' => foldl Rmin x l' end.

(** [math.ceil] and Python's [int(x)], which truncates toward zero. *)
Definition ceilZ (x : R) : Z := (- Int_part (- x))%Z.
Definition truncZ (x : R) : Z :=
  if bool_decide (0 <= x) then Int_part x else ceilZ x.

(** [np.arange(start, stop, step)]: [ceil((stop - start) / step)] values
    [start + i * step]. *)
Definition arange (start stop step : R) : list R :=
  (λ i : nat, start + INR i * step) <$> seq 0 (Z.to_nat (ceilZ ((stop - start) / step))).

(** [np.linspace(start, stop, num)], endpoint included. *)
Definition linspace (start stop : R) (num : nat) : list R :=
  let div := (num - 1)%nat in
  let delta := stop - start in
  let y := (λ i : nat,
              if bool_decide (0 < div)%nat then start + INR i * (delta / INR div)
              else start + INR i * delta) <$> seq 0 num in
  if bool_decide (1 < num)%nat then <[div := stop]> y else y.

(** [np.arctan2(y, x)], with values in (-pi, pi]. *)
Definition arctan2 (y x : R) : R :=
  if bool_decide (0 < x) then atan (y / x)
  else if bool_decide (x < 0) then
    (if bool_decide (0 <= y) then atan (y / x) + PI else atan (y / x) - PI)
  else if bool_decide (0 < y) then PI / 2
  else if bool_decide (y < 0) then - (PI / 2)
  else 0.

Definition get_scan_limits_at_y (y : R) (hull_lines : list Segment) : R * R :=
  let intersections :=
    flat_map (λ '(p1, p2),
      if (bool_decide (py p1 <= y) && bool_decide (y <= py p2))
         || (bool_decide (py p2 <= y) && bool_decide (y <= py p1))
      then
        if bool_decide (Rabs (py p2 - py p1) < 1e-5) then []
        else
          let t := (y - py p1) / (py p2 - py p1) in
          let x_inter := px p1 + t * (px p2 - px p1) in
          [x_inter]
      else []) hull_lines in
  match intersections with
  | [] => (0, 0)
  | _ =>
    let neg_x := filter (λ x, x < -0.1) intersections in
    let pos_x := filter (λ x, x > 0.1) intersections in
    match neg_x, pos_x with
    | [], _ | _, [] => (0, 0)
    | _, _ =>
      let limit_left := list_max neg_x in
      let limit_right := list_min pos_x in
      (limit_left, limit_right)
    end
  end.

(** The required half-width of the candidate ellipse at row [j], as the
    innermost loop of [calculate_max_centered_ellipse] computes it. *)
Definition req_half_width (w_cand half_h center_y y_curr : R) : R :=
  let dy := Rabs (y_curr - center_y) in
  let term := 1 - (dy / half_h) ^ 2 in
  let term := if bool_decide (term < 0) then 0 else term in
  (w_cand / 2.0) * sqrt term.

(** The rows [idx_start .. idx_end] a candidate covers. *)
Definition ellipse_rows (min_y resolution center_y half_h : R) : Z * Z :=
  (truncZ ((center_y - half_h - min_y) / resolution),
   truncZ ((center_y + half_h - min_y) / resolution)).

(** [for j in range(idx_start, idx_end + 1)]: does some covered row
    collide? *)
Definition ellipse_collides (scan_ys profile_radius : list R)
    (w_cand half_h center_y : R) (idx_start idx_end : Z) : bool :=
  existsb (λ j : Z,
      let y_curr := scan_ys !!! Z.to_nat j in
      bool_decide (req_half_width w_cand half_h center_y y_curr
                   > profile_radius !!! Z.to_nat j))
    (seqZ idx_start (idx_end + 1 - idx_start)).

(** [for w_cand in test_widths]: the value of [valid_w] when the loop
    ends.  The first [break] leaves it at 0.0, [continue] moves on to the
    next candidate, the second [break] keeps the candidate. *)
Fixpoint find_valid_w (scan_ys profile_radius : list R)
    (min_y resolution aspect_ratio best_width center_y : R)
    (test_widths : list R) : R :=
  match test_widths with
  | [] => 0.0
  | w_cand :: rest =>
    if bool_decide (w_cand <= best_width) then 0.0
    else
      let h_cand := w_cand * aspect_ratio in
      let half_h := h_cand / 2.0 in
      let '(idx_start, idx_end) := ellipse_rows min_y resolution center_y half_h in
      if bool_decide (idx_start < 0)%Z || bool_decide (idx_end >= Z.of_nat (length scan_ys))%Z
      then find_valid_w scan_ys profile_radius min_y resolution aspect_ratio
             best_width center_y rest
      else if ellipse_collides scan_ys profile_radius w_cand half_h center_y idx_start idx_end
      then find_valid_w scan_ys profile_radius min_y resolution aspect_ratio
             best_width center_y rest
      else w_cand
  end.

(** One iteration of [for i, center_y in enumerate(scan_ys)] on the pair
    [(best_width, best_y)]. *)
Definition center_step (scan_ys profile_radius : list R)
    (min_y resolution aspect_ratio : R) (st : R * R) (ic : nat * R) : R * R :=
  let '(best_width, best_y) := st in
  let '(i, center_y) := ic in
  let max_possible_r_at_center := profile_radius !!! i in
  if bool_decide (max_possible_r_at_center < 1.0) then st
  else
    let current_w := max_possible_r_at_center * 2.0 in
    let test_widths := arange current_w 0 (-2.0) in
    let valid_w := find_valid_w scan_ys profile_radius min_y resolution aspect_ratio
                     best_width center_y test_widths in
    if bool_decide (valid_w > best_width) then (valid_w, center_y) else st.

(** The width profile: for each scanned height, the symmetric free radius. *)
Definition profile_of (hull_lines : list Segment) (scan_ys : list R) : list R :=
  (λ y, let '(lim_l, lim_r) := get_scan_limits_at_y y hull_lines in
        if bool_decide (lim_l = 0) && bool_decide (lim_r = 0) then 0.0
        else Rmin (Rabs lim_l) (Rabs lim_r)) <$> scan_ys.

Definition hull_ys (hull_lines : list Segment) : list R :=
  flat_map (λ '(p1, p2), [py p1; py p2]) hull_lines.

Definition calculate_max_centered_ellipse
    (hull_lines : list Segment) (aspect_ratio : R) : R * R * R :=
  match hull_lines with
  | [] => (0.0, 0.0, 0.0)
  | _ =>
    let ys := hull_ys hull_lines in
    match ys with
    | [] => (0.0, 0.0, 0.0)
    | _ =>
      let min_y := list_min ys in
      let max_y := list_max ys in
      let resolution := 1.0 in
      let scan_ys := arange min_y max_y resolution in
      let profile_radius := profile_of hull_lines scan_ys in
      let '(best_width, best_y) :=
        foldl (center_step scan_ys profile_radius min_y resolution aspect_ratio)
              (0.0, 0.0) (imap (λ i y, (i, y)) scan_ys) in
      (best_y, best_width, best_width * aspect_ratio)
    end
  end.

(** ** Loops and errors *)

(** [for x in xs: body] over a mutable accumulator, where the body may
    raise: the loop stops at the first error. *)
Fixpoint for_each {A S : Type} (xs : list A) (body : A → S → option S) (s : S) : option S :=
  match xs with
  | [] => Some s
  | x :: xs' => s' ← body x s; for_each xs' body s'
  end.

(** Statements that mutate [self] and may raise: the state reached is kept
    when an exception leaves the method. *)
Inductive exn : Type := KeyError (key : string).

Inductive outcome (A : Type) : Type :=
  | Ok (a : A)
  | Raise (e : exn).
Arguments Ok {A} a.
Arguments Raise {A} e.

Definition Stmt (S A : Type) : Type := S → S * outcome A.

#[global] Instance Stmt_ret {S} : MRet (Stmt S) := λ A a s, (s, Ok a).
#[global] Instance Stmt_bind {S} : MBind (Stmt S) := λ A B f m s,
  match m s with
  | (s', Ok a) => f a s'
  | (s', Raise e) => (s', Raise e)
  end.

(** [params[key]] *)
Definition get_item {S} (params : gmap string R) (key : string) : Stmt S R := λ s,
  match params !! key with
  | Some v => (s, Ok v)
  | None => (s, Raise (KeyError key))
  end.

(** [self.attr = v], given the setter of the attribute. *)
Definition assign {S} (set : R → S → S) (v : R) : Stmt S unit := λ s, (set v s, Ok tt).

(** ** configs/leg_interface.py: the interface of a leg model *)

Abbreviation JointSet := (gmap string Point).

Class LegModel (L : Type) : Type := {
  forward_kinematics : L → R → R → option Point * JointSet;
  update_params : gmap string R → Stmt L unit;
  check_collisions : L → JointSet → option bool;
}.

(** [_hits_servo], the same text in the three classes that define it. *)
Definition hits_servo (collision_threshold : R) (segment : Segment) (servo_pos : Point) : bool :=
  let '(p1, p2) := segment in
  if bool_decide (norm (p1 - servo_pos)%V < 1e-3) || bool_decide (norm (p2 - servo_pos)%V < 1e-3)
  then false
  else bool_decide (dist_point_segment servo_pos p1 p2 < collision_threshold).

(** ** configs/serial.py *)

Module SerialLeg.

Record t : Type := mk {
    l1 : R; l2 : R;
    offset_t1 : R; offset_t2 : R;
    base_pos : Point;
    collision_threshold : R;
  }.

Definition set_l1 (v : R) (self : t) : t :=
    mk v (l2 self) (offset_t1 self) (offset_t2 self) (base_pos self) (collision_threshold self).
Definition set_l2 (v : R) (self : t) : t :=
    mk (l1 self) v (offset_t1 self) (offset_t2 self) (base_pos self) (collision_threshold self).

  (** The state [__init__] leaves. *)
Definition init : t := mk 50.0 95.0 0.0 0.0 (mkPoint 0.0 0.0) 10.0.

Definition update_params (params : gmap string R) : Stmt t unit :=
    v ← get_item params "L1 (S1->Knee)"; assign set_l1 v;;
    v ← get_item params "L2 (Knee->Foot)"; assign set_l2 v.

Definition forward_kinematics (self : t) (theta1_deg theta2_deg : R)
      : option Point * JointSet :=
    let theta1 := radians theta1_deg + offset_t1 self in
    let theta2 := radians theta2_deg + offset_t2 self in
    let point_knee := (base_pos self + pol2cart (l1 self) theta1)%V in
    let point_foot := (point_knee + pol2cart (l2 self) (theta1 - theta2))%V in
    (Some point_foot,
     {[ "Base" := base_pos self; "Knee" := point_knee; "Foot" := point_foot ]}).

Definition check_collisions (self : t) (joints : JointSet) : option bool :=
    point_foot ← joints !! "Foot";
    point_base ← joints !! "Base";
    if bool_decide (norm (point_foot - point_base)%V < collision_threshold self)
    then Some true
    else Some false.

End SerialLeg.

#[global] Instance SerialLeg_model : LegModel SerialLeg.t := {|
  forward_kinematics := SerialLeg.forward_kinematics;
  update_params := SerialLeg.update_params;
  check_collisions := SerialLeg.check_collisions;
|}.

(** ** configs/pantograph.py *)

Module PantographLeg.

Record t : Type := mk {
    l_thigh : R; l_crank : R; l_shin : R;
    offset_t1 : R; offset_t2 : R;
    servo1_pos : Point; servo2_pos : Point;
    collision_threshold : R;
  }.

Definition set_l_thigh (v : R) (self : t) : t :=
    mk v (l_crank self) (l_shin self) (offset_t1 self) (offset_t2 self)
       (servo1_pos self) (servo2_pos self) (collision_threshold self).
Definition set_l_crank (v : R) (self : t) : t :=
    mk (l_thigh self) v (l_shin self) (offset_t1 self) (offset_t2 self)
       (servo1_pos self) (servo2_pos self) (collision_threshold self).
Definition set_l_shin (v : R) (self : t) : t :=
    mk (l_thigh self) (l_crank self) v (offset_t1 self) (offset_t2 self)
       (servo1_pos self) (servo2_pos self) (collision_threshold self).

Definition init : t :=
    mk 95.0 10.0 95.0 0.0 0.0 (mkPoint (-15.0) (-10.0)) (mkPoint 0.0 0.0) 10.0.

Definition update_params (params : gmap string R) : Stmt t unit :=
    v ← get_item params "L_Thigh (S2->Knee)"; assign set_l_thigh v;;
    v ← get_item params "L_Crank (S2->Link)"; assign set_l_crank v;;
    v ← get_item params "L_Shin (Knee->Foot)"; assign set_l_shin v.

Definition forward_kinematics (self : t) (theta1_deg theta2_deg : R)
      : option Point * JointSet :=
    let theta1 := radians theta1_deg + offset_t1 self in
    let theta2 := radians theta2_deg + offset_t2 self in
    let vec_thigh := pol2cart (l_thigh self) theta1 in
    let point_knee := (servo2_pos self + vec_thigh)%V in
    let point_thigh_connect := (servo2_pos self + pol2cart 35.0 theta1)%V in
    let vec_crank := pol2cart (l_crank self) theta2 in
    let point_crank := (servo2_pos self + vec_crank)%V in
    let point_mount := (point_crank + vec_thigh)%V in
    let vec_shin_dir := (point_mount - point_knee)%V in
    let norm := norm vec_shin_dir in
    if bool_decide (norm = 0) then (None, ∅)
    else
      let unit_shin := vdiv vec_shin_dir norm in
      let point_foot := (point_knee + vscale unit_shin (l_shin self))%V in
      (Some point_foot,
       {[ "S1" := servo1_pos self; "S2" := servo2_pos self; "Knee" := point_knee;
          "CrankTip" := point_crank; "Mount" := point_mount; "Foot" := point_foot;
          "ThighConnect" := point_thigh_connect ]}).

Definition _hits_servo (self : t) (segment : Segment) (servo_pos : Point) : bool :=
    hits_servo (collision_threshold self) segment servo_pos.

Definition check_collisions (self : t) (joints : JointSet) : option bool :=
    knee ← joints !! "Knee";
    s2 ← joints !! "S2";
    let vec_thigh := (knee - s2)%V in
    crank_tip ← joints !! "CrankTip";
    s2 ← joints !! "S2";
    let vec_crank := (crank_tip - s2)%V in
    let ang_s1 := degrees (arctan2 (py vec_thigh) (px vec_thigh)) in
    let ang_s2 := degrees (arctan2 (py vec_crank) (px vec_crank)) in
    if bool_decide (ang_s1 < 80) then Some true
    else if bool_decide (ang_s1 - ang_s2 > 170) then Some true
    else if bool_decide (ang_s2 > ang_s1 - 10) then Some true
    else Some false.

End PantographLeg.

#[global] Instance PantographLeg_model : LegModel PantographLeg.t := {|
  forward_kinematics := PantographLeg.forward_kinematics;
  update_params := PantographLeg.update_params;
  check_collisions := PantographLeg.check_collisions;
|}.

(** ** configs/fivebar.py *)

Module FiveBarRearLeg.

Record t : Type := mk {
  l1 : R; l2 : R; l3 : R; l4 : R; l5 : R;
  offset_t1 : R; offset_t2 : R;
  servo1_pos : Point; servo2_pos : Point;
  collision_threshold : R;
}.

Definition set_l1 (v : R) (self : t) : t :=
  mk v (l2 self) (l3 self) (l4 self) (l5 self) (offset_t1 self) (offset_t2 self)
     (servo1_pos self) (servo2_pos self) (collision_threshold self).
Definition set_l2 (v : R) (self : t) : t :=
  mk (l1 self) v (l3 self) (l4 self) (l5 self) (offset_t1 self) (offset_t2 self)
     (servo1_pos self) (servo2_pos self) (collision_threshold self).
Definition set_l3 (v : R) (self : t) : t :=
  mk (l1 self) (l2 self) v (l4 self) (l5 self) (offset_t1 self) (offset_t2 self)
     (servo1_pos self) (servo2_pos self) (collision_threshold self).
Definition set_l4 (v : R) (self : t) : t :=
  mk (l1 self) (l2 self) (l3 self) v (l5 self) (offset_t1 self) (offset_t2 self)
     (servo1_pos self) (servo2_pos self) (collision_threshold self).
Definition set_l5 (v : R) (self : t) : t :=
  mk (l1 self) (l2 self) (l3 self) (l4 self) v (offset_t1 self) (offset_t2 self)
     (servo1_pos self) (servo2_pos self) (collision_threshold self).

Definition init : t :=
  mk 45.0 45.0 50.0 45.0 95.0 0.0 0.0 (mkPoint (-15.0) (-10.0)) (mkPoint 0.0 0.0) 10.0.

Definition update_params (params : gmap string R) : Stmt t unit :=
  v ← get_item params "L1 (S1->A)"; assign set_l1 v;;
  v ← get_item params "L2 (A->B)"; assign set_l2 v;;
  v ← get_item params "L3 (S2->C)"; assign set_l3 v;;
  v ← get_item params "L4 (B->C)"; assign set_l4 v;;
  v ← get_item params "L5 (Ext. C)"; assign set_l5 v.

Definition forward_kinematics (self : t) (theta1_deg theta2_deg : R)
    : option Point * JointSet :=
  let theta1 := radians theta1_deg + offset_t1 self in
  let theta2 := radians theta2_deg + offset_t2 self in
  let point_a := (servo1_pos self + pol2cart (l1 self) theta1)%V in
  let point_c := (servo2_pos self + pol2cart (l3 self) theta2)%V in
  match get_circle_intersection point_a (l2 self) point_c (l4 self) (-1) with
  | None => (None, ∅)
  | Some point_b =>
    let vec_cb := (point_c - point_b)%V in
    let norm := norm vec_cb in
    if bool_decide (norm < 1e-6) then (None, ∅)
    else
      let unit_vector := vdiv vec_cb norm in
      let point_foot := (point_c + vscale unit_vector (l5 self))%V in
      (Some point_foot,
       {[ "S1" := servo1_pos self; "S2" := servo2_pos self; "A" := point_a;
          "B" := point_b; "C" := point_c; "Foot" := point_foot ]})
  end.

Definition _hits_servo (self : t) (segment : Segment) (servo_pos : Point) : bool :=
  hits_servo (collision_threshold self) segment servo_pos.

Definition check_collisions (self : t) (joints : JointSet) : option bool :=
  s1 ← joints !! "S1"; a ← joints !! "A";
  let seg_s1_a := (s1, a) in
  s2 ← joints !! "S2"; c ← joints !! "C";
  let seg_s2_c := (s2, c) in
  a ← joints !! "A"; b ← joints !! "B";
  let seg_a_b := (a, b) in
  b ← joints !! "B"; c ← joints !! "C";
  let seg_b_c := (b, c) in
  c ← joints !! "C"; foot ← joints !! "Foot";
  let seg_c_foot := (c, foot) in
  let segments := [seg_s1_a; seg_s2_c; seg_a_b; seg_b_c; seg_c_foot] in
  s1 ← joints !! "S1"; s2 ← joints !! "S2";
  let servos := [s1; s2] in
  if existsb (λ seg, existsb (λ servo, _hits_servo self seg servo) servos) segments
  then Some true
  else if bool_decide (min_dist_segments seg_s1_a seg_s2_c < collision_threshold self)
  then Some true
  else if bool_decide (min_dist_segments seg_s1_a seg_b_c < collision_threshold self)
  then Some true
  else if bool_decide (min_dist_segments seg_s2_c seg_a_b < collision_threshold self)
  then Some true
  else Some false.

End FiveBarRearLeg.

#[global] Instance FiveBarRearLeg_model : LegModel FiveBarRearLeg.t := {|
  forward_kinematics := FiveBarRearLeg.forward_kinematics;
  update_params := FiveBarRearLeg.update_params;
  check_collisions := FiveBarRearLeg.check_collisions;
|}.

Module FiveBarFrontLeg.

Record t : Type := mk {
  l1 : R; l2 : R; l3 : R; l4 : R; l5 : R;
  offset_t1 : R; offset_t2 : R;
  servo1_pos : Point; servo2_pos : Point;
  collision_threshold : R;
}.

Definition set_l1 (v : R) (self : t) : t :=
  mk v (l2 self) (l3 self) (l4 self) (l5 self) (offset_t1 self) (offset_t2 self)
     (servo1_pos self) (servo2_pos self) (collision_threshold self).
Definition set_l2 (v : R) (self : t) : t :=
  mk (l1 self) v (l3 self) (l4 self) (l5 self) (offset_t1 self) (offset_t2 self)
     (servo1_pos self) (servo2_pos self) (collision_threshold self).
Definition set_l3 (v : R) (self : t) : t :=
  mk (l1 self) (l2 self) v (l4 self) (l5 self) (offset_t1 self) (offset_t2 self)
     (servo1_pos self) (servo2_pos self) (collision_threshold self).
Definition set_l4 (v : R) (self : t) : t :=
  mk (l1 self) (l2 self) (l3 self) v (l5 self) (offset_t1 self) (offset_t2 self)
     (servo1_pos self) (servo2_pos self) (collision_threshold self).
Definition set_l5 (v : R) (self : t) : t :=
  mk (l1 self) (l2 self) (l3 self) (l4 self) v (offset_t1 self) (offset_t2 self)
     (servo1_pos self) (servo2_pos self) (collision_threshold self).

Definition init : t :=
  mk 45.0 45.0 50.0 45.0 95.0 0.0 0.0 (mkPoint (-15.0) (-10.0)) (mkPoint 0.0 0.0) 10.0.

Definition update_params (params : gmap string R) : Stmt t unit :=
  v ← get_item params "L1 (S1->A)"; assign set_l1 v;;
  v ← get_item params "L2 (S2->B)"; assign set_l2 v;;
  v ← get_item params "L3 (B->C)"; assign set_l3 v;;
  v ← get_item params "L4 (A->C)"; assign set_l4 v;;
  v ← get_item params "L5 (Ext. C)"; assign set_l5 v.

Definition forward_kinematics (self : t) (theta1_deg theta2_deg : R)
    : option Point * JointSet :=
  let theta1 := radians theta1_deg + offset_t1 self in
  let theta2 := radians theta2_deg + offset_t2 self in
  let point_a := (servo1_pos self + pol2cart (l1 self) theta1)%V in
  let point_b := (servo2_pos self + pol2cart (l2 self) theta2)%V in
  match get_circle_intersection point_a (l4 self) point_b (l3 self) (-1) with
  | None => (None, ∅)
  | Some point_c =>
    let vec_ca := (point_c - point_a)%V in
    let norm := norm vec_ca in
    if bool_decide (norm < 1e-6) then (None, ∅)
    else
      let unit_vector := vdiv vec_ca norm in
      let point_foot := (point_c + vscale unit_vector (l5 self))%V in
      (Some point_foot,
       {[ "S1" := servo1_pos self; "S2" := servo2_pos self; "A" := point_a;
          "B" := point_b; "C" := point_c; "Foot" := point_foot ]})
  end.

Definition _hits_servo (self : t) (segment : Segment) (servo_pos : Point) : bool :=
  hits_servo (collision_threshold self) segment servo_pos.

Definition check_collisions (self : t) (joints : JointSet) : option bool :=
  s1 ← joints !! "S1"; a ← joints !! "A";
  let seg_s1_a := (s1, a) in
  s2 ← joints !! "S2"; b ← joints !! "B";
  let seg_s2_b := (s2, b) in
  a ← joints !! "A"; c ← joints !! "C";
  let seg_a_c := (a, c) in
  b ← joints !! "B"; c ← joints !! "C";
  let seg_b_c := (b, c) in
  c ← joints !! "C"; foot ← joints !! "Foot";
  let seg_c_foot := (c, foot) in
  let segments := [seg_s1_a; seg_s2_b; seg_a_c; seg_b_c; seg_c_foot] in
  s1 ← joints !! "S1"; s2 ← joints !! "S2";
  let servos := [s1; s2] in
  if existsb (λ seg, existsb (λ servo, _hits_servo self seg servo) servos) segments
  then Some true
  else if bool_decide (min_dist_segments seg_s1_a seg_s2_b < collision_threshold self)
  then Some true
  else if bool_decide (min_dist_segments seg_s1_a seg_b_c < collision_threshold self)
  then Some true
  else if bool_decide (min_dist_segments seg_s2_b seg_a_c < collision_threshold self)
  then Some true
  else Some false.

End FiveBarFrontLeg.

#[global] Instance FiveBarFrontLeg_model : LegModel FiveBarFrontLeg.t := {|
  forward_kinematics := FiveBarFrontLeg.forward_kinematics;
  update_params := FiveBarFrontLeg.update_params;
  check_collisions := FiveBarFrontLeg.check_collisions;
|}.

(** ** utils.py: alpha shape of a point cloud *)

(** A row of [tri.simplices]: three indices into [points]. *)
Abbreviation Simplex := (nat * nat * nat)%type.
Abbreviation Edge := (nat * nat)%type.

(** [tuple(sorted((i, j)))] *)
Definition sorted_pair (i j : nat) : Edge :=
  if bool_decide (i ≤ j)%nat then (i, j) else (j, i).

(** [[tuple(sorted((simplex[i], simplex[(i + 1) % 3]))) for i in range(3)]] *)
Definition simplex_edges (simplex : Simplex) : list Edge :=
  let '(s0, s1, s2) := simplex in
  [sorted_pair s0 s1; sorted_pair s1 s2; sorted_pair s2 s0].

(** The body of [for edge in edges]. *)
Definition toggle (boundary_edges : gset Edge) (edge : Edge) : gset Edge :=
  if bool_decide (edge ∈ boundary_edges) then boundary_edges ∖ {[edge]}
  else boundary_edges ∪ {[edge]}.

(** The body of [for simplex in tri.simplices] on the pair
    [(total_area, boundary_edges)]; an index outside [points] raises, and
    so does [1.0 / alpha_threshold] when [alpha_threshold] is 0. *)
Definition hull_body (points : list Point) (alpha_threshold : R)
    (simplex : Simplex) (st : R * gset Edge) : option (R * gset Edge) :=
  let '(total_area, boundary_edges) := st in
  let '(i0, i1, i2) := simplex in
  pa ← points !! i0; pb ← points !! i1; pc ← points !! i2;
  let a := norm (pa - pb)%V in
  let b := norm (pb - pc)%V in
  let c := norm (pc - pa)%V in
  let s := (a + b + c) / 2.0 in
  let tri_area := sqrt (Rmax 0 (s * (s - a) * (s - b) * (s - c))) in
  if bool_decide (tri_area < 1e-5) then Some st
  else
    let circum_r := (a * b * c) / (4.0 * tri_area) in
    if bool_decide (alpha_threshold = 0) then None
    else if bool_decide (circum_r < 1.0 / alpha_threshold) then
      let edges := simplex_edges simplex in
      Some (total_area + tri_area, foldl toggle boundary_edges edges)
    else Some st.

(** [[points[i], points[j]]] for one boundary edge. *)
Definition edge_line (points : list Point) (e : Edge) : option Segment :=
  p ← points !! e.1; q ← points !! e.2; Some (p, q).

Section AlphaShape.

(** [scipy.spatial.Delaunay(points).simplices]; [None] when Qhull rejects
    the input.  The triangulation itself is library code and stays
    abstract. *)
Variable Delaunay : list Point → option (list Simplex).

(** The loop of [calculate_concave_hull], up to the edge set. *)
Definition hull_edges (points : list Point) (alpha_threshold : R)
    : option (R * gset Edge) :=
  simplices ← Delaunay points;
  for_each simplices (hull_body points alpha_threshold) (0.0, ∅).

Definition calculate_concave_hull (points : list Point) (alpha_threshold : R)
    : option (R * list Segment) :=
  if bool_decide (length points < 4)%nat then Some (0.0, [])
  else
    '(total_area, boundary_edges) ← hull_edges points alpha_threshold;
    lines ← mapM (edge_line points) (elements boundary_edges);
    Some (total_area, lines).

(** ** configs/leg_interface.py: the workspace scan *)

Context {L : Type} `{!LegModel L}.

(** The body of the inner loop on the list [points]. *)
Definition scan_cell (self : L) (theta1 theta2 : R) (points : list Point)
    : option (list Point) :=
  let '(end_effector, joints) := forward_kinematics self theta1 theta2 in
  match end_effector with
  | Some p =>
    collides ← check_collisions self joints;
    if negb collides then Some (points ++ [p]) else Some points
  | None => Some points
  end.

Definition sweep (self : L) (scan_range : list R) : option (list Point) :=
  for_each scan_range (λ theta1,
    for_each scan_range (λ theta2, scan_cell self theta1 theta2)) [].

Definition get_workspace (self : L) (resolution : nat)
    : option (list R * list R * R * list Segment) :=
  let scan_range := linspace 0 180 resolution in
  points ← sweep self scan_range;
  match points with
  | [] => Some ([], [], 0.0, [])
  | _ =>
    '(area, hull_lines) ← calculate_concave_hull points 0.04;
    Some (px <$> points, py <$> points, area, hull_lines)
  end.

End AlphaShape.

(** ** ui_manager.py: the vertical stack of widgets *)

(** A rectangle [[left, bottom, width, height]] in figure coordinates, as
    handed to [fig.add_axes]. *)
Record Rect : Type := mkRect { rx : R; ry : R; rw : R; rh : R }.

(** What [add_slider] places: the label text and the value text, both at
    height [y_text], the axes of the bar, and the step of the slider. *)
Record SliderPlacement : Type := mkSliderPlacement {
  label_x : R; val_x : R; y_text : R; bar : Rect; valstep : R;
}.

(** The widgets themselves are matplotlib objects; each method is
    modelled by the geometry it places and by its effect on the cursor.  A
    method that returns [None] (or a tuple of [None]) returns [None]
    here. *)
Module StackLayout.

Record t : Type := mk {
  x : R; bottom_limit : R; width : R; top_y : R; current_y : R; padding : R;
}.

Definition set_current_y (v : R) (self : t) : t :=
  mk (x self) (bottom_limit self) (width self) (top_y self) v (padding self).

(** [__init__(fig, rect, padding)] *)
Definition init (rect : Rect) (padding : R) : t :=
  mk (rx rect) (ry rect) (rw rect) (ry rect + rh rect) (ry rect + rh rect) padding.

Definition add_space (size : option R) (self : t) : t :=
  let size := match size with None => padding self | Some size => size end in
  set_current_y (current_y self - size) self.

Definition check_space (height : R) (self : t) : bool :=
  if bool_decide (current_y self - height < bottom_limit self) then false else true.

(** Returns the anchor of the text. *)
Definition add_header (size : R) (self : t) : t * option Point :=
  if negb (check_space size self) then (self, None)
  else
    let self := set_current_y (current_y self - size) self in
    let text_obj := mkPoint (x self) (current_y self) in
    let self := add_space (Some 0.005) self in
    (self, Some text_obj).

(** Returns the two ends of the line. *)
Definition add_separator (self : t) : t * option Segment :=
  if negb (check_space 0.01 self) then (self, None)
  else
    let self := add_space (Some 0.005) self in
    let line := (mkPoint (x self) (current_y self),
                 mkPoint (x self + width self) (current_y self)) in
    let self := add_space (Some 0.01) self in
    (self, Some line).

Definition add_radio (height : R) (self : t) : t * option Rect :=
  if negb (check_space height self) then (self, None)
  else
    let self := set_current_y (current_y self - height) self in
    let rect := mkRect (x self) (current_y self) (width self) height in
    let self := add_space None self in
    (self, Some rect).

(** [cols] and [col_idx] are Python integers; dividing by [cols = 0]
    raises, which is the outer [None]. *)
Definition add_slider (val_max : R) (cols col_idx : Z) (self : t)
    : option (t * option SliderPlacement) :=
  if bool_decide (cols = 0%Z) then None
  else
    let col_width := (width self - padding self * IZR (cols - 1)) / IZR cols in
    let col_x := x self + IZR col_idx * (col_width + padding self) in
    let height_text := 0.02 in
    let height_bar := 0.025 in
    let total_height := height_text + height_bar in
    if bool_decide (col_idx = 0%Z) && negb (check_space total_height self)
    then Some (self, None)
    else
      let self := if bool_decide (col_idx = 0%Z)
                  then set_current_y (current_y self - height_text) self else self in
      let y_text := current_y self + 0.005 in
      let y_bar := current_y self - height_bar in
      let rect := mkRect col_x y_bar col_width height_bar in
      let placement :=
        mkSliderPlacement col_x (col_x + col_width) y_text rect
          (if bool_decide (val_max = 180) then 1 else 5) in
      let self := if bool_decide (col_idx = (cols - 1)%Z)
                  then add_space (Some 0.015)
                         (set_current_y (current_y self - height_bar) self)
                  else self in
      Some (self, Some placement).

Definition add_button (height : R) (self : t) : t * option Rect :=
  if negb (check_space height self) then (self, None)
  else
    let self := set_current_y (current_y self - height) self in
    let rect := mkRect (x self) (current_y self) (width self) height in
    let self := add_space None self in
    (self, Some rect).

Definition get_cursor (self : t) : R := current_y self.

Definition set_cursor (y : R) (self : t) : t := set_current_y y self.

End StackLayout.

(** ** dashboard.py: the layout of the parameter sliders *)

(** The layout calls of [update_dynamic_sliders], for the entries
    [(val, v_min, v_max)] of [current_model.parameters]: the header, one
    slider per parameter in two columns, a gap, the workspace button.
    Returns the placements of the sliders that were created and the axes
    of the button. *)
Definition slider_step (st : StackLayout.t * list SliderPlacement)
    (ip : nat * (R * R * R)) : option (StackLayout.t * list SliderPlacement) :=
  let '(layout, sliders) := st in
  let '(i, (val, v_min, v_max)) := ip in
  let col_idx := (Z.of_nat i `mod` 2)%Z in
  '(layout, slider) ← StackLayout.add_slider v_max 2 col_idx layout;
  match slider with
  | Some placement => Some (layout, sliders ++ [placement])
  | None => Some (layout, sliders)
  end.

Definition update_dynamic_sliders (dynamic_start_y : R) (params : list (R * R * R))
    (layout : StackLayout.t)
    : option (StackLayout.t * list SliderPlacement * option Rect) :=
  let layout := StackLayout.set_cursor dynamic_start_y layout in
  let '(layout, header_param) := StackLayout.add_header 0.025 layout in
  '(layout, sliders) ←
    for_each (imap (λ i p, (i, p)) params) (λ ip st, slider_step st ip) (layout, []);
  let layout := StackLayout.add_space (Some 0.02) layout in
  let '(layout, ax_btn) := StackLayout.add_button 0.06 layout in
  Some (layout, sliders, ax_btn).

(** ** The orientation tests with explicit rounding *)



(** ** The binary64 reading *)

(** numpy's float64 is IEEE binary64 with rounding to nearest even, which
    is what Rocq's primitive floats compute.  [np.cos] and [np.sin] are
    library code: a function that calls them takes their two values as
    arguments here. *)
Module Binary64.

Import PrimFloat.

#[local] Set Warnings "-inexact-float".

Record Point : Type := mkPoint { px : float; py : float }.

Definition vadd (p q : Point) : Point := mkPoint (px p + px q)%float (py p + py q)%float.
Definition vsub (p q : Point) : Point := mkPoint (px p - px q)%float (py p - py q)%float.
Definition vscale (v : Point) (k : float) : Point :=
  mkPoint (px v * k)%float (py v * k)%float.
Definition vdiv (v : Point) (k : float) : Point :=
  mkPoint (px v / k)%float (py v / k)%float.

(** [np.linalg.norm(v)] of a pair: the root of [v.dot(v)]. *)
Definition norm (v : Point) : float := sqrt (px v * px v + py v * py v)%float.

(** [a > b] is [b < a]; both are false on a NaN. *)
Definition ccw (A B C : Point) : bool :=
  ltb ((py B - py A) * (px C - px A))%float ((py C - py A) * (px B - px A))%float.

Definition intersect (A B C D : Point) : bool :=
  xorb (ccw A C D) (ccw B C D) && xorb (ccw A B C) (ccw A B D).

(** [pol2cart(rho, phi)], given [np.cos(phi)] and [np.sin(phi)]. *)
Definition pol2cart (rho cos_phi sin_phi : float) : Point :=
  mkPoint (rho * cos_phi)%float (rho * sin_phi)%float.

(** [PantographLeg.forward_kinematics], given the cosine and sine of
    [theta1] and of [theta2]: the shin direction Mount - Knee it computes,
    and its result. *)
Definition Pantograph_foot_direction (l_thigh l_crank : float) (servo2_pos : Point)
    (cos1 sin1 cos2 sin2 : float) : Point :=
  let vec_thigh := pol2cart l_thigh cos1 sin1 in
  let point_knee := vadd servo2_pos vec_thigh in
  let vec_crank := pol2cart l_crank cos2 sin2 in
  let point_crank := vadd servo2_pos vec_crank in
  let point_mount := vadd point_crank vec_thigh in
  vsub point_mount point_knee.






End Binary64.


(** ** Vocabulary of the statements *)

(** Euclidean distance between two points. *)
Definition euclid_dist (p q : Point) : R :=
  sqrt ((px p - px q) ^ 2 + (py p - py q) ^ 2).

(** Mirror image of [p] in the line through [a] and [b]. *)
Definition reflect_across (a b p : Point) : Point :=
  let u := (b - a)%V in
  let t := dot (p - a)%V u / dot u u in
  let foot := (a + vscale u t)%V in
  (vscale foot 2 - p)%V.


(** The two circles have no common point the solver accepts: too far
    apart, one inside the other, or concentric. *)
Definition circles_infeasible (p1 : Point) (r1 : R) (p2 : Point) (r2 : R) : Prop :=
  let d := euclid_dist p1 p2 in
  d > r1 + r2 ∨ d < Rabs (r1 - r2) ∨ d = 0.

(** For each variant: whether its closure joint fails to exist at the
    given angles, and the vector its foot is extended along (when the
    variant has one and the closure joint exists). *)

Definition FiveBarRear_closure_infeasible
    (self : FiveBarRearLeg.t) (theta1_deg theta2_deg : R) : Prop :=
  let theta1 := radians theta1_deg + FiveBarRearLeg.offset_t1 self in
  let theta2 := radians theta2_deg + FiveBarRearLeg.offset_t2 self in
  let point_a := (FiveBarRearLeg.servo1_pos self + pol2cart (FiveBarRearLeg.l1 self) theta1)%V in
  let point_c := (FiveBarRearLeg.servo2_pos self + pol2cart (FiveBarRearLeg.l3 self) theta2)%V in
  circles_infeasible point_a (FiveBarRearLeg.l2 self) point_c (FiveBarRearLeg.l4 self).

Definition FiveBarRear_foot_direction
    (self : FiveBarRearLeg.t) (theta1_deg theta2_deg : R) : option Point :=
  let theta1 := radians theta1_deg + FiveBarRearLeg.offset_t1 self in
  let theta2 := radians theta2_deg + FiveBarRearLeg.offset_t2 self in
  let point_a := (FiveBarRearLeg.servo1_pos self + pol2cart (FiveBarRearLeg.l1 self) theta1)%V in
  let point_c := (FiveBarRearLeg.servo2_pos self + pol2cart (FiveBarRearLeg.l3 self) theta2)%V in
  point_b ← get_circle_intersection point_a (FiveBarRearLeg.l2 self)
              point_c (FiveBarRearLeg.l4 self) (-1);
  Some (point_c - point_b)%V.

Definition FiveBarFront_closure_infeasible
    (self : FiveBarFrontLeg.t) (theta1_deg theta2_deg : R) : Prop :=
  let theta1 := radians theta1_deg + FiveBarFrontLeg.offset_t1 self in
  let theta2 := radians theta2_deg + FiveBarFrontLeg.offset_t2 self in
  let point_a := (FiveBarFrontLeg.servo1_pos self + pol2cart (FiveBarFrontLeg.l1 self) theta1)%V in
  let point_b := (FiveBarFrontLeg.servo2_pos self + pol2cart (FiveBarFrontLeg.l2 self) theta2)%V in
  circles_infeasible point_a (FiveBarFrontLeg.l4 self) point_b (FiveBarFrontLeg.l3 self).

Definition FiveBarFront_foot_direction
    (self : FiveBarFrontLeg.t) (theta1_deg theta2_deg : R) : option Point :=
  let theta1 := radians theta1_deg + FiveBarFrontLeg.offset_t1 self in
  let theta2 := radians theta2_deg + FiveBarFrontLeg.offset_t2 self in
  let point_a := (FiveBarFrontLeg.servo1_pos self + pol2cart (FiveBarFrontLeg.l1 self) theta1)%V in
  let point_b := (FiveBarFrontLeg.servo2_pos self + pol2cart (FiveBarFrontLeg.l2 self) theta2)%V in
  point_c ← get_circle_intersection point_a (FiveBarFrontLeg.l4 self)
              point_b (FiveBarFrontLeg.l3 self) (-1);
  Some (point_c - point_a)%V.

(** The pantograph has no circle closure; its foot is extended along
    Mount - Knee. *)
Definition Pantograph_knee (self : PantographLeg.t) (theta1_deg : R) : Point :=
  let theta1 := radians theta1_deg + PantographLeg.offset_t1 self in
  (PantographLeg.servo2_pos self + pol2cart (PantographLeg.l_thigh self) theta1)%V.

Definition Pantograph_crank_vector (self : PantographLeg.t) (theta2_deg : R) : Point :=
  let theta2 := radians theta2_deg + PantographLeg.offset_t2 self in
  pol2cart (PantographLeg.l_crank self) theta2.

Definition Pantograph_mount (self : PantographLeg.t) (theta1_deg theta2_deg : R) : Point :=
  let theta1 := radians theta1_deg + PantographLeg.offset_t1 self in
  ((PantographLeg.servo2_pos self + Pantograph_crank_vector self theta2_deg)
   + pol2cart (PantographLeg.l_thigh self) theta1)%V.

Definition Pantograph_foot_direction
    (self : PantographLeg.t) (theta1_deg theta2_deg : R) : Point :=
  (Pantograph_mount self theta1_deg theta2_deg - Pantograph_knee self theta1_deg)%V.

(** [v / np.linalg.norm(v)] *)
Definition unit (v : Point) : Point := vdiv v (norm v).

(** A pantograph whose crank is a tenth of a micrometre long. *)
Definition tiny_crank_leg : PantographLeg.t :=
  PantographLeg.set_l_crank 1e-7 PantographLeg.init.

(** What a failed and a successful [forward_kinematics] hand back: no
    foot and an empty joint mapping, or a foot that is also the joint
    "Foot". *)
Definition fk_result_ok (r : option Point * JointSet) : Prop :=
  match r with
  | (None, joints) => joints = ∅
  | (Some foot, joints) => joints !! "Foot" = Some foot
  end.

(** A segment comes closer to a servo pivot than the threshold, and does
    not start or end on that pivot. *)
Definition servo_hit (threshold : R) (seg : Segment) (servo : Point) : Prop :=
  1e-3 <= norm (seg.1 - servo)%V ∧ 1e-3 <= norm (seg.2 - servo)%V
  ∧ dist_point_segment servo seg.1 seg.2 < threshold.

(** The serial leg at its default lengths, thigh up and shin folded back
    through the base. *)
Definition folded_serial_joints : JointSet :=
  (SerialLeg.forward_kinematics SerialLeg.init 90 180).2.

(** Heron's area of a triangle, clamped under the root, and its
    circumradius. *)
Definition heron_area (pa pb pc : Point) : R :=
  let a := norm (pa - pb)%V in
  let b := norm (pb - pc)%V in
  let c := norm (pc - pa)%V in
  let s := (a + b + c) / 2 in
  sqrt (Rmax 0 (s * (s - a) * (s - b) * (s - c))).

Definition circumradius (pa pb pc : Point) : R :=
  norm (pa - pb)%V * norm (pb - pc)%V * norm (pc - pa)%V / (4 * heron_area pa pb pc).

(** The triangle a simplex stands for, and the retention rule of the
    alpha shape. *)
Definition simplex_in_range (points : list Point) (s : Simplex) : Prop :=
  (s.1.1 < length points ∧ s.1.2 < length points ∧ s.2 < length points)%nat.

Definition simplex_area (points : list Point) (s : Simplex) : R :=
  heron_area (points !!! s.1.1) (points !!! s.1.2) (points !!! s.2).

Definition retained (points : list Point) (alpha_threshold : R) (s : Simplex) : Prop :=
  simplex_area points s >= 1e-5
  ∧ circumradius (points !!! s.1.1) (points !!! s.1.2) (points !!! s.2)
    < 1 / alpha_threshold.

#[global] Instance retained_dec points alpha s : Decision (retained points alpha s).
Proof. unfold retained. apply _. Defined.

(** [e] is one of the three sides of [s], as an unordered index pair. *)
Definition has_edge (e : Edge) (s : Simplex) : Prop := e ∈ simplex_edges s.

#[global] Instance has_edge_dec e s : Decision (has_edge e s).
Proof. unfold has_edge. apply _. Defined.

Definition Rsum (l : list R) : R := foldr Rplus 0 l.

(** A stand-in triangulation for four points: two triangles sharing the
    edge (1, 2). *)
Definition two_triangles (points : list Point) : option (list Simplex) :=
  if bool_decide (4 ≤ length points)%nat then Some [(0, 1, 2); (1, 3, 2)]%nat else None.

Definition unit_square : list Point :=
  [mkPoint 0 0; mkPoint 1 0; mkPoint 0 1; mkPoint 1 1].

(** Half-width of an ellipse of width [w] and height [h] at vertical
    distance [dy] from its centre. *)
Definition ellipse_half_width (w h dy : R) : R :=
  (w / 2) * sqrt (Rmax 0 (1 - (dy / (h / 2)) ^ 2)).

(** The non-collision invariant of the fitter, against a sampled profile:
    the rows [idx_start .. idx_end] the ellipse covers exist, and on each
    of them the ellipse is no wider than the profile. *)
Definition ellipse_fits (scan_ys profile_radius : list R)
    (min_y resolution : R) (center_y w h : R) : Prop :=
  let '(idx_start, idx_end) := ellipse_rows min_y resolution center_y (h / 2) in
  (0 ≤ idx_start)%Z ∧ (idx_end < Z.of_nat (length scan_ys))%Z
  ∧ ∀ j : Z, (idx_start ≤ j ≤ idx_end)%Z →
      ellipse_half_width w h (Rabs (scan_ys !!! Z.to_nat j - center_y))
      <= profile_radius !!! Z.to_nat j.

(** Row [i] can carry an ellipse of width [w]: its profile radius is at
    least 1, [w] is one of the widths tried from that row, and the
    ellipse fits. *)
Definition valid_center (scan_ys profile_radius : list R)
    (min_y resolution aspect_ratio : R) (i : nat) (center_y w : R) : Prop :=
  scan_ys !! i = Some center_y
  ∧ 1 <= profile_radius !!! i
  ∧ w ∈ arange (profile_radius !!! i * 2) 0 (-2)
  ∧ ellipse_fits scan_ys profile_radius min_y resolution center_y w (w * aspect_ratio).

(** Where a point of the scanned cloud comes from: a cell whose forward
    kinematics gave it as the foot and whose joint set passed the
    collision check. *)
Definition accepted_at {L : Type} `{!LegModel L} (self : L)
    (cells : list (R * R)) (p : Point) : Prop :=
  ∃ theta1 theta2 joints,
    (theta1, theta2) ∈ cells
    ∧ forward_kinematics self theta1 theta2 = (Some p, joints)
    ∧ check_collisions self joints = Some false.

(** What the pair [(best_width, best_y)] stands for throughout the outer
    loop of the fitter: nothing found yet, or a positive width that fits
    at a row. *)
Definition search_found (scan_ys profile_radius : list R)
    (min_y resolution aspect_ratio : R) (st : R * R) : Prop :=
  st = (0, 0)
  ∨ (st.1 > 0
     ∧ ∃ i, valid_center scan_ys profile_radius min_y resolution aspect_ratio i st.2 st.1).

(** A square boundary of half-width 10 around the origin, as four
    segments: left wall, right wall, floor, ceiling. *)
Definition square_hull : list Segment :=
  [ (mkPoint (-10) (-10), mkPoint (-10) 10);
    (mkPoint 10 (-10), mkPoint 10 10);
    (mkPoint (-10) (-10), mkPoint 10 (-10));
    (mkPoint (-10) 10, mkPoint 10 10) ].

(** Settle every comparison of constants in the goal. *)
Ltac decide_tests :=
  repeat match goal with
  | |- context [bool_decide ?P] =>
      first [ rewrite (bool_decide_eq_true_2 P) by (simpl; lra)
            | rewrite (bool_decide_eq_false_2 P) by (simpl; lra) ]
  end.

(** The point of the segment from [a] to [b] at parameter [s], and the
    points of the segment. *)
Definition segment_point (a b : Point) (s : R) : Point := (a + vscale (b - a) s)%V.

Definition on_segment (seg : Segment) (x : Point) : Prop :=
  ∃ s, 0 <= s <= 1 ∧ x = segment_point seg.1 seg.2 s.


(** Distance between hip and foot of a two-link chain with link lengths
    [l1], [l2] whose second link is turned by [knee_angle] against the
    first (law of cosines). *)
Definition two_link_reach (l1 l2 knee_angle : R) : R :=
  sqrt (l1 ^ 2 + l2 ^ 2 + 2 * l1 * l2 * cos knee_angle).

(** The verdict of a five-bar collision check once its joints are read:
    some segment hits some servo, or some cross-link gap is below the
    threshold. *)
Definition collision_verdict (th : R) (segments : list Segment) (servos : list Point)
    (gaps : list R) : bool :=
  existsb (λ seg, existsb (λ servo, hits_servo th seg servo) servos) segments
  || existsb (λ d, bool_decide (d < th)) gaps.

(** The joints the five-bar collision checks read. *)
Definition fivebar_joint_names : list string := ["S1"; "S2"; "A"; "B"; "C"; "Foot"].

(** The keys each [update_params] reads, in the order it reads them, and
    the first of a list of keys that a mapping lacks. *)
Definition SerialLeg_param_names : list string :=
  ["L1 (S1->Knee)"; "L2 (Knee->Foot)"].
Definition PantographLeg_param_names : list string :=
  ["L_Thigh (S2->Knee)"; "L_Crank (S2->Link)"; "L_Shin (Knee->Foot)"].
Definition FiveBarRearLeg_param_names : list string :=
  ["L1 (S1->A)"; "L2 (A->B)"; "L3 (S2->C)"; "L4 (B->C)"; "L5 (Ext. C)"].
Definition FiveBarFrontLeg_param_names : list string :=
  ["L1 (S1->A)"; "L2 (S2->B)"; "L3 (B->C)"; "L4 (A->C)"; "L5 (Ext. C)"].

Definition first_missing (names : list string) (params : gmap string R) : option string :=
  List.find (λ name, bool_decide (params !! name = None)) names.

Definition update_outcome (names : list string) (params : gmap string R)
    : outcome Datatypes.unit :=
  match first_missing names params with
  | Some name => Raise (KeyError name)
  | None => Ok tt
  end.

(** The foot one grid cell contributes to the cloud, if any: forward
    kinematics found a foot and the collision check answered false. *)
Definition accepted_foot {L : Type} `{!LegModel L} (self : L) (c : R * R) : option Point :=
  let '(end_effector, joints) := forward_kinematics self c.1 c.2 in
  match end_effector, check_collisions self joints with
  | Some p, Some false => Some p
  | _, _ => None
  end.

(** A boundary segment that is not nearly horizontal passes through the
    point [(x, y)]: a wall of the hull on the scan line at height [y]. *)
Definition wall_at (hull_lines : list Segment) (y x : R) : Prop :=
  ∃ seg, seg ∈ hull_lines ∧ 1e-5 <= Rabs (py seg.2 - py seg.1)
         ∧ on_segment seg (mkPoint x y).

(** A call of one of the methods of [StackLayout] that place a full-width
    widget or move the cursor down ([add_slider] with its default single
    column), and the axes rectangle the call creates, if any. *)
Inductive layout_call : Type :=
  | CallSpace (size : option R)
  | CallHeader (size : R)
  | CallSeparator
  | CallRadio (height : R)
  | CallSlider (val_max : R)
  | CallButton (height : R).

Definition run_call (c : layout_call) (self : StackLayout.t) : StackLayout.t * option Rect :=
  match c with
  | CallSpace size => (StackLayout.add_space size self, None)
  | CallHeader size => ((StackLayout.add_header size self).1, None)
  | CallSeparator => ((StackLayout.add_separator self).1, None)
  | CallRadio height => StackLayout.add_radio height self
  | CallSlider val_max =>
      match StackLayout.add_slider val_max 1 0 self with
      | Some (self', placement) => (self', bar <$> placement)
      | None => (self, None)
      end
  | CallButton height => StackLayout.add_button height self
  end.

Fixpoint run_calls (cs : list layout_call) (self : StackLayout.t)
    : StackLayout.t * list Rect :=
  match cs with
  | [] => (self, [])
  | c :: cs' =>
      let '(self', r) := run_call c self in
      let '(self'', rs) := run_calls cs' self' in
      (self'', option_list r ++ rs)
  end.

(** No size or height passed to the call is negative. *)
Definition call_sizes_nonneg (c : layout_call) : Prop :=
  match c with
  | CallSpace (Some size) | CallHeader size | CallRadio size | CallButton size => 0 <= size
  | CallSpace None | CallSeparator | CallSlider _ => True
  end.

(** The rectangle spans the width of the panel and lies between its bottom
    and its top. *)
Definition inside_panel (self : StackLayout.t) (r : Rect) : Prop :=
  rx r = StackLayout.x self ∧ rw r = StackLayout.width self
  ∧ StackLayout.bottom_limit self <= ry r
  ∧ ry r + rh r <= StackLayout.top_y self.

(** Each rectangle of the list lies entirely below all earlier ones. *)
Fixpoint stacked (rs : list Rect) : Prop :=
  match rs with
  | [] => True
  | r :: rs' => Forall (λ r', ry r' + rh r' <= ry r) rs' ∧ stacked rs'
  end.

(** The layout calls of [build_static_ui], on the panel the dashboard
    creates. *)
Definition build_static_ui_calls : list layout_call :=
  [ CallHeader 0.025; CallSeparator; CallRadio 0.10; CallSeparator;
    CallHeader 0.025; CallSlider 180; CallSlider 180; CallSeparator;
    CallHeader 0.025; CallSlider 90; CallSlider 90; CallSeparator;
    CallHeader 0.025; CallSlider 180; CallSeparator ].

Definition dashboard_panel : StackLayout.t :=
  StackLayout.init (mkRect 0.70 0.02 0.28 0.96) 0.005.

(** Run an [update_params] on a mapping, case by case on its lookups, and
    settle which key is the first one missing. *)
Ltac run_update :=
  unfold mbind, Stmt_bind, get_item, assign;
  repeat match goal with
         | |- context [?m !! ?key] =>
             lazymatch goal with
             | H : m !! key = _ |- _ => rewrite H
             | _ => let E := fresh "E" in destruct (m !! key) eqn:E
             end
         end.

Ltac decide_missing :=
  unfold update_outcome, first_missing; cbn [List.find];
  repeat match goal with
         | H : ?m !! ?key = Some _ |- context [bool_decide (?m !! ?key = None)] =>
             rewrite (bool_decide_eq_false_2 (m !! key = None))
               by (rewrite H; discriminate)
         | H : ?m !! ?key = None |- context [bool_decide (?m !! ?key = None)] =>
             rewrite (bool_decide_eq_true_2 (m !! key = None)) by exact H
         end.


(** The two angles, in degrees, that the pantograph's [check_collisions]
    recovers from a joint set: those of Knee - S2 and of CrankTip - S2. *)
Definition Pantograph_link_angles (joints : JointSet) : option (R * R) :=
  knee ← joints !! "Knee";
  s2 ← joints !! "S2";
  let vec_thigh := (knee - s2)%V in
  crank_tip ← joints !! "CrankTip";
  let vec_crank := (crank_tip - s2)%V in
  Some (degrees (arctan2 (py vec_thigh) (px vec_thigh)),
        degrees (arctan2 (py vec_crank) (px vec_crank))).

(** * Properties *)

(** ** Norms and distances *)

Lemma sum_sq_nonneg (v : Point) : 0 <= sum_sq v.
Proof. unfold sum_sq. nra. Qed.

Lemma sum_sq_vsub_sym (p q : Point) : sum_sq (p - q)%V = sum_sq (q - p)%V.
Proof. unfold sum_sq, vsub. simpl. ring. Qed.

Lemma norm_sqr (v : Point) : norm v * norm v = sum_sq v.
Proof. apply sqrt_sqrt, sum_sq_nonneg. Qed.

Lemma euclid_dist_norm (p q : Point) : euclid_dist p q = norm (p - q)%V.
Proof. reflexivity. Qed.

(** ** Circle intersection *)

(** The guard of [get_circle_intersection], as a proposition on the
    distance between the centres. *)
Lemma gci_none_iff (p1 p2 : Point) (r1 r2 : R) (chirality : Z) :
  get_circle_intersection p1 r1 p2 r2 chirality = None
  ↔ euclid_dist p1 p2 > r1 + r2 ∨ euclid_dist p1 p2 < Rabs (r1 - r2)
    ∨ euclid_dist p1 p2 = 0.
Proof.
  unfold get_circle_intersection. fold (norm (p1 - p2)%V).
  rewrite <- euclid_dist_norm. set (d := euclid_dist p1 p2).
  destruct (bool_decide (d > r1 + r2)) eqn:E1;
    destruct (bool_decide (d < Rabs (r1 - r2))) eqn:E2;
    destruct (bool_decide (d = 0)) eqn:E3; simpl;
    repeat match goal with
    | H : bool_decide _ = true |- _ => apply bool_decide_eq_true_1 in H
    | H : bool_decide _ = false |- _ => apply bool_decide_eq_false_1 in H
    end;
    try (split; [intros _; tauto | reflexivity]).
  destruct (bool_decide (chirality = 1%Z)); (split; [discriminate | tauto]).
Qed.


Lemma gci_some_inv p1 r1 p2 r2 chirality q :
  get_circle_intersection p1 r1 p2 r2 chirality = Some q →
  let d := euclid_dist p1 p2 in
  let a := (r1 ^ 2 - r2 ^ 2 + d * d) / (2 * d) in
  let h := sqrt (Rmax 0 (r1 ^ 2 - a ^ 2)) in
  let sign := if bool_decide (chirality = 1%Z) then 1 else -1 in
  d <= r1 + r2 ∧ Rabs (r1 - r2) <= d ∧ 0 < d ∧
  q = mkPoint (px p1 + a * (px p2 - px p1) / d + sign * h * (py p2 - py p1) / d)
              (py p1 + a * (py p2 - py p1) / d - sign * h * (px p2 - px p1) / d).
Proof.
  intros Hq d a h sign.
  assert (Hn : ¬ (d > r1 + r2 ∨ d < Rabs (r1 - r2) ∨ d = 0)).
  { intros H. apply (gci_none_iff p1 p2 r1 r2 chirality) in H. congruence. }
  assert (Hd : 0 <= d) by apply sqrt_pos.
  assert (Hdd : d * d = sum_sq (p1 - p2)%V)
    by (unfold d; rewrite euclid_dist_norm; apply norm_sqr).
  split; [lra|]. split; [lra|]. split; [lra|].
  revert Hq. unfold get_circle_intersection.
  fold (norm (p1 - p2)%V). rewrite <- euclid_dist_norm. fold d.
  rewrite <- Hdd. fold a. fold h.
  destruct (_ || _ || _); [discriminate|].
  unfold sign. destruct (bool_decide (chirality = 1%Z));
    intros [= <-]; f_equal; field; lra.
Qed.

(** C4. When [|r1 - r2| < d < r1 + r2] and [d > 0], the points chosen by
    chirality +1 and by chirality -1 are mirror images of each other in
    the line through the two centres. *)
Theorem chirality_solutions_are_reflections :
  ∀ (p1 : Point) (r1 : R) (p2 : Point) (r2 : R),
    let d := euclid_dist p1 p2 in
    Rabs (r1 - r2) < d → d < r1 + r2 → d > 0 →
    ∃ q_plus q_minus,
      get_circle_intersection p1 r1 p2 r2 1 = Some q_plus
      ∧ get_circle_intersection p1 r1 p2 r2 (-1) = Some q_minus
      ∧ reflect_across p1 p2 q_plus = q_minus
      ∧ reflect_across p1 p2 q_minus = q_plus.
Proof.
  intros p1 r1 p2 r2 d H1 H2 H3.
  destruct (get_circle_intersection p1 r1 p2 r2 1) as [qp|] eqn:Ep;
    [| apply gci_none_iff in Ep; fold d in Ep; lra].
  destruct (get_circle_intersection p1 r1 p2 r2 (-1)) as [qm|] eqn:Em;
    [| apply gci_none_iff in Em; fold d in Em; lra].
  exists qp, qm. split; [done|]. split; [done|].
  apply gci_some_inv in Ep as (_ & _ & _ & ->).
  apply gci_some_inv in Em as (_ & _ & _ & ->).
  fold d. simpl bool_decide.
  assert (Hdd : d * d = sum_sq (p1 - p2)%V)
    by (unfold d; rewrite euclid_dist_norm; apply norm_sqr).
  set (a := (r1 ^ 2 - r2 ^ 2 + d * d) / (2 * d)).
  set (h := sqrt (Rmax 0 (r1 ^ 2 - a ^ 2))).
  assert (Huu : dot (p2 - p1)%V (p2 - p1)%V ≠ 0).
  { replace (dot (p2 - p1)%V (p2 - p1)%V) with (d * d); [nra|].
    rewrite Hdd. unfold dot, sum_sq, vsub. simpl. ring. }
  clearbody a h. clear Hdd.
  unfold reflect_across, dot, vsub, vadd, vscale in *. simpl in *.
  split; f_equal; field; split; (lra || assumption).
Qed.

Lemma euclid_dist_horizontal (x1 x2 y : R) :
  x1 <= x2 → euclid_dist (mkPoint x1 y) (mkPoint x2 y) = x2 - x1.
Proof.
  intros H. unfold euclid_dist. cbn [px py].
  replace ((x1 - x2) ^ 2 + (y - y) ^ 2) with ((x2 - x1) * (x2 - x1)) by ring.
  apply sqrt_square. lra.
Qed.

Lemma chirality_solutions_are_reflections_witness :
  ∃ q_plus q_minus,
    get_circle_intersection (mkPoint 0 0) 5 (mkPoint 6 0) 5 1 = Some q_plus
    ∧ get_circle_intersection (mkPoint 0 0) 5 (mkPoint 6 0) 5 (-1) = Some q_minus
    ∧ reflect_across (mkPoint 0 0) (mkPoint 6 0) q_plus = q_minus
    ∧ reflect_across (mkPoint 0 0) (mkPoint 6 0) q_minus = q_plus.
Proof.
  apply (chirality_solutions_are_reflections (mkPoint 0 0) 5 (mkPoint 6 0) 5);
    rewrite euclid_dist_horizontal by lra.
  - replace (5 - 5) with 0 by ring. rewrite Rabs_R0. lra.
  - lra.
  - lra.
Defined.

(** ** Segment intersection *)







(** ** Forward kinematics *)

Lemma norm_pol2cart (rho phi : R) : norm (pol2cart rho phi) = Rabs rho.
Proof.
  unfold norm, sum_sq, pol2cart. cbn [px py].
  replace ((rho * cos phi) ^ 2 + (rho * sin phi) ^ 2)
    with (Rsqr rho * (Rsqr (sin phi) + Rsqr (cos phi))) by (unfold Rsqr; ring).
  rewrite sin2_cos2, Rmult_1_r. apply sqrt_Rsqr_abs.
Qed.

Lemma norm_on_y_axis (v : Point) : px v = 0 → norm v = Rabs (py v).
Proof.
  intros H. unfold norm, sum_sq. rewrite H.
  replace (0 ^ 2 + py v ^ 2) with (Rsqr (py v)) by (unfold Rsqr; ring).
  apply sqrt_Rsqr_abs.
Qed.

Lemma pol2cart_quarter_turn (rho : R) : pol2cart rho (PI / 2) = mkPoint 0 rho.
Proof. unfold pol2cart. rewrite cos_PI2, sin_PI2. f_equal; ring. Qed.

Lemma pol2cart_minus_quarter_turn (rho : R) : pol2cart rho (- (PI / 2)) = mkPoint 0 (- rho).
Proof. unfold pol2cart. rewrite cos_neg, sin_neg, cos_PI2, sin_PI2. f_equal; ring. Qed.

Lemma Point_eq (p q : Point) : px p = px q → py p = py q → p = q.
Proof. destruct p, q. simpl. intros -> ->. reflexivity. Qed.

Lemma vsub_vadd_cancel (s u v : Point) : ((s + u + v) - (s + v))%V = u.
Proof. apply Point_eq; simpl; ring. Qed.

Section Pantograph.

Import PantographLeg.

Variables (self : PantographLeg.t) (theta1_deg theta2_deg : R).

Lemma pantograph_direction_is_crank :
  Pantograph_foot_direction self theta1_deg theta2_deg
  = Pantograph_crank_vector self theta2_deg.
Proof. apply vsub_vadd_cancel. Qed.

Lemma pantograph_direction_norm :
  norm (Pantograph_foot_direction self theta1_deg theta2_deg) = Rabs (l_crank self).
Proof. rewrite pantograph_direction_is_crank. apply norm_pol2cart. Qed.

(** The two branches of the pantograph's [forward_kinematics]. *)
Lemma pantograph_fk_cases :
  let dir := Pantograph_foot_direction self theta1_deg theta2_deg in
  let knee := Pantograph_knee self theta1_deg in
  (norm dir = 0 ∧ forward_kinematics self theta1_deg theta2_deg = (None, ∅))
  ∨ (norm dir ≠ 0 ∧ ∃ joints : JointSet,
       forward_kinematics self theta1_deg theta2_deg
         = (Some (knee + vscale (unit dir) (l_shin self))%V, joints)
       ∧ joints !! "Knee" = Some knee
       ∧ joints !! "Mount" = Some (Pantograph_mount self theta1_deg theta2_deg)
       ∧ joints !! "CrankTip"
           = Some (servo2_pos self + Pantograph_crank_vector self theta2_deg)%V
       ∧ joints !! "S2" = Some (servo2_pos self)
       ∧ joints !! "Foot" = Some (knee + vscale (unit dir) (l_shin self))%V).
Proof.
  intros dir knee. subst dir knee.
  unfold forward_kinematics, unit, Pantograph_foot_direction, Pantograph_mount,
    Pantograph_knee, Pantograph_crank_vector. cbv zeta.
  match goal with |- context [bool_decide ?P] => destruct (decide P) as [E|E] end.
  - left. rewrite bool_decide_eq_true_2 by exact E. done.
  - right. rewrite bool_decide_eq_false_2 by exact E. split; [done|].
    eexists. split; [reflexivity|]. by simplify_map_eq.
Qed.

End Pantograph.



Section FiveBarRear.

Import FiveBarRearLeg.

Variables (self : FiveBarRearLeg.t) (theta1_deg theta2_deg : R).

Lemma rear_fk_none_iff :
  (forward_kinematics self theta1_deg theta2_deg).1 = None
  ↔ FiveBarRear_closure_infeasible self theta1_deg theta2_deg
    ∨ ∃ v, FiveBarRear_foot_direction self theta1_deg theta2_deg = Some v ∧ norm v < 1e-6.
Proof.
  unfold forward_kinematics, FiveBarRear_closure_infeasible,
    FiveBarRear_foot_direction, circles_infeasible. cbv zeta.
  rewrite <- gci_none_iff with (chirality := (-1)%Z).
  destruct (get_circle_intersection _ _ _ _ _) as [b|]; simpl.
  - match goal with |- context [bool_decide ?P] => destruct (decide P) as [E|E] end.
    + rewrite bool_decide_eq_true_2 by exact E. simpl. split; [eauto | done].
    + rewrite bool_decide_eq_false_2 by exact E. simpl.
      split; [done | intros [? | (v & [= <-] & ?)]; done].
  - split; [auto | done].
Qed.

Lemma rear_fk_shape :
  match forward_kinematics self theta1_deg theta2_deg with
  | (None, joints) => joints = ∅
  | (Some foot, joints) =>
      ∃ a b c, joints = {[ "S1" := servo1_pos self; "S2" := servo2_pos self; "A" := a;
                           "B" := b; "C" := c; "Foot" := foot ]}
  end.
Proof.
  unfold forward_kinematics. cbv zeta.
  destruct (get_circle_intersection _ _ _ _ _) as [b|]; [|done].
  destruct (bool_decide _); [done|]. eauto.
Qed.

End FiveBarRear.

Section FiveBarFront.

Import FiveBarFrontLeg.

Variables (self : FiveBarFrontLeg.t) (theta1_deg theta2_deg : R).

Lemma front_fk_none_iff :
  (forward_kinematics self theta1_deg theta2_deg).1 = None
  ↔ FiveBarFront_closure_infeasible self theta1_deg theta2_deg
    ∨ ∃ v, FiveBarFront_foot_direction self theta1_deg theta2_deg = Some v ∧ norm v < 1e-6.
Proof.
  unfold forward_kinematics, FiveBarFront_closure_infeasible,
    FiveBarFront_foot_direction, circles_infeasible. cbv zeta.
  rewrite <- gci_none_iff with (chirality := (-1)%Z).
  destruct (get_circle_intersection _ _ _ _ _) as [c|]; simpl.
  - match goal with |- context [bool_decide ?P] => destruct (decide P) as [E|E] end.
    + rewrite bool_decide_eq_true_2 by exact E. simpl. split; [eauto | done].
    + rewrite bool_decide_eq_false_2 by exact E. simpl.
      split; [done | intros [? | (v & [= <-] & ?)]; done].
  - split; [auto | done].
Qed.

Lemma front_fk_shape :
  match forward_kinematics self theta1_deg theta2_deg with
  | (None, joints) => joints = ∅
  | (Some foot, joints) =>
      ∃ a b c, joints = {[ "S1" := servo1_pos self; "S2" := servo2_pos self; "A" := a;
                           "B" := b; "C" := c; "Foot" := foot ]}
  end.
Proof.
  unfold forward_kinematics. cbv zeta.
  destruct (get_circle_intersection _ _ _ _ _) as [c|]; [|done].
  destruct (bool_decide _); [done|]. eauto.
Qed.

End FiveBarFront.

(** C1 (amended). [forward_kinematics] never fails otherwise than by
    returning no foot with an empty joint mapping.  The five-bar variants
    do so exactly when the closure circles do not intersect or the foot
    direction has norm below 1e-6; the pantograph exactly when its foot
    direction has norm 0; the serial leg never.  A returned foot is the
    joint "Foot" of the returned mapping. *)
Theorem forward_kinematics_none_iff :
  (∀ (self : FiveBarRearLeg.t) (theta1_deg theta2_deg : R),
     ((forward_kinematics self theta1_deg theta2_deg).1 = None
      ↔ FiveBarRear_closure_infeasible self theta1_deg theta2_deg
        ∨ ∃ v, FiveBarRear_foot_direction self theta1_deg theta2_deg = Some v
               ∧ norm v < 1e-6)
     ∧ fk_result_ok (forward_kinematics self theta1_deg theta2_deg))
  ∧ (∀ (self : FiveBarFrontLeg.t) (theta1_deg theta2_deg : R),
     ((forward_kinematics self theta1_deg theta2_deg).1 = None
      ↔ FiveBarFront_closure_infeasible self theta1_deg theta2_deg
        ∨ ∃ v, FiveBarFront_foot_direction self theta1_deg theta2_deg = Some v
               ∧ norm v < 1e-6)
     ∧ fk_result_ok (forward_kinematics self theta1_deg theta2_deg))
  ∧ (∀ (self : PantographLeg.t) (theta1_deg theta2_deg : R),
     ((forward_kinematics self theta1_deg theta2_deg).1 = None
      ↔ norm (Pantograph_foot_direction self theta1_deg theta2_deg) = 0)
     ∧ fk_result_ok (forward_kinematics self theta1_deg theta2_deg))
  ∧ (∀ (self : SerialLeg.t) (theta1_deg theta2_deg : R),
     (forward_kinematics self theta1_deg theta2_deg).1 ≠ None
     ∧ fk_result_ok (forward_kinematics self theta1_deg theta2_deg)).
Proof.
  split; [|split; [|split]]; intros self theta1_deg theta2_deg; split.
  - apply rear_fk_none_iff.
  - pose proof (rear_fk_shape self theta1_deg theta2_deg) as H.
    cbn [forward_kinematics FiveBarRearLeg_model].
    destruct (FiveBarRearLeg.forward_kinematics _ _ _) as [[foot|] joints]; simpl; [|done].
    destruct H as (a & b & c & ->). by simplify_map_eq.
  - apply front_fk_none_iff.
  - pose proof (front_fk_shape self theta1_deg theta2_deg) as H.
    cbn [forward_kinematics FiveBarFrontLeg_model].
    destruct (FiveBarFrontLeg.forward_kinematics _ _ _) as [[foot|] joints]; simpl; [|done].
    destruct H as (a & b & c & ->). by simplify_map_eq.
  - cbn [forward_kinematics PantographLeg_model].
    destruct (pantograph_fk_cases self theta1_deg theta2_deg)
      as [[H0 ->] | [Hn (joints & -> & _)]]; done.
  - cbn [forward_kinematics PantographLeg_model].
    destruct (pantograph_fk_cases self theta1_deg theta2_deg)
      as [[H0 ->] | [Hn (joints & -> & ? & ? & ? & ? & ?)]]; done.
  - done.
  - by cbn.
Qed.

(** C1 as stated fails on the pantograph: with a crank of 1e-7 the foot
    direction has norm below 1e-6, and a foot is returned all the same. *)
Lemma pantograph_tiny_crank_returns_foot :
  norm (Pantograph_foot_direction tiny_crank_leg 0 0) < 1e-6
  ∧ ∃ foot joints, forward_kinematics tiny_crank_leg 0 0 = (Some foot, joints).
Proof.
  assert (Hn : norm (Pantograph_foot_direction tiny_crank_leg 0 0) = 1e-7).
  { rewrite pantograph_direction_norm.
    change (PantographLeg.l_crank tiny_crank_leg) with 1e-7.
    apply Rabs_pos_eq. lra. }
  split; [rewrite Hn; lra|].
  cbn [forward_kinematics PantographLeg_model].
  destruct (pantograph_fk_cases tiny_crank_leg 0 0)
    as [[H0 _] | [_ (joints & -> & _)]]; [|eauto].
  rewrite Hn in H0. lra.
Qed.

(** ** The five-bar closure joint lies on both circles *)

Lemma gci_chord_height (r1 r2 d : R) :
  Rabs (r1 - r2) <= d → d <= r1 + r2 → 0 < d →
  let a := (r1 ^ 2 - r2 ^ 2 + d * d) / (2 * d) in
  0 <= r1 ^ 2 - a ^ 2.
Proof.
  intros Hlo Hhi Hd a.
  assert (F1 : 0 <= r1 + r2 - d) by lra.
  assert (F2 : 0 <= r2 + d - r1) by (pose proof (Rle_abs (r1 - r2)); lra).
  assert (F3 : 0 <= d + r1 - r2)
    by (pose proof (Rle_abs (- (r1 - r2))); rewrite Rabs_Ropp in *; lra).
  assert (F4 : 0 <= d + r1 + r2) by lra.
  assert (Hprod : 0 <= ((r1 + r2 - d) * (r2 + d - r1)) * ((d + r1 - r2) * (d + r1 + r2)))
    by (repeat apply Rmult_le_pos; assumption).
  assert (Heq : (r1 ^ 2 - a ^ 2) * (4 * (d * d))
                = ((r1 + r2 - d) * (r2 + d - r1)) * ((d + r1 - r2) * (d + r1 + r2))).
  { unfold a. field. lra. }
  rewrite <- Heq in Hprod.
  assert (Hdd : 0 < 4 * (d * d)) by nra.
  destruct (Rle_or_lt 0 (r1 ^ 2 - a ^ 2)) as [|Hneg]; [done|].
  exfalso. assert (0 < - (r1 ^ 2 - a ^ 2)) by lra.
  assert (0 < - (r1 ^ 2 - a ^ 2) * (4 * (d * d))) by (apply Rmult_lt_0_compat; lra).
  lra.
Qed.

Lemma gci_on_second_circle p1 r1 p2 r2 chirality q :
  get_circle_intersection p1 r1 p2 r2 chirality = Some q →
  norm (p2 - q)%V = Rabs r2.
Proof.
  intros Hq. apply gci_some_inv in Hq as (Hhi & Hlo & Hd & ->). cbv zeta.
  set (d := euclid_dist p1 p2) in *.
  assert (Hdd : d * d = sum_sq (p1 - p2)%V)
    by (unfold d; rewrite euclid_dist_norm; apply norm_sqr).
  pose proof (gci_chord_height r1 r2 d Hlo Hhi Hd) as Hh. cbv zeta in Hh.
  set (a := (r1 ^ 2 - r2 ^ 2 + d * d) / (2 * d)) in *.
  set (s := if bool_decide (chirality = 1%Z) then 1 else -1).
  assert (Hs : s * s = 1) by (unfold s; case_bool_decide; lra).
  set (h := sqrt (Rmax 0 (r1 ^ 2 - a ^ 2))).
  assert (Hhh : h * h = r1 ^ 2 - a ^ 2).
  { unfold h. rewrite Rmax_right by lra. by apply sqrt_sqrt. }
  unfold norm.
  replace (sum_sq _) with (Rsqr r2); [apply sqrt_Rsqr_abs|].
  unfold sum_sq, vsub in *. cbn [px py] in *.
  set (ux := px p2 - px p1) in *. set (uy := py p2 - py p1) in *.
  assert (Hu : ux * ux + uy * uy = d * d) by (rewrite Hdd; unfold ux, uy; ring).
  assert (Ha : 2 * d * a = r1 ^ 2 - r2 ^ 2 + d * d) by (unfold a; field; lra).
  replace (px p2 - (px p1 + a * ux / d + s * h * uy / d))
    with ((ux * (d - a) - s * h * uy) / d) by (unfold ux; field; lra).
  replace (py p2 - (py p1 + a * uy / d - s * h * ux / d))
    with ((uy * (d - a) + s * h * ux) / d) by (unfold uy; field; lra).
  clearbody a h s ux uy d. unfold Rsqr.
  assert (Hnum : (ux * (d - a) - s * h * uy) ^ 2 + (uy * (d - a) + s * h * ux) ^ 2
                 = (d * d) * (r2 * r2)).
  { transitivity ((ux * ux + uy * uy) * ((d - a) * (d - a) + (s * s) * (h * h))); [ring|].
    rewrite Hu, Hs, Hhh. nra. }
  apply Rmult_eq_reg_l with (d * d); [|nra].
  rewrite <- Hnum. field. lra.
Qed.

(** The rear five-bar at its default lengths, both servos at 90 degrees:
    A = (-15, 35), C = (0, 50), and the closure joint exists. *)
Lemma rear_default_pose_has_foot :
  ∃ foot joints, FiveBarRearLeg.forward_kinematics FiveBarRearLeg.init 90 90
                 = (Some foot, joints).
Proof.
  destruct (FiveBarRearLeg.forward_kinematics FiveBarRearLeg.init 90 90)
    as [[foot|] joints] eqn:Hfk; [by eauto|].
  exfalso.
  assert (Hnone : (FiveBarRearLeg.forward_kinematics FiveBarRearLeg.init 90 90).1 = None)
    by (by rewrite Hfk).
  apply rear_fk_none_iff in Hnone as [Hinf | (v & Hv & Hn)].
  - unfold FiveBarRear_closure_infeasible, circles_infeasible in Hinf.
    cbv zeta in Hinf. unfold FiveBarRearLeg.init in Hinf.
    cbn [FiveBarRearLeg.l1 FiveBarRearLeg.l2 FiveBarRearLeg.l3 FiveBarRearLeg.l4
         FiveBarRearLeg.offset_t1 FiveBarRearLeg.offset_t2
         FiveBarRearLeg.servo1_pos FiveBarRearLeg.servo2_pos] in Hinf.
    replace (radians 90 + 0.0) with (PI / 2) in Hinf by (unfold radians; lra).
    rewrite !pol2cart_quarter_turn in Hinf.
    assert (Hd : euclid_dist (mkPoint (-15.0) (-10.0) + mkPoint 0 45.0)%V
                             (mkPoint 0.0 0.0 + mkPoint 0 50.0)%V = sqrt 450).
    { unfold euclid_dist. cbn [px py vadd]. f_equal. lra. }
    rewrite Hd in Hinf.
    assert (H0 : 0 < sqrt 450) by (apply sqrt_lt_R0; lra).
    assert (H90 : sqrt 450 <= 90).
    { rewrite <- (sqrt_square 90) by lra. apply sqrt_le_1_alt. lra. }
    replace (45.0 - 45.0) with 0 in Hinf by lra. rewrite Rabs_R0 in Hinf. lra.
  - unfold FiveBarRear_foot_direction in Hv. cbv zeta in Hv.
    destruct (get_circle_intersection _ _ _ _ _) as [b|] eqn:Hb; [|done].
    cbn [mbind option_bind] in Hv. injection Hv as Hv. subst v.
    pose proof (gci_on_second_circle _ _ _ _ _ _ Hb) as Hc.
    unfold FiveBarRearLeg.init in Hc.
    cbn [FiveBarRearLeg.l3 FiveBarRearLeg.l4 FiveBarRearLeg.offset_t2
         FiveBarRearLeg.servo2_pos] in Hc.
    rewrite Hc, Rabs_pos_eq in Hn; lra.
Qed.

(** ** Parameter updates *)

(** C9. [update_params] of the rear five-bar assigns l1, l2, l3, l4, l5 in
    this order, each from a direct lookup.  On a mapping that has
    "L1 (S1->A)" and "L2 (A->B)" but not "L3 (S2->C)" it raises the
    missing-key error for "L3 (S2->C)" after l1 and l2 were overwritten;
    l3, l4, l5 and every other field keep their values. *)
Theorem update_params_missing_key_not_atomic :
  ∀ (params : gmap string R) (self : FiveBarRearLeg.t) (v1 v2 : R),
    params !! "L1 (S1->A)" = Some v1 →
    params !! "L2 (A->B)" = Some v2 →
    params !! "L3 (S2->C)" = None →
    update_params params self
    = (FiveBarRearLeg.set_l2 v2 (FiveBarRearLeg.set_l1 v1 self),
       Raise (KeyError "L3 (S2->C)"))
    ∧ FiveBarRearLeg.set_l2 v2 (FiveBarRearLeg.set_l1 v1 self)
      = FiveBarRearLeg.mk v1 v2 (FiveBarRearLeg.l3 self) (FiveBarRearLeg.l4 self)
          (FiveBarRearLeg.l5 self) (FiveBarRearLeg.offset_t1 self)
          (FiveBarRearLeg.offset_t2 self) (FiveBarRearLeg.servo1_pos self)
          (FiveBarRearLeg.servo2_pos self) (FiveBarRearLeg.collision_threshold self).
Proof.
  intros params self v1 v2 H1 H2 H3. split; [|reflexivity].
  cbn [update_params FiveBarRearLeg_model].
  unfold FiveBarRearLeg.update_params, mbind, Stmt_bind, get_item, assign.
  rewrite H1, H2, H3. reflexivity.
Qed.

Lemma update_params_missing_key_not_atomic_witness :
  update_params ({[ "L1 (S1->A)" := 60; "L2 (A->B)" := 70 ]} : gmap string R)
    FiveBarRearLeg.init
  = (FiveBarRearLeg.mk 60 70 50.0 45.0 95.0 0.0 0.0
       (mkPoint (-15.0) (-10.0)) (mkPoint 0.0 0.0) 10.0,
     Raise (KeyError "L3 (S2->C)")).
Proof.
  refine (proj1 (update_params_missing_key_not_atomic _ FiveBarRearLeg.init 60 70 _ _ _));
    reflexivity.
Defined.

(** ** Collision checks *)

Lemma hits_servo_iff (threshold : R) (seg : Segment) (servo : Point) :
  hits_servo threshold seg servo = true ↔ servo_hit threshold seg servo.
Proof.
  destruct seg as [p1 p2]. unfold hits_servo, servo_hit. cbn [fst snd].
  destruct (decide (norm (p1 - servo)%V < 1e-3)) as [E1|E1].
  { rewrite (bool_decide_eq_true_2 _ E1). simpl. split; [done | lra]. }
  rewrite (bool_decide_eq_false_2 _ E1).
  destruct (decide (norm (p2 - servo)%V < 1e-3)) as [E2|E2].
  { rewrite (bool_decide_eq_true_2 _ E2). simpl. split; [done | lra]. }
  rewrite (bool_decide_eq_false_2 _ E2). simpl.
  rewrite bool_decide_eq_true. split; [intros; lra | tauto].
Qed.

(** The double loop over segments and servos finds a hit exactly when some
    pair hits. *)
Lemma servo_loop_iff (threshold : R) (segments : list Segment) (servos : list Point) :
  existsb (λ seg, existsb (λ servo, hits_servo threshold seg servo) servos) segments = true
  ↔ ∃ seg servo, seg ∈ segments ∧ servo ∈ servos ∧ servo_hit threshold seg servo.
Proof.
  rewrite existsb_exists. split.
  - intros (seg & Hseg & H). apply existsb_exists in H as (servo & Hservo & H).
    exists seg, servo. rewrite !list_elem_of_In, <- hits_servo_iff. done.
  - intros (seg & servo & Hseg & Hservo & H). exists seg.
    rewrite <- list_elem_of_In. split; [done|].
    apply existsb_exists. exists servo.
    rewrite <- list_elem_of_In, hits_servo_iff. done.
Qed.

(** The tail of the five-bar [check_collisions]: servo loop, then the
    three cross-link tests. *)
Lemma collision_chain_iff (hit : bool) (th d1 d2 d3 : R) (P : Prop) :
  (hit = true ↔ P) →
  ∃ r : bool,
    (if hit then Some true
     else if bool_decide (d1 < th) then Some true
     else if bool_decide (d2 < th) then Some true
     else if bool_decide (d3 < th) then Some true
     else Some false) = Some r
    ∧ (r = true ↔ P ∨ d1 < th ∨ d2 < th ∨ d3 < th).
Proof.
  intros HP. destruct hit.
  { exists true. split; [done|]. split; [intros _; left; by apply HP | done]. }
  assert (¬ P) by (intros HP'; apply HP in HP'; done).
  destruct (decide (d1 < th)) as [E1|E1].
  { rewrite (bool_decide_eq_true_2 _ E1). exists true. tauto. }
  rewrite (bool_decide_eq_false_2 _ E1).
  destruct (decide (d2 < th)) as [E2|E2].
  { rewrite (bool_decide_eq_true_2 _ E2). exists true. tauto. }
  rewrite (bool_decide_eq_false_2 _ E2).
  destruct (decide (d3 < th)) as [E3|E3].
  { rewrite (bool_decide_eq_true_2 _ E3). exists true. tauto. }
  rewrite (bool_decide_eq_false_2 _ E3).
  exists false. split; [done|]. split; [done | tauto].
Qed.

Lemma rear_check_collisions_spec (self : FiveBarRearLeg.t) (s1 s2 a b c foot : Point) :
  let joints : JointSet :=
    {[ "S1" := s1; "S2" := s2; "A" := a; "B" := b; "C" := c; "Foot" := foot ]} in
  let th := FiveBarRearLeg.collision_threshold self in
  ∃ r : bool,
    FiveBarRearLeg.check_collisions self joints = Some r
    ∧ (r = true ↔
         (∃ seg servo, seg ∈ [(s1, a); (s2, c); (a, b); (b, c); (c, foot)]
                       ∧ servo ∈ [s1; s2] ∧ servo_hit th seg servo)
         ∨ min_dist_segments (s1, a) (s2, c) < th
         ∨ min_dist_segments (s1, a) (b, c) < th
         ∨ min_dist_segments (s2, c) (a, b) < th).
Proof.
  intros joints th.
  assert (H1 : joints !! "S1" = Some s1) by reflexivity.
  assert (H2 : joints !! "S2" = Some s2) by reflexivity.
  assert (Ha : joints !! "A" = Some a) by reflexivity.
  assert (Hb : joints !! "B" = Some b) by reflexivity.
  assert (Hc : joints !! "C" = Some c) by reflexivity.
  assert (Hf : joints !! "Foot" = Some foot) by reflexivity.
  clearbody joints.
  unfold FiveBarRearLeg.check_collisions, FiveBarRearLeg._hits_servo.
  rewrite H1, H2, Ha, Hb, Hc, Hf. cbn [mbind option_bind].
  apply collision_chain_iff, servo_loop_iff.
Qed.

Lemma front_check_collisions_spec (self : FiveBarFrontLeg.t) (s1 s2 a b c foot : Point) :
  let joints : JointSet :=
    {[ "S1" := s1; "S2" := s2; "A" := a; "B" := b; "C" := c; "Foot" := foot ]} in
  let th := FiveBarFrontLeg.collision_threshold self in
  ∃ r : bool,
    FiveBarFrontLeg.check_collisions self joints = Some r
    ∧ (r = true ↔
         (∃ seg servo, seg ∈ [(s1, a); (s2, b); (a, c); (b, c); (c, foot)]
                       ∧ servo ∈ [s1; s2] ∧ servo_hit th seg servo)
         ∨ min_dist_segments (s1, a) (s2, b) < th
         ∨ min_dist_segments (s1, a) (b, c) < th
         ∨ min_dist_segments (s2, b) (a, c) < th).
Proof.
  intros joints th.
  assert (H1 : joints !! "S1" = Some s1) by reflexivity.
  assert (H2 : joints !! "S2" = Some s2) by reflexivity.
  assert (Ha : joints !! "A" = Some a) by reflexivity.
  assert (Hb : joints !! "B" = Some b) by reflexivity.
  assert (Hc : joints !! "C" = Some c) by reflexivity.
  assert (Hf : joints !! "Foot" = Some foot) by reflexivity.
  clearbody joints.
  unfold FiveBarFrontLeg.check_collisions, FiveBarFrontLeg._hits_servo.
  rewrite H1, H2, Ha, Hb, Hc, Hf. cbn [mbind option_bind].
  apply collision_chain_iff, servo_loop_iff.
Qed.

Lemma serial_check_collisions_spec (self : SerialLeg.t) (base knee foot : Point) :
  SerialLeg.check_collisions self {[ "Base" := base; "Knee" := knee; "Foot" := foot ]}
  = Some (bool_decide (norm (foot - base)%V < SerialLeg.collision_threshold self)).
Proof.
  unfold SerialLeg.check_collisions.
  set (joints := ({[ "Base" := base; "Knee" := knee; "Foot" := foot ]} : JointSet)).
  assert (Hb : joints !! "Base" = Some base) by reflexivity.
  assert (Hf : joints !! "Foot" = Some foot) by reflexivity.
  clearbody joints. rewrite Hb, Hf. cbn [mbind option_bind].
  by destruct (bool_decide _).
Qed.

(** C2 (amended). On every joint set produced by their forward kinematics,
    the two five-bar variants report a collision exactly when one of the
    five rigid segments comes closer than [collision_threshold] to one of
    the two servo pivots, a pair being skipped when an end of the segment
    lies within 1e-3 of that pivot, or when one of the three cross-link
    distances is below the threshold.  The serial leg compares only the
    distance from the foot to the base with its threshold. *)
Theorem check_collisions_segments_against_servos :
  (∀ (self : FiveBarRearLeg.t) (theta1_deg theta2_deg : R) foot (joints : JointSet),
     forward_kinematics self theta1_deg theta2_deg = (Some foot, joints) →
     ∃ (a b c : Point) (r : bool),
       let s1 := FiveBarRearLeg.servo1_pos self in
       let s2 := FiveBarRearLeg.servo2_pos self in
       let th := FiveBarRearLeg.collision_threshold self in
       joints = {[ "S1" := s1; "S2" := s2; "A" := a; "B" := b; "C" := c; "Foot" := foot ]}
       ∧ check_collisions self joints = Some r
       ∧ (r = true ↔
            (∃ seg servo, seg ∈ [(s1, a); (s2, c); (a, b); (b, c); (c, foot)]
                          ∧ servo ∈ [s1; s2] ∧ servo_hit th seg servo)
            ∨ min_dist_segments (s1, a) (s2, c) < th
            ∨ min_dist_segments (s1, a) (b, c) < th
            ∨ min_dist_segments (s2, c) (a, b) < th))
  ∧ (∀ (self : FiveBarFrontLeg.t) (theta1_deg theta2_deg : R) foot (joints : JointSet),
     forward_kinematics self theta1_deg theta2_deg = (Some foot, joints) →
     ∃ (a b c : Point) (r : bool),
       let s1 := FiveBarFrontLeg.servo1_pos self in
       let s2 := FiveBarFrontLeg.servo2_pos self in
       let th := FiveBarFrontLeg.collision_threshold self in
       joints = {[ "S1" := s1; "S2" := s2; "A" := a; "B" := b; "C" := c; "Foot" := foot ]}
       ∧ check_collisions self joints = Some r
       ∧ (r = true ↔
            (∃ seg servo, seg ∈ [(s1, a); (s2, b); (a, c); (b, c); (c, foot)]
                          ∧ servo ∈ [s1; s2] ∧ servo_hit th seg servo)
            ∨ min_dist_segments (s1, a) (s2, b) < th
            ∨ min_dist_segments (s1, a) (b, c) < th
            ∨ min_dist_segments (s2, b) (a, c) < th))
  ∧ (∀ (self : SerialLeg.t) (theta1_deg theta2_deg : R) foot (joints : JointSet),
     forward_kinematics self theta1_deg theta2_deg = (Some foot, joints) →
     check_collisions self joints
     = Some (bool_decide (norm (foot - SerialLeg.base_pos self)%V
                          < SerialLeg.collision_threshold self))).
Proof.
  split; [|split].
  - intros self theta1_deg theta2_deg foot joints Hfk.
    pose proof (rear_fk_shape self theta1_deg theta2_deg) as H.
    cbn [forward_kinematics FiveBarRearLeg_model] in Hfk. rewrite Hfk in H.
    destruct H as (a & b & c & ->).
    destruct (rear_check_collisions_spec self (FiveBarRearLeg.servo1_pos self)
                (FiveBarRearLeg.servo2_pos self) a b c foot) as (r & Hr & Hiff).
    exists a, b, c, r. done.
  - intros self theta1_deg theta2_deg foot joints Hfk.
    pose proof (front_fk_shape self theta1_deg theta2_deg) as H.
    cbn [forward_kinematics FiveBarFrontLeg_model] in Hfk. rewrite Hfk in H.
    destruct H as (a & b & c & ->).
    destruct (front_check_collisions_spec self (FiveBarFrontLeg.servo1_pos self)
                (FiveBarFrontLeg.servo2_pos self) a b c foot) as (r & Hr & Hiff).
    exists a, b, c, r. done.
  - intros self theta1_deg theta2_deg foot joints [= <- <-].
    apply serial_check_collisions_spec.
Qed.

Lemma folded_serial_fk :
  SerialLeg.forward_kinematics SerialLeg.init 90 180
  = (Some (mkPoint 0 (-45)),
     {[ "Base" := mkPoint 0 0; "Knee" := mkPoint 0 50; "Foot" := mkPoint 0 (-45) ]}).
Proof.
  unfold SerialLeg.forward_kinematics, SerialLeg.init. cbn [SerialLeg.l1 SerialLeg.l2
    SerialLeg.offset_t1 SerialLeg.offset_t2 SerialLeg.base_pos]. cbv zeta.
  replace (radians 90 + 0.0) with (PI / 2) by (unfold radians; lra).
  replace (PI / 2 - (radians 180 + 0.0)) with (- (PI / 2)) by (unfold radians; lra).
  rewrite pol2cart_quarter_turn, pol2cart_minus_quarter_turn.
  assert (E : ∀ b k f b' k' f' : Point, b = b' → k = k' → f = f' →
             (Some f, ({[ "Base" := b; "Knee" := k; "Foot" := f ]} : JointSet))
             = (Some f', {[ "Base" := b'; "Knee" := k'; "Foot" := f' ]}))
    by (intros; subst; done).
  apply E; apply Point_eq; simpl; lra.
Qed.

(** C2 as stated fails on the serial leg: at 90 and 180 degrees the shin
    runs from (0, 50) to (0, -45), straight through the base pivot, with
    both ends far from it; the point-segment test against the threshold
    would fire, yet [check_collisions] answers false. *)
Lemma serial_shin_through_base_not_reported :
  let base := mkPoint 0 0 in
  let knee := mkPoint 0 50 in
  let foot := mkPoint 0 (-45) in
  forward_kinematics SerialLeg.init 90 180 = (Some foot, folded_serial_joints)
  ∧ folded_serial_joints = {[ "Base" := base; "Knee" := knee; "Foot" := foot ]}
  ∧ servo_hit (SerialLeg.collision_threshold SerialLeg.init) (knee, foot) base
  ∧ check_collisions SerialLeg.init folded_serial_joints = Some false.
Proof.
  intros base knee foot.
  assert (Hj : folded_serial_joints = {[ "Base" := base; "Knee" := knee; "Foot" := foot ]}).
  { unfold folded_serial_joints. by rewrite folded_serial_fk. }
  split; [| split; [exact Hj | split]].
  - cbn [forward_kinematics SerialLeg_model]. rewrite Hj. apply folded_serial_fk.
  - unfold servo_hit. cbn [fst snd SerialLeg.collision_threshold SerialLeg.init].
    rewrite !norm_on_y_axis by (simpl; lra). split; [|split].
    + simpl. rewrite Rabs_pos_eq; lra.
    + simpl. rewrite Rabs_left; lra.
    + unfold dist_point_segment.
      rewrite bool_decide_eq_false_2 by (unfold sum_sq; simpl; lra).
      cbv zeta.
      assert (Ht : Rmax 0 (Rmin 1 (dot (base - knee)%V (foot - knee)%V
                                    / sum_sq (foot - knee)%V)) = 10 / 19).
      { unfold dot, sum_sq. simpl.
        replace ((0 - 0) * (0 - 0) + (0 - 50) * (-45 - 50)) with 4750 by lra.
        replace ((0 - 0) * ((0 - 0) * 1) + (-45 - 50) * ((-45 - 50) * 1)) with 9025 by lra.
        replace (4750 / 9025) with (10 / 19) by lra.
        rewrite Rmin_right by lra. apply Rmax_right. lra. }
      rewrite Ht, norm_on_y_axis by (simpl; lra).
      simpl. rewrite Rabs_pos_eq; lra.
  - cbn [check_collisions SerialLeg_model]. rewrite Hj.
    rewrite serial_check_collisions_spec.
    rewrite bool_decide_eq_false_2; [done|].
    rewrite norm_on_y_axis by (simpl; lra).
    cbn [SerialLeg.collision_threshold SerialLeg.init]. simpl.
    rewrite Rabs_left; lra.
Qed.

Lemma check_collisions_segments_against_servos_witness :
  (∃ foot joints (r : bool),
     forward_kinematics FiveBarRearLeg.init 90 90 = (Some foot, joints)
     ∧ check_collisions FiveBarRearLeg.init joints = Some r)
  ∧ check_collisions SerialLeg.init folded_serial_joints
    = Some (bool_decide (norm (mkPoint 0 (-45) - SerialLeg.base_pos SerialLeg.init)%V
                         < SerialLeg.collision_threshold SerialLeg.init)).
Proof.
  split.
  - destruct rear_default_pose_has_foot as (foot & joints & Hfk).
    destruct (proj1 check_collisions_segments_against_servos
                FiveBarRearLeg.init 90 90 foot joints Hfk)
      as (a & b & c & r & _ & Hr & _).
    by exists foot, joints, r.
  - apply (proj2 (proj2 check_collisions_segments_against_servos)
             SerialLeg.init 90 180).
    unfold folded_serial_joints.
    cbn [forward_kinematics SerialLeg_model]. by rewrite folded_serial_fk.
Defined.

(** ** Alpha shape *)

Lemma toggle_elem (B : gset Edge) (e x : Edge) :
  bool_decide (x ∈ toggle B e) = xorb (bool_decide (x ∈ B)) (bool_decide (x = e)).
Proof.
  unfold toggle. destruct (decide (e ∈ B)) as [He|He].
  - rewrite (bool_decide_eq_true_2 _ He).
    destruct (decide (x = e)) as [->|Hx].
    + rewrite (bool_decide_eq_true_2 _ He), (bool_decide_eq_true_2 (e = e)) by done.
      apply bool_decide_eq_false_2. set_solver.
    + rewrite (bool_decide_eq_false_2 _ Hx), xorb_false_r.
      apply bool_decide_ext. set_solver.
  - rewrite (bool_decide_eq_false_2 _ He).
    destruct (decide (x = e)) as [->|Hx].
    + rewrite (bool_decide_eq_false_2 _ He), (bool_decide_eq_true_2 (e = e)) by done.
      apply bool_decide_eq_true_2. set_solver.
    + rewrite (bool_decide_eq_false_2 _ Hx), xorb_false_r.
      apply bool_decide_ext. set_solver.
Qed.

(** Toggling a duplicate-free list of edges flips exactly its members. *)
Lemma foldl_toggle_elem (es : list Edge) (B : gset Edge) (x : Edge) :
  NoDup es →
  bool_decide (x ∈ foldl toggle B es) = xorb (bool_decide (x ∈ B)) (bool_decide (x ∈ es)).
Proof.
  intros Hnd. revert B. induction Hnd as [|e es He Hnd IH]; intros B.
  - cbn [foldl]. rewrite (bool_decide_eq_false_2 (x ∈ [])), xorb_false_r; [done|].
    apply not_elem_of_nil.
  - cbn [foldl]. rewrite IH, toggle_elem, xorb_assoc. f_equal.
    destruct (decide (x = e)) as [->|Hx].
    + rewrite (bool_decide_eq_true_2 (e = e)), (bool_decide_eq_false_2 _ He) by done.
      symmetry. apply bool_decide_eq_true_2. left.
    + rewrite (bool_decide_eq_false_2 _ Hx). cbn [xorb].
      apply bool_decide_ext. rewrite elem_of_cons. tauto.
Qed.

Lemma sorted_pair_inj (a b c d : nat) :
  sorted_pair a b = sorted_pair c d → (a = c ∧ b = d) ∨ (a = d ∧ b = c).
Proof. unfold sorted_pair. repeat case_bool_decide; intros [= -> ->]; lia. Qed.

Lemma simplex_edges_NoDup (i0 i1 i2 : nat) :
  i0 ≠ i1 → i1 ≠ i2 → i2 ≠ i0 → NoDup (simplex_edges (i0, i1, i2)).
Proof.
  intros H01 H12 H20. unfold simplex_edges.
  repeat (apply NoDup_cons; split); try apply NoDup_nil_2;
    rewrite ?elem_of_cons, ?elem_of_nil;
    intros H; repeat destruct H as [H|H]; try done;
    apply sorted_pair_inj in H; lia.
Qed.

Lemma norm_vsub_sym (p q : Point) : norm (p - q)%V = norm (q - p)%V.
Proof. unfold norm. by rewrite sum_sq_vsub_sym. Qed.

Lemma norm_vsub_diag (p : Point) : norm (p - p)%V = 0.
Proof.
  unfold norm, sum_sq, vsub. cbn [px py].
  replace ((px p - px p) ^ 2 + (py p - py p) ^ 2) with 0 by ring. apply sqrt_0.
Qed.

(** A triangle with two equal corners has Heron area 0. *)
Lemma heron_area_degenerate (pa pb pc : Point) :
  pa = pb ∨ pb = pc ∨ pc = pa → heron_area pa pb pc = 0.
Proof.
  intros H. unfold heron_area. cbv zeta.
  assert (E : ∀ z, z = 0 → sqrt (Rmax 0 z) = 0)
    by (intros z ->; rewrite Rmax_left by lra; apply sqrt_0).
  apply E. destruct H as [->|[->| ->]].
  - rewrite norm_vsub_diag, (norm_vsub_sym pc pb). field.
  - rewrite norm_vsub_diag, (norm_vsub_sym pc pa). field.
  - rewrite norm_vsub_diag, (norm_vsub_sym pb pa). field.
Qed.

Lemma retained_distinct (points : list Point) (alpha : R) (i0 i1 i2 : nat) :
  retained points alpha (i0, i1, i2) → i0 ≠ i1 ∧ i1 ≠ i2 ∧ i2 ≠ i0.
Proof.
  intros [Harea _]. unfold simplex_area in Harea. cbn [fst snd] in Harea.
  repeat split; intros ->; rewrite heron_area_degenerate in Harea by auto; lra.
Qed.

(** One iteration of the triangle loop, for a simplex whose indices are in
    range and a non-zero alpha: it adds the area and toggles the three
    sides exactly when the triangle is retained. *)
Lemma hull_body_in_range (points : list Point) (alpha : R) (s : Simplex) (st : R * gset Edge) :
  alpha ≠ 0 →
  simplex_in_range points s →
  hull_body points alpha s st
  = Some (if decide (retained points alpha s)
          then (st.1 + simplex_area points s, foldl toggle st.2 (simplex_edges s))
          else st).
Proof.
  destruct s as [[i0 i1] i2], st as [total B]. intros Halpha (H0 & H1 & H2).
  cbn [fst snd] in *. unfold hull_body.
  rewrite !list_lookup_lookup_total_lt by assumption. cbn [mbind option_bind].
  unfold retained, simplex_area, circumradius, heron_area. cbn [fst snd]. cbv zeta.
  assert (E2 : 2.0 = 2) by lra. assert (E4 : 4.0 = 4) by lra.
  assert (E1 : 1.0 = 1) by lra. rewrite E2, E4, E1.
  set (pa := points !!! i0). set (pb := points !!! i1). set (pc := points !!! i2).
  set (area := sqrt (Rmax 0 _)).
  destruct (decide (area < 1e-5)) as [Hsmall|Hbig].
  { rewrite (bool_decide_eq_true_2 _ Hsmall).
    destruct (decide _) as [[Hge _]|_]; [lra | done]. }
  rewrite (bool_decide_eq_false_2 _ Hbig).
  rewrite (bool_decide_eq_false_2 _ Halpha).
  set (r := _ / (4 * area)).
  destruct (decide (r < 1 / alpha)) as [Hr|Hr].
  - rewrite (bool_decide_eq_true_2 _ Hr).
    destruct (decide _) as [_|Hn]; [done|]. exfalso. apply Hn. split; [lra | done].
  - rewrite (bool_decide_eq_false_2 _ Hr).
    destruct (decide _) as [[_ Hlt]|_]; [done | done].
Qed.

Section TriangleLoop.

Variables (points : list Point) (alpha : R).
Hypothesis alpha_nonzero : alpha ≠ 0.

Lemma hull_loop_spec (simplices : list Simplex) (total : R) (B : gset Edge) :
  Forall (simplex_in_range points) simplices →
  ∃ B' : gset Edge,
    for_each simplices (hull_body points alpha) (total, B)
    = Some (total + Rsum (simplex_area points <$> filter (retained points alpha) simplices), B')
    ∧ ∀ e, bool_decide (e ∈ B')
           = xorb (bool_decide (e ∈ B))
                  (Nat.odd (length (filter (has_edge e) (filter (retained points alpha) simplices)))).
Proof.
  intros Hall. revert total B.
  induction Hall as [|s simplices Hs Hall IH]; intros total B.
  - exists B. split.
    + simpl. f_equal. f_equal. unfold Rsum. simpl. ring.
    + intros e. simpl. by rewrite xorb_false_r.
  - cbn [for_each]. rewrite (hull_body_in_range _ _ _ _ alpha_nonzero Hs).
    cbn [mbind option_bind fst snd].
    rewrite filter_cons.
    destruct (decide (retained points alpha s)) as [Hret|Hret].
    + destruct (IH (total + simplex_area points s)
                   (foldl toggle B (simplex_edges s))) as (B' & -> & HB').
      exists B'. split.
      * f_equal. f_equal. unfold Rsum. cbn [fmap list_fmap foldr]. ring.
      * intros e. rewrite HB'.
        assert (Hnd : NoDup (simplex_edges s)).
        { destruct s as [[i0 i1] i2].
          apply retained_distinct in Hret as (? & ? & ?).
          by apply simplex_edges_NoDup. }
        rewrite (foldl_toggle_elem _ _ _ Hnd), filter_cons.
        fold (has_edge e s).
        destruct (decide (has_edge e s)) as [He|He].
        -- rewrite (bool_decide_eq_true_2 _ He). cbn [length].
           rewrite Nat.odd_succ, <- Nat.negb_odd.
           by destruct (bool_decide (e ∈ B)), (Nat.odd _).
        -- rewrite (bool_decide_eq_false_2 _ He). by rewrite xorb_false_r.
    + destruct (IH total B) as (B' & -> & HB'). exists B'. done.
Qed.

End TriangleLoop.

Lemma sorted_pair_in_range (n i j : nat) (e : Edge) :
  (i < n)%nat → (j < n)%nat → e = sorted_pair i j → (e.1 < n ∧ e.2 < n)%nat.
Proof. unfold sorted_pair. case_bool_decide; intros ? ? ->; simpl; lia. Qed.

Lemma has_edge_in_range (points : list Point) (s : Simplex) (e : Edge) :
  simplex_in_range points s → has_edge e s → (e.1 < length points ∧ e.2 < length points)%nat.
Proof.
  destruct s as [[i0 i1] i2]. intros (H0 & H1 & H2). unfold has_edge, simplex_edges.
  cbn [fst snd] in *. rewrite !elem_of_cons, elem_of_nil.
  intros [H|[H|[H|[]]]];
    (eapply sorted_pair_in_range; [| | exact H]; assumption).
Qed.

Lemma edge_line_in_range (points : list Point) (e : Edge) :
  (e.1 < length points ∧ e.2 < length points)%nat →
  edge_line points e = Some (points !!! e.1, points !!! e.2).
Proof.
  intros [H1 H2]. unfold edge_line.
  by rewrite !list_lookup_lookup_total_lt by assumption.
Qed.

Lemma mapM_edge_line (points : list Point) (es : list Edge) :
  Forall (λ e, (e.1 < length points ∧ e.2 < length points)%nat) es →
  mapM (edge_line points) es = Some ((λ e, (points !!! e.1, points !!! e.2)) <$> es).
Proof.
  induction 1 as [|e es He _ IH]; [done|].
  cbn [mapM]. rewrite (edge_line_in_range _ _ He), IH. reflexivity.
Qed.

Lemma odd_count_positive {A} (P : A → Prop) `{∀ x, Decision (P x)} (l : list A) :
  Nat.odd (length (filter P l)) = true → ∃ x, x ∈ l ∧ P x.
Proof.
  destruct (filter P l) as [|x l'] eqn:E; [discriminate|]. intros _.
  assert (Hx : x ∈ filter P l) by (rewrite E; left).
  apply list_elem_of_filter in Hx as [? ?]. eauto.
Qed.

(** C5. On a cloud of at least four points with a triangulation whose
    indices are in range, and a non-zero alpha threshold (at 0 the
    quotient [1.0 / alpha_threshold] raises): a triangle is retained (its area added, its
    three sides toggled) exactly when its Heron area is at least 1e-5 and
    its circumradius [a*b*c / (4*area)] is strictly below
    [1 / alpha_threshold]; the returned area is the sum of the retained
    areas; an unordered index pair is in the boundary set
    exactly when it is a side of an odd number of retained triangles,
    which is exactly one when no side belongs to more than two of them;
    and the returned lines are the end points of the boundary pairs. *)
Theorem concave_hull_area_and_boundary :
  ∀ (Delaunay : list Point → option (list Simplex))
    (points : list Point) (alpha_threshold : R) (simplices : list Simplex),
    (4 ≤ length points)%nat →
    alpha_threshold ≠ 0 →
    Delaunay points = Some simplices →
    Forall (simplex_in_range points) simplices →
    let kept := filter (retained points alpha_threshold) simplices in
    let count (e : Edge) := length (filter (has_edge e) kept) in
    (∀ s st, s ∈ simplices →
       hull_body points alpha_threshold s st
       = Some (if decide (retained points alpha_threshold s)
               then (st.1 + simplex_area points s, foldl toggle st.2 (simplex_edges s))
               else st))
    ∧ ∃ (boundary : gset Edge) (lines : list Segment),
      hull_edges Delaunay points alpha_threshold
        = Some (Rsum (simplex_area points <$> kept), boundary)
      ∧ calculate_concave_hull Delaunay points alpha_threshold
        = Some (Rsum (simplex_area points <$> kept), lines)
      ∧ lines = (λ e, (points !!! e.1, points !!! e.2)) <$> elements boundary
      ∧ (∀ e, e ∈ boundary ↔ Nat.Odd (count e))
      ∧ ((∀ e, (count e ≤ 2)%nat) → ∀ e, e ∈ boundary ↔ count e = 1%nat).
Proof.
  intros Delaunay points alpha simplices Hlen Halpha Htri Hrange kept count.
  destruct (hull_loop_spec points alpha Halpha simplices 0.0 ∅ Hrange) as (B & Hloop & HB).
  assert (Hodd : ∀ e, e ∈ B ↔ Nat.Odd (count e)).
  { intros e. rewrite <- Nat.odd_spec. fold (count e). specialize (HB e).
    rewrite (bool_decide_eq_false_2 (e ∈ ∅)) in HB by set_solver.
    cbn [xorb] in HB. fold kept in HB. fold (count e) in HB.
    rewrite <- HB. symmetry. apply bool_decide_eq_true. }
  assert (Hedges : hull_edges Delaunay points alpha
                   = Some (Rsum (simplex_area points <$> kept), B)).
  { unfold hull_edges. rewrite Htri. cbn [mbind option_bind]. rewrite Hloop.
    f_equal. f_equal. unfold kept. lra. }
  assert (HinB : Forall (λ e, (e.1 < length points ∧ e.2 < length points)%nat) (elements B)).
  { apply Forall_forall. intros e He. apply elem_of_elements, Hodd in He.
    apply Nat.odd_spec, odd_count_positive in He as (s & Hs & He).
    apply list_elem_of_filter in Hs as [_ Hs].
    eapply has_edge_in_range; [|exact He].
    eapply Forall_forall in Hrange; eauto. }
  split.
  { intros s st Hs. apply hull_body_in_range; [done|].
    eapply Forall_forall in Hrange; eauto. }
  exists B, ((λ e, (points !!! e.1, points !!! e.2)) <$> elements B).
  split; [exact Hedges|]. split; [|split; [done|split; [exact Hodd|]]].
  - unfold calculate_concave_hull.
    rewrite bool_decide_eq_false_2 by lia.
    rewrite Hedges. cbn [mbind option_bind].
    by rewrite (mapM_edge_line _ _ HinB).
  - intros Hle e. rewrite Hodd. specialize (Hle e). split.
    + intros [k Hk]. lia.
    + intros ->. by exists 0%nat.
Qed.

(** The unit square, triangulated by its diagonal: both triangles are
    retained, the diagonal cancels, and the four outer sides remain. *)

Lemma norm_of_sum_sq (v : Point) (x : R) : 0 <= x → sum_sq v = x * x → norm v = x.
Proof. intros Hx Hv. unfold norm. rewrite Hv. by apply sqrt_square. Qed.

Lemma heron_right_isosceles (pa pb pc : Point) (x y z : R) :
  norm (pa - pb)%V = x → norm (pb - pc)%V = y → norm (pc - pa)%V = z →
  (x + y + z) / 2 * ((x + y + z) / 2 - x) * ((x + y + z) / 2 - y)
    * ((x + y + z) / 2 - z) = 1 / 4 →
  heron_area pa pb pc = 1 / 2.
Proof.
  intros Hx Hy Hz Hprod. unfold heron_area. cbv zeta.
  rewrite Hx, Hy, Hz, Hprod, Rmax_right by lra.
  replace (1 / 4) with (1 / 2 * (1 / 2)) by lra. apply sqrt_square. lra.
Qed.

Lemma sqrt2_facts : sqrt 2 * sqrt 2 = 2 ∧ 0 < sqrt 2 < 2.
Proof.
  assert (H : sqrt 2 * sqrt 2 = 2) by (apply sqrt_sqrt; lra).
  assert (H0 : 0 <= sqrt 2) by apply sqrt_pos.
  split; [exact H | nra].
Qed.

Lemma unit_square_lower_triangle :
  simplex_area unit_square (0, 1, 2)%nat = 1 / 2
  ∧ retained unit_square 0.04 (0, 1, 2)%nat.
Proof.
  destruct sqrt2_facts as [Hsq Hbd].
  assert (Ha : norm (mkPoint 0 0 - mkPoint 1 0)%V = 1)
    by (apply norm_of_sum_sq; [lra | unfold sum_sq; simpl; lra]).
  assert (Hb : norm (mkPoint 1 0 - mkPoint 0 1)%V = sqrt 2)
    by (unfold norm; f_equal; unfold sum_sq; simpl; lra).
  assert (Hc : norm (mkPoint 0 1 - mkPoint 0 0)%V = 1)
    by (apply norm_of_sum_sq; [lra | unfold sum_sq; simpl; lra]).
  assert (Harea : heron_area (mkPoint 0 0) (mkPoint 1 0) (mkPoint 0 1) = 1 / 2).
  { apply (heron_right_isosceles _ _ _ _ _ _ Ha Hb Hc). nra. }
  split; [exact Harea|]. split.
  - unfold simplex_area. cbn [fst snd]. change (heron_area _ _ _ >= 1e-5) with
      (heron_area (mkPoint 0 0) (mkPoint 1 0) (mkPoint 0 1) >= 1e-5). lra.
  - cbn [fst snd]. change (circumradius _ _ _) with
      (circumradius (mkPoint 0 0) (mkPoint 1 0) (mkPoint 0 1)).
    unfold circumradius. rewrite Ha, Hb, Hc, Harea.
    replace (1 * sqrt 2 * 1 / (4 * (1 / 2))) with (sqrt 2 / 2) by field. lra.
Qed.

Lemma unit_square_upper_triangle :
  simplex_area unit_square (1, 3, 2)%nat = 1 / 2
  ∧ retained unit_square 0.04 (1, 3, 2)%nat.
Proof.
  destruct sqrt2_facts as [Hsq Hbd].
  assert (Ha : norm (mkPoint 1 0 - mkPoint 1 1)%V = 1)
    by (apply norm_of_sum_sq; [lra | unfold sum_sq; simpl; lra]).
  assert (Hb : norm (mkPoint 1 1 - mkPoint 0 1)%V = 1)
    by (apply norm_of_sum_sq; [lra | unfold sum_sq; simpl; lra]).
  assert (Hc : norm (mkPoint 0 1 - mkPoint 1 0)%V = sqrt 2)
    by (unfold norm; f_equal; unfold sum_sq; simpl; lra).
  assert (Harea : heron_area (mkPoint 1 0) (mkPoint 1 1) (mkPoint 0 1) = 1 / 2).
  { apply (heron_right_isosceles _ _ _ _ _ _ Ha Hb Hc). nra. }
  split; [exact Harea|]. split.
  - unfold simplex_area. cbn [fst snd]. change (heron_area _ _ _ >= 1e-5) with
      (heron_area (mkPoint 1 0) (mkPoint 1 1) (mkPoint 0 1) >= 1e-5). lra.
  - cbn [fst snd]. change (circumradius _ _ _) with
      (circumradius (mkPoint 1 0) (mkPoint 1 1) (mkPoint 0 1)).
    unfold circumradius. rewrite Ha, Hb, Hc, Harea.
    replace (1 * 1 * sqrt 2 / (4 * (1 / 2))) with (sqrt 2 / 2) by field. lra.
Qed.

Example unit_square_alpha_shape :
  hull_edges two_triangles unit_square 0.04
  = Some (1, {[ (0, 1); (0, 2); (1, 3); (2, 3) ]}%nat).
Proof.
  destruct unit_square_lower_triangle as [Ha1 Hr1].
  destruct unit_square_upper_triangle as [Ha2 Hr2].
  unfold hull_edges. change (two_triangles unit_square)
    with (Some [(0, 1, 2); (1, 3, 2)]%nat).
  cbn [mbind option_bind for_each].
  rewrite hull_body_in_range by first [lra | repeat split; simpl; lia].
  rewrite (decide_True _ _ Hr1). cbn [mbind option_bind fst snd].
  rewrite hull_body_in_range by first [lra | repeat split; simpl; lia].
  rewrite (decide_True _ _ Hr2). cbn [fst snd]. rewrite Ha1, Ha2.
  cbn [mbind option_bind].
  replace (0.0 + 1 / 2 + 1 / 2) with 1 by lra.
  reflexivity.
Qed.

Lemma concave_hull_area_and_boundary_witness :
  ∃ lines : list Segment,
    calculate_concave_hull two_triangles unit_square 0.04 = Some (1, lines)
    ∧ length lines = 4%nat.
Proof.
  destruct (concave_hull_area_and_boundary two_triangles unit_square 0.04
              [(0, 1, 2); (1, 3, 2)]%nat) as (_ & B & lines & HB & H & Hlines & _).
  - simpl. lia.
  - lra.
  - reflexivity.
  - repeat constructor; simpl; lia.
  - rewrite unit_square_alpha_shape in HB. injection HB as Harea HB.
    exists lines. rewrite <- Harea in H. split; [exact H|].
    rewrite Hlines, length_fmap, <- HB. reflexivity.
Defined.

(** ** Workspace scan *)

Lemma for_each_app {A S} (xs ys : list A) (body : A → S → option S) (s : S) :
  for_each (xs ++ ys) body s = for_each xs body s ≫= for_each ys body.
Proof.
  revert s. induction xs as [|x xs IH]; intros s; [done|].
  cbn [for_each app]. destruct (body x s) as [s'|]; [apply IH | done].
Qed.

(** Two nested loops run the body once per pair, in row-major order. *)
Lemma for_each_nested {A B S} (xs : list A) (ys : list B)
    (body : A → B → S → option S) (s : S) :
  for_each xs (λ x, for_each ys (body x)) s
  = for_each (list_prod xs ys) (λ xy, body xy.1 xy.2) s.
Proof.
  revert s. induction xs as [|x xs IH]; intros s; [done|].
  cbn [for_each list_prod]. rewrite for_each_app.
  assert (E : ∀ s0, for_each ys (body x) s0
                    = for_each (map (λ y, (x, y)) ys) (λ xy, body xy.1 xy.2) s0).
  { clear. induction ys as [|y ys IH]; intros s0; [done|].
    cbn [for_each map fst snd]. destruct (body x y s0); [apply IH | done]. }
  rewrite <- E. destruct (for_each ys (body x) s) as [s'|]; [apply IH | done].
Qed.

Lemma linspace_length (start stop : R) (num : nat) : length (linspace start stop num) = num.
Proof.
  unfold linspace. cbv zeta. case_bool_decide.
  - by rewrite length_insert, length_fmap, length_seq.
  - by rewrite length_fmap, length_seq.
Qed.


Section Scan.

Context {L : Type} `{!LegModel L}.

Variable self : L.

Lemma scan_cell_inv (theta1 theta2 : R) (acc acc' : list Point) :
  scan_cell self theta1 theta2 acc = Some acc' →
  acc' = acc
  ∨ ∃ p joints, acc' = acc ++ [p]
      ∧ forward_kinematics self theta1 theta2 = (Some p, joints)
      ∧ check_collisions self joints = Some false.
Proof.
  unfold scan_cell.
  destruct (forward_kinematics self theta1 theta2) as [[p|] joints] eqn:Hfk.
  - destruct (check_collisions self joints) as [[|]|] eqn:Hcc; cbn.
    + intros [= <-]. by left.
    + intros [= <-]. right. by exists p, joints.
    + discriminate.
  - intros [= <-]. by left.
Qed.

Lemma scan_cells_inv (cells : list (R * R)) (acc acc' : list Point) :
  for_each cells (λ c, scan_cell self c.1 c.2) acc = Some acc' →
  ∃ new, acc' = acc ++ new ∧ Forall (accepted_at self cells) new.
Proof.
  revert acc. induction cells as [|[t1 t2] cells IH]; intros acc.
  - intros [= <-]. exists []. by rewrite app_nil_r.
  - cbn [for_each fst snd].
    destruct (scan_cell self t1 t2 acc) as [acc1|] eqn:Hcell; [|done].
    cbn [mbind option_bind]. intros Hrest.
    destruct (IH _ Hrest) as (new & -> & Hnew).
    assert (Hnew' : Forall (accepted_at self ((t1, t2) :: cells)) new).
    { eapply Forall_impl; [exact Hnew|].
      intros p (a & b & j & Hin & ? & ?). exists a, b, j. split; [by right | done]. }
    apply scan_cell_inv in Hcell as [->|(p & j & -> & Hfk & Hcc)].
    + exists new. done.
    + exists (p :: new). rewrite <- app_assoc. split; [done|].
      constructor; [|done]. exists t1, t2, j. split; [left | done].
Qed.

Lemma scan_cells_total (cells : list (R * R)) (acc : list Point) :
  (∀ theta1 theta2 foot joints,
     forward_kinematics self theta1 theta2 = (Some foot, joints) →
     is_Some (check_collisions self joints)) →
  is_Some (for_each cells (λ c, scan_cell self c.1 c.2) acc).
Proof.
  intros Hcc. revert acc. induction cells as [|[t1 t2] cells IH]; intros acc; [by eexists|].
  cbn [for_each fst snd].
  assert (Hcell : is_Some (scan_cell self t1 t2 acc)).
  { unfold scan_cell.
    destruct (forward_kinematics self t1 t2) as [[p|] joints] eqn:Hfk; [|by eexists].
    destruct (Hcc _ _ _ _ Hfk) as [c ->]. destruct c; by eexists. }
  destruct Hcell as [acc1 ->]. apply IH.
Qed.

End Scan.


(** On the joint sets their own forward kinematics produces, the four
    collision checks find every label they read. *)
Lemma serial_cc_defined (self : SerialLeg.t) theta1 theta2 foot (joints : JointSet) :
  forward_kinematics self theta1 theta2 = (Some foot, joints) →
  is_Some (check_collisions self joints).
Proof.
  intros [= <- <-]. cbn [check_collisions SerialLeg_model].
  rewrite serial_check_collisions_spec. by eexists.
Qed.

Lemma pantograph_cc_defined (self : PantographLeg.t) theta1 theta2 foot (joints : JointSet) :
  forward_kinematics self theta1 theta2 = (Some foot, joints) →
  is_Some (check_collisions self joints).
Proof.
  cbn [forward_kinematics check_collisions PantographLeg_model].
  destruct (pantograph_fk_cases self theta1 theta2)
    as [[_ ->] | [_ (j & -> & HK & _ & HC & HS & _)]]; [discriminate|].
  intros [= <- <-]. unfold PantographLeg.check_collisions.
  rewrite HK, HS, HC. cbn [mbind option_bind].
  repeat (destruct (bool_decide _); [by eexists|]). by eexists.
Qed.

Lemma rear_cc_defined (self : FiveBarRearLeg.t) theta1 theta2 foot (joints : JointSet) :
  forward_kinematics self theta1 theta2 = (Some foot, joints) →
  is_Some (check_collisions self joints).
Proof.
  intros Hfk. pose proof (rear_fk_shape self theta1 theta2) as H.
  cbn [forward_kinematics check_collisions FiveBarRearLeg_model] in *.
  rewrite Hfk in H. destruct H as (a & b & c & ->).
  destruct (rear_check_collisions_spec self (FiveBarRearLeg.servo1_pos self)
              (FiveBarRearLeg.servo2_pos self) a b c foot) as (r & -> & _).
  by eexists.
Qed.

Lemma front_cc_defined (self : FiveBarFrontLeg.t) theta1 theta2 foot (joints : JointSet) :
  forward_kinematics self theta1 theta2 = (Some foot, joints) →
  is_Some (check_collisions self joints).
Proof.
  intros Hfk. pose proof (front_fk_shape self theta1 theta2) as H.
  cbn [forward_kinematics check_collisions FiveBarFrontLeg_model] in *.
  rewrite Hfk in H. destruct H as (a & b & c & ->).
  destruct (front_check_collisions_spec self (FiveBarFrontLeg.servo1_pos self)
              (FiveBarFrontLeg.servo2_pos self) a b c foot) as (r & -> & _).
  by eexists.
Qed.

(** The facts about one scan that hold for any leg model. *)
Lemma sweep_grid_generic {L : Type} `{!LegModel L} (self : L) (resolution : nat) :
  let scan_range := linspace 0 180 resolution in
  let combos := list_prod scan_range scan_range in
  sweep self scan_range = for_each combos (λ c, scan_cell self c.1 c.2) []
  ∧ (∀ points, sweep self scan_range = Some points →
       Forall (accepted_at self combos) points)
  ∧ ((∀ theta1 theta2 foot joints,
        forward_kinematics self theta1 theta2 = (Some foot, joints) →
        is_Some (check_collisions self joints)) →
     is_Some (sweep self scan_range)).
Proof.
  intros scan_range combos.
  assert (Hflat : sweep self scan_range
                  = for_each combos (λ c, scan_cell self c.1 c.2) []).
  { unfold sweep. apply for_each_nested. }
  split; [exact Hflat|]. split.
  - intros points Hs. rewrite Hflat in Hs.
    by apply scan_cells_inv in Hs as (new & -> & Hnew).
  - intros Hcc. rewrite Hflat. by apply scan_cells_total.
Qed.



(** ** Largest centred ellipse *)

Lemma req_half_width_formula (w_cand half_h center_y y_curr : R) :
  req_half_width w_cand half_h center_y y_curr
  = ellipse_half_width w_cand (2 * half_h) (Rabs (y_curr - center_y)).
Proof.
  unfold req_half_width, ellipse_half_width. cbv zeta.
  replace (2 * half_h / 2) with half_h by field.
  replace (w_cand / 2.0) with (w_cand / 2) by lra. f_equal. f_equal.
  set (term := 1 - _). unfold Rmax.
  destruct (decide (term < 0)) as [H|H].
  - rewrite (bool_decide_eq_true_2 _ H). destruct (Rle_dec 0 term); lra.
  - rewrite (bool_decide_eq_false_2 _ H). destruct (Rle_dec 0 term); lra.
Qed.

Lemma existsb_false {A} (f : A → bool) (l : list A) :
  existsb f l = false ↔ ∀ x, x ∈ l → f x = false.
Proof.
  induction l as [|a l IH]; simpl.
  - split; [intros _ x Hx; by apply elem_of_nil in Hx | done].
  - rewrite orb_false_iff, IH. split.
    + intros [Ha Hl] x Hx. apply elem_of_cons in Hx as [->|Hx]; auto.
    + intros H. split; [apply H; left | intros x Hx; apply H; by right].
Qed.

Lemma ellipse_collides_false (scan_ys profile_radius : list R)
    (w_cand half_h center_y : R) (idx_start idx_end : Z) :
  ellipse_collides scan_ys profile_radius w_cand half_h center_y idx_start idx_end = false
  ↔ ∀ j : Z, (idx_start ≤ j ≤ idx_end)%Z →
      ellipse_half_width w_cand (2 * half_h) (Rabs (scan_ys !!! Z.to_nat j - center_y))
      <= profile_radius !!! Z.to_nat j.
Proof.
  unfold ellipse_collides. rewrite existsb_false. split.
  - intros H j Hj. specialize (H j). rewrite elem_of_seqZ in H.
    assert (Hin : (idx_start ≤ j < idx_start + (idx_end + 1 - idx_start))%Z) by lia.
    apply H, bool_decide_eq_false_1 in Hin.
    rewrite req_half_width_formula in Hin. lra.
  - intros H j Hj. rewrite elem_of_seqZ in Hj.
    apply bool_decide_eq_false_2. rewrite req_half_width_formula.
    assert (Hin : (idx_start ≤ j ≤ idx_end)%Z) by lia. apply H in Hin. lra.
Qed.

Section WidthSearch.

Variables (scan_ys profile_radius : list R) (min_y resolution aspect_ratio : R).
Variables (best_width center_y : R).

(** The inner search ends on 0, or on a candidate wider than the best so
    far that fits. *)
Lemma find_valid_w_spec (test_widths : list R) :
  let valid_w := find_valid_w scan_ys profile_radius min_y resolution aspect_ratio
                   best_width center_y test_widths in
  valid_w = 0
  ∨ (valid_w ∈ test_widths ∧ valid_w > best_width
     ∧ ellipse_fits scan_ys profile_radius min_y resolution center_y
         valid_w (valid_w * aspect_ratio)).
Proof.
  induction test_widths as [|w_cand rest IH]; cbn [find_valid_w].
  - left. lra.
  - destruct (decide (w_cand <= best_width)) as [Hle|Hgt].
    { rewrite (bool_decide_eq_true_2 _ Hle). left. lra. }
    rewrite (bool_decide_eq_false_2 _ Hgt).
    assert (Hrest : ∀ v, (v = 0 ∨ v ∈ rest ∧ v > best_width
                          ∧ ellipse_fits scan_ys profile_radius min_y resolution center_y
                              v (v * aspect_ratio)) →
                         v = 0 ∨ v ∈ w_cand :: rest ∧ v > best_width
                          ∧ ellipse_fits scan_ys profile_radius min_y resolution center_y
                              v (v * aspect_ratio)).
    { intros v [?|(? & ? & ?)]; [by left | right]. split; [by right | done]. }
    destruct (ellipse_rows min_y resolution center_y (w_cand * aspect_ratio / 2.0))
      as [idx_start idx_end] eqn:Hrows.
    destruct (decide (idx_start < 0)%Z) as [Hs|Hs].
    { rewrite (bool_decide_eq_true_2 _ Hs). cbn [orb]. apply Hrest, IH. }
    rewrite (bool_decide_eq_false_2 _ Hs). cbn [orb].
    destruct (decide (idx_end >= Z.of_nat (length scan_ys))%Z) as [He|He].
    { rewrite (bool_decide_eq_true_2 _ He). apply Hrest, IH. }
    rewrite (bool_decide_eq_false_2 _ He).
    destruct (ellipse_collides _ _ _ _ _ _ _) eqn:Hcol; [apply Hrest, IH|].
    right. split; [left|]. split; [lra|].
    unfold ellipse_fits.
    replace (w_cand * aspect_ratio / 2) with (w_cand * aspect_ratio / 2.0) by lra.
    rewrite Hrows. split; [lia|]. split; [lia|].
    rewrite ellipse_collides_false in Hcol.
    replace (2 * (w_cand * aspect_ratio / 2.0)) with (w_cand * aspect_ratio) in Hcol by lra.
    exact Hcol.
Qed.

End WidthSearch.

Section CenterSearch.

Variables (scan_ys profile_radius : list R) (min_y resolution aspect_ratio : R).

Lemma center_step_found (st : R * R) (i : nat) (center_y : R) :
  scan_ys !! i = Some center_y →
  search_found scan_ys profile_radius min_y resolution aspect_ratio st →
  search_found scan_ys profile_radius min_y resolution aspect_ratio (center_step scan_ys profile_radius min_y resolution aspect_ratio st (i, center_y)).
Proof.
  intros Hi Hst. destruct st as [best_width best_y]. unfold center_step.
  destruct (bool_decide (profile_radius !!! i < 1.0)) eqn:Hp; [done|].
  apply bool_decide_eq_false_1 in Hp.
  pose proof (find_valid_w_spec scan_ys profile_radius min_y resolution aspect_ratio
                best_width center_y (arange (profile_radius !!! i * 2.0) 0 (-2.0))) as Hv.
  cbv zeta in Hv. set (valid_w := find_valid_w _ _ _ _ _ _ _ _) in *.
  destruct (bool_decide (valid_w > best_width)) eqn:Hbetter; [|done].
  apply bool_decide_eq_true_1 in Hbetter.
  assert (Hbw : 0 <= best_width).
  { destruct Hst as [[= -> _]|[Hpos _]]; simpl in *; lra. }
  destruct Hv as [Hv|(Hin & _ & Hfit)]; [lra|].
  right. cbn [fst snd]. split; [lra|]. exists i.
  split; [done|]. split; [lra|]. split; [|done].
  replace (profile_radius !!! i * 2) with (profile_radius !!! i * 2.0) by lra.
  replace (-2) with (-2.0) by lra. exact Hin.
Qed.

Lemma center_loop_found (rows : list (nat * R)) (st : R * R) :
  Forall (λ ic, scan_ys !! ic.1 = Some ic.2) rows →
  search_found scan_ys profile_radius min_y resolution aspect_ratio st →
  search_found scan_ys profile_radius min_y resolution aspect_ratio (foldl (center_step scan_ys profile_radius min_y resolution aspect_ratio) st rows).
Proof.
  intros Hrows. revert st. induction Hrows as [|[i y] rows Hi _ IH]; intros st Hst; [done|].
  cbn [foldl]. apply IH, center_step_found; done.
Qed.

End CenterSearch.

Lemma enumerate_lookup (l : list R) :
  Forall (λ ic : nat * R, l !! ic.1 = Some ic.2) (imap (λ i y, (i, y)) l).
Proof.
  apply Forall_forall. intros ic Hic.
  apply elem_of_lookup_imap_1 in Hic as (i & y & -> & Hy). exact Hy.
Qed.

(** The fitter returns (0, 0, 0), or a positive width with its centre and
    height, valid at some sampled row. *)
Lemma max_centered_ellipse_cases (hull_lines : list Segment) (aspect_ratio : R) :
  let min_y := list_min (hull_ys hull_lines) in
  let scan_ys := arange min_y (list_max (hull_ys hull_lines)) 1 in
  let profile_radius := profile_of hull_lines scan_ys in
  calculate_max_centered_ellipse hull_lines aspect_ratio = (0, 0, 0)
  ∨ ∃ (i : nat) (best_y best_width : R),
      calculate_max_centered_ellipse hull_lines aspect_ratio
        = (best_y, best_width, best_width * aspect_ratio)
      ∧ best_width > 0
      ∧ valid_center scan_ys profile_radius min_y 1 aspect_ratio i best_y best_width.
Proof.
  intros min_y scan_ys profile_radius. subst profile_radius scan_ys min_y.
  assert (E0 : 0.0 = 0) by lra. assert (E1 : 1.0 = 1) by lra.
  unfold calculate_max_centered_ellipse. rewrite E0.
  destruct hull_lines as [|seg hull_lines]; [by left|].
  destruct (hull_ys (seg :: hull_lines)) as [|y0 ys] eqn:Hys; [by left|].
  cbv zeta. rewrite E1.
  match goal with
  | |- context [foldl (center_step ?sy ?pr ?my ?re ?ar) ?s0 ?rows] =>
    pose proof (center_loop_found sy pr my re ar rows s0 (enumerate_lookup sy)
                  (or_introl eq_refl)) as H
  end.
  destruct (foldl _ _ _) as [best_width best_y].
  destruct H as [[= -> ->]|[Hpos (i & Hvalid)]].
  - left. by rewrite Rmult_0_l.
  - right. exists i, best_y, best_width. done.
Qed.

Lemma truncZ_le_nat (x : R) (j : nat) : x <= INR j → (truncZ x ≤ Z.of_nat j)%Z.
Proof.
  intros Hx. unfold truncZ, ceilZ. case_bool_decide as H0.
  - destruct (base_Int_part x) as [Hfl _].
    apply le_IZR. rewrite <- INR_IZR_INZ. lra.
  - destruct (base_Int_part (- x)) as [_ Hfl].
    assert (Hlt : (-1 < Int_part (- x))%Z) by (apply lt_IZR; lra). lia.
Qed.

Lemma truncZ_ge_nat (x : R) (j : nat) : INR j <= x → (Z.of_nat j ≤ truncZ x)%Z.
Proof.
  intros Hx. assert (H0 : 0 <= x) by (pose proof (pos_INR j); lra).
  unfold truncZ. rewrite (bool_decide_eq_true_2 _ H0).
  destruct (base_Int_part x) as [_ Hfl].
  assert (Hlt : (Z.of_nat j < Int_part x + 1)%Z).
  { apply lt_IZR. rewrite plus_IZR, <- INR_IZR_INZ. lra. }
  lia.
Qed.

Lemma arange_lookup_total (start stop step : R) (j : nat) :
  (j < length (arange start stop step))%nat →
  arange start stop step !!! j = start + INR j * step.
Proof.
  unfold arange. rewrite length_fmap, length_seq. intros Hj.
  apply list_lookup_total_correct.
  by rewrite list_lookup_fmap, lookup_seq_lt by done.
Qed.

(** The rows the search checks include every sampled row inside the
    vertical extent of the ellipse. *)
Lemma ellipse_fits_extent (profile_radius : list R) (min_y max_y center_y w h : R) (j : nat) :
  let scan_ys := arange min_y max_y 1 in
  ellipse_fits scan_ys profile_radius min_y 1 center_y w h →
  (j < length scan_ys)%nat →
  Rabs (scan_ys !!! j - center_y) <= h / 2 →
  ellipse_half_width w h (Rabs (scan_ys !!! j - center_y)) <= profile_radius !!! j.
Proof.
  intros scan_ys Hfit Hj Hdy. unfold ellipse_fits, ellipse_rows in Hfit.
  destruct Hfit as (_ & _ & Hrows).
  specialize (Hrows (Z.of_nat j)). rewrite Nat2Z.id in Hrows. apply Hrows.
  pose proof (arange_lookup_total min_y max_y 1 j Hj) as Hy. fold scan_ys in Hy.
  rewrite Hy in Hdy.
  assert (Hlo : - (h / 2) <= min_y + INR j * 1 - center_y)
    by (pose proof (Rle_abs (- (min_y + INR j * 1 - center_y)));
        rewrite Rabs_Ropp in *; lra).
  assert (Hhi : min_y + INR j * 1 - center_y <= h / 2)
    by (pose proof (Rle_abs (min_y + INR j * 1 - center_y)); lra).
  split.
  - apply truncZ_le_nat. lra.
  - apply truncZ_ge_nat. lra.
Qed.

Lemma profile_of_nonneg (hull_lines : list Segment) (scan_ys : list R) (j : nat) :
  0 <= profile_of hull_lines scan_ys !!! j.
Proof.
  unfold profile_of. destruct (scan_ys !! j) as [y|] eqn:Hy.
  - erewrite list_lookup_total_correct; [|by rewrite list_lookup_fmap, Hy].
    destruct (get_scan_limits_at_y y hull_lines) as [l r].
    destruct (_ && _); [lra|].
    apply Rmin_glb; apply Rabs_pos.
  - rewrite list_lookup_total_alt, list_lookup_fmap, Hy. simpl. lra.
Qed.

(** Every width tried from a row is positive: [np.arange(w, 0, -2.0)]
    stops before 0. *)
Lemma arange_down_pos (current_w w : R) : w ∈ arange current_w 0 (-2.0) → 0 < w.
Proof.
  unfold arange. intros Hw. apply list_elem_of_fmap in Hw as (i & -> & Hi).
  apply elem_of_seq in Hi as [_ Hi]. cbn [Nat.add] in Hi.
  set (x := (0 - current_w) / -2.0) in *.
  assert (Hx : INR i < x).
  { unfold ceilZ in Hi. destruct (base_Int_part (- x)) as [_ Hfl].
    assert (Hz : (Z.of_nat i + 1 ≤ - Int_part (- x))%Z) by lia.
    apply IZR_le in Hz. rewrite plus_IZR, opp_IZR, <- INR_IZR_INZ in Hz. lra. }
  unfold x in Hx. lra.
Qed.

Section WidthSearchComplete.

Variables (scan_ys profile_radius : list R) (min_y resolution aspect_ratio : R).
Variables (best_width center_y : R).

(** If some width of the list fits and every width is positive, the inner
    search improves on the best width, unless that was positive already. *)
Lemma find_valid_w_complete (test_widths : list R) (w : R) :
  w ∈ test_widths →
  Forall (λ v, 0 < v) test_widths →
  ellipse_fits scan_ys profile_radius min_y resolution center_y w (w * aspect_ratio) →
  find_valid_w scan_ys profile_radius min_y resolution aspect_ratio
    best_width center_y test_widths > best_width
  ∨ best_width > 0.
Proof.
  intros Hin Hpos Hfit. induction Hpos as [|w_cand rest Hc Hpos IH].
  { by apply elem_of_nil in Hin. }
  cbn [find_valid_w].
  destruct (decide (w_cand <= best_width)) as [Hle|Hgt]; [right; lra|].
  rewrite (bool_decide_eq_false_2 _ Hgt).
  destruct (ellipse_rows min_y resolution center_y (w_cand * aspect_ratio / 2.0))
    as [idx_start idx_end] eqn:Hrows.
  apply elem_of_cons in Hin as [->|Hin].
  - unfold ellipse_fits in Hfit.
    replace (w_cand * aspect_ratio / 2) with (w_cand * aspect_ratio / 2.0) in Hfit by lra.
    rewrite Hrows in Hfit. destruct Hfit as (Hs & He & Hall).
    rewrite (bool_decide_eq_false_2 (idx_start < 0)%Z) by lia.
    rewrite (bool_decide_eq_false_2 (idx_end >= _)%Z) by lia. cbn [orb].
    replace (ellipse_collides _ _ _ _ _ _ _) with false; [left; lra|].
    symmetry. apply ellipse_collides_false.
    by replace (2 * (w_cand * aspect_ratio / 2.0)) with (w_cand * aspect_ratio) by lra.
  - destruct (_ || _); [by apply IH|].
    destruct (ellipse_collides _ _ _ _ _ _ _); [by apply IH | left; lra].
Qed.

End WidthSearchComplete.

Section CenterSearchComplete.

Variables (scan_ys profile_radius : list R) (min_y resolution aspect_ratio : R).

Lemma center_step_mono (st : R * R) (ic : nat * R) :
  st.1 <= (center_step scan_ys profile_radius min_y resolution aspect_ratio st ic).1.
Proof.
  destruct st as [best_width best_y], ic as [i center_y]. unfold center_step.
  destruct (bool_decide _); [simpl; lra|]. cbv zeta.
  destruct (bool_decide (_ > best_width)) eqn:H; [|simpl; lra].
  apply bool_decide_eq_true_1 in H. simpl. lra.
Qed.

Lemma center_loop_mono (rows : list (nat * R)) (st : R * R) :
  st.1 <= (foldl (center_step scan_ys profile_radius min_y resolution aspect_ratio) st rows).1.
Proof.
  revert st. induction rows as [|ic rows IH]; intros st; [simpl; lra|].
  cbn [foldl]. eapply Rle_trans; [apply (center_step_mono st ic) | apply IH].
Qed.

Lemma center_step_valid (st : R * R) (i : nat) (center_y w : R) :
  0 <= st.1 →
  valid_center scan_ys profile_radius min_y resolution aspect_ratio i center_y w →
  0 < (center_step scan_ys profile_radius min_y resolution aspect_ratio st (i, center_y)).1.
Proof.
  destruct st as [best_width best_y]. cbn [fst]. intros Hbw (_ & Hp & Hw & Hfit).
  unfold center_step. rewrite bool_decide_eq_false_2 by lra. cbv zeta.
  replace (profile_radius !!! i * 2) with (profile_radius !!! i * 2.0) in Hw by lra.
  replace (-2) with (-2.0) in Hw by lra.
  destruct (find_valid_w_complete scan_ys profile_radius min_y resolution aspect_ratio
              best_width center_y _ w Hw) as [Hfound|Hprev]; [|done| |].
  - apply Forall_forall. intros v. apply arange_down_pos.
  - rewrite (bool_decide_eq_true_2 _ Hfound). cbn [fst]. lra.
  - destruct (bool_decide _) eqn:H; cbn [fst]; [|lra].
    apply bool_decide_eq_true_1 in H. lra.
Qed.

Lemma center_loop_valid (rows : list (nat * R)) (st : R * R) (i : nat) (center_y w : R) :
  0 <= st.1 →
  (i, center_y) ∈ rows →
  valid_center scan_ys profile_radius min_y resolution aspect_ratio i center_y w →
  0 < (foldl (center_step scan_ys profile_radius min_y resolution aspect_ratio) st rows).1.
Proof.
  intros Hst Hin Hvalid. revert st Hst.
  induction rows as [|ic rows IH]; intros st Hst; [by apply elem_of_nil in Hin|].
  cbn [foldl]. apply elem_of_cons in Hin as [<-|Hin].
  - eapply Rlt_le_trans; [|apply center_loop_mono].
    by eapply center_step_valid.
  - apply IH; [done|]. eapply Rle_trans; [exact Hst | apply center_step_mono].
Qed.

End CenterSearchComplete.

(** A valid centre anywhere makes the fitter return a positive width. *)
Lemma max_centered_ellipse_complete (hull_lines : list Segment) (aspect_ratio : R)
    (i : nat) (center_y w : R) :
  let min_y := list_min (hull_ys hull_lines) in
  let scan_ys := arange min_y (list_max (hull_ys hull_lines)) 1 in
  let profile_radius := profile_of hull_lines scan_ys in
  valid_center scan_ys profile_radius min_y 1 aspect_ratio i center_y w →
  0 < (calculate_max_centered_ellipse hull_lines aspect_ratio).1.2.
Proof.
  intros min_y scan_ys profile_radius Hvalid. subst profile_radius scan_ys min_y.
  assert (E0 : 0.0 = 0) by lra. assert (E1 : 1.0 = 1) by lra.
  assert (Hi : (i, center_y) ∈ imap (λ i y, (i, y))
                 (arange (list_min (hull_ys hull_lines)) (list_max (hull_ys hull_lines)) 1)).
  { destruct Hvalid as (Hi & _).
    exact (elem_of_lookup_imap_2 (λ (i : nat) (y : R), (i, y)) _ center_y i Hi). }
  unfold calculate_max_centered_ellipse. rewrite E0.
  destruct hull_lines as [|seg hull_lines].
  { destruct Hvalid as (Hrow & _). cbn in Hrow.
    unfold arange in Hrow. apply lookup_lt_Some in Hrow.
    rewrite length_fmap, length_seq in Hrow.
    replace ((0 - 0) / 1) with 0 in Hrow by field.
    unfold ceilZ in Hrow. rewrite Ropp_0 in Hrow.
    replace (Int_part 0) with 0%Z in Hrow; [simpl in Hrow; lia|].
    apply (Int_part_spec 0 0). split; simpl; lra. }
  destruct (hull_ys (seg :: hull_lines)) as [|y0 ys] eqn:Hys.
  { destruct seg. discriminate Hys. }
  cbv zeta. rewrite E1.
  match goal with
  | |- context [foldl (center_step ?sy ?pr ?my ?re ?ar) ?s0 ?rows] =>
    pose proof (center_loop_valid sy pr my re ar rows s0 i center_y w
                  (Rle_refl 0) Hi Hvalid) as H
  end.
  by destruct (foldl _ _ _) as [best_width best_y].
Qed.

(** C7. The fitter returns (0, 0, 0) on an empty boundary and when no
    sampled row is a valid centre; otherwise (some row is a valid centre)
    it returns (best_center_y, best_width, best_width * 0.5) with a
    positive width that is valid at a sampled row.  In every case the
    returned ellipse keeps the non-collision invariant: on each sampled
    row within its vertical extent its half-width
    [(w/2) * sqrt(max(0, 1 - (dy / (h/2))^2))] is at most the profile
    radius of the row. *)
Theorem max_centered_ellipse_fits_profile :
  ∀ hull_lines : list Segment,
    let min_y := list_min (hull_ys hull_lines) in
    let scan_ys := arange min_y (list_max (hull_ys hull_lines)) 1 in
    let profile_radius := profile_of hull_lines scan_ys in
    ∃ center_y w : R,
      calculate_max_centered_ellipse hull_lines 0.5 = (center_y, w, w * 0.5)
      ∧ (hull_lines = [] → (center_y, w) = (0, 0))
      ∧ ((¬ ∃ i c w', valid_center scan_ys profile_radius min_y 1 0.5 i c w') →
         (center_y, w) = (0, 0))
      ∧ ((∃ i c w', valid_center scan_ys profile_radius min_y 1 0.5 i c w') → w > 0)
      ∧ ((center_y, w) = (0, 0)
         ∨ (w > 0 ∧ ∃ i, valid_center scan_ys profile_radius min_y 1 0.5 i center_y w))
      ∧ (∀ j : nat, (j < length scan_ys)%nat →
           Rabs (scan_ys !!! j - center_y) <= w * 0.5 / 2 →
           ellipse_half_width w (w * 0.5) (Rabs (scan_ys !!! j - center_y))
           <= profile_radius !!! j).
Proof.
  intros hull_lines min_y scan_ys profile_radius.
  assert (Hcomplete : (∃ i c w', valid_center scan_ys profile_radius min_y 1 0.5 i c w') →
                      0 < (calculate_max_centered_ellipse hull_lines 0.5).1.2).
  { intros (i & c & w' & Hv). exact (max_centered_ellipse_complete hull_lines 0.5 i c w' Hv). }
  destruct (max_centered_ellipse_cases hull_lines 0.5)
    as [H0 | (i & best_y & best_width & Hres & Hpos & Hvalid)].
  - exists 0, 0. rewrite H0 in *. split; [by rewrite Rmult_0_l|].
    split; [done|]. split; [done|].
    split; [intros Hex; apply Hcomplete in Hex; cbn in Hex; lra|].
    split; [by left|].
    intros j _ _. unfold ellipse_half_width.
    replace (0 / 2) with 0 by field. rewrite Rmult_0_l.
    apply profile_of_nonneg.
  - fold min_y scan_ys profile_radius in Hvalid.
    exists best_y, best_width. split; [exact Hres|].
    split; [intros ->; discriminate Hres || (cbn in Hres; injection Hres; intros; subst; lra)|].
    split; [intros Hno; exfalso; apply Hno; by exists i, best_y, best_width|].
    split; [done|].
    split; [right; split; [done | by exists i]|].
    intros j Hj Hdy. destruct Hvalid as (_ & _ & _ & Hfit).
    by apply (ellipse_fits_extent profile_radius min_y _ best_y).
Qed.

(** ** The model on the sample values of the specification *)

Example dist_point_segment_perpendicular :
  dist_point_segment (mkPoint 5 5) (mkPoint 0 0) (mkPoint 10 0) = 5.
Proof.
  unfold dist_point_segment, sum_sq, dot, vsub, vadd, vscale. cbn [px py].
  decide_tests.
  replace (((5 - 0) * (10 - 0) + (5 - 0) * (0 - 0)) / ((10 - 0) ^ 2 + (0 - 0) ^ 2))
    with (1 / 2) by lra.
  rewrite Rmin_right, Rmax_right by lra.
  rewrite norm_on_y_axis by (simpl; lra). simpl.
  rewrite Rabs_pos_eq; lra.
Qed.

Example min_dist_segments_crossing :
  min_dist_segments (mkPoint 0 0, mkPoint 10 10) (mkPoint 0 10, mkPoint 10 0) = 0.
Proof.
  unfold min_dist_segments, intersect, ccw. cbn [px py]. decide_tests. reflexivity.
Qed.

Example serial_straight_up :
  (SerialLeg.forward_kinematics SerialLeg.init 90 0).1 = Some (mkPoint 0 145)
  ∧ (SerialLeg.forward_kinematics SerialLeg.init 90 0).2 !! "Knee" = Some (mkPoint 0 50).
Proof.
  unfold SerialLeg.forward_kinematics, SerialLeg.init.
  cbn [SerialLeg.l1 SerialLeg.l2 SerialLeg.offset_t1 SerialLeg.offset_t2
       SerialLeg.base_pos]. cbv zeta.
  replace (radians 90 + 0.0) with (PI / 2) by (unfold radians; lra).
  replace (PI / 2 - (radians 0 + 0.0)) with (PI / 2) by (unfold radians; lra).
  rewrite !pol2cart_quarter_turn. cbn [fst snd]. split.
  - f_equal. apply Point_eq; simpl; lra.
  - rewrite lookup_insert_ne, lookup_insert_eq by done.
    f_equal. apply Point_eq; simpl; lra.
Qed.

(** The fitter on the square boundary of half-width 10: every sampled row
    has profile radius 10, the row at height -5 carries an ellipse of
    width 20, so the fitted width is positive and at most 20. *)

Lemma Int_part_IZR (z : Z) : Int_part (IZR z) = z.
Proof. symmetry. apply Int_part_spec. lra. Qed.

Lemma ceilZ_IZR (z : Z) : ceilZ (IZR z) = z.
Proof. unfold ceilZ. rewrite <- opp_IZR, Int_part_IZR. lia. Qed.

Lemma truncZ_IZR (z : Z) : truncZ (IZR z) = z.
Proof. unfold truncZ. case_bool_decide; [apply Int_part_IZR | apply ceilZ_IZR]. Qed.

Lemma square_hull_limits (y : R) :
  -10 <= y < 10 → get_scan_limits_at_y y square_hull = (-10, 10).
Proof.
  intros Hy. unfold get_scan_limits_at_y, square_hull. cbn [flat_map px py].
  rewrite (bool_decide_eq_true_2 (-10 <= y)) by lra.
  rewrite (bool_decide_eq_true_2 (y <= 10)) by lra.
  rewrite (bool_decide_eq_false_2 (10 <= y)) by lra.
  rewrite (bool_decide_eq_false_2 (Rabs (10 - -10) < 1e-5))
    by (rewrite Rabs_pos_eq; lra).
  rewrite (bool_decide_eq_true_2 (Rabs (-10 - -10) < 1e-5))
    by (replace (-10 - -10) with 0 by lra; rewrite Rabs_R0; lra).
  cbn [andb orb app].
  assert (E : (if bool_decide (y <= -10) || bool_decide (y <= -10)
               then @nil R else []) = []) by (by destruct (bool_decide (y <= -10))).
  rewrite E. cbn [app].
  set (a := -10 + (y - -10) / (10 - -10) * (-10 - -10)).
  set (b := 10 + (y - -10) / (10 - -10) * (10 - 10)).
  assert (Ha : a = -10) by (unfold a; lra).
  assert (Hb : b = 10) by (unfold b; lra).
  assert (Hneg : filter (λ x, x < -0.1) [a; b] = [a]).
  { rewrite filter_cons_True by lra. rewrite filter_cons_False by lra. done. }
  assert (Hpos : filter (λ x, x > 0.1) [a; b] = [b]).
  { rewrite filter_cons_False by lra. rewrite filter_cons_True by lra. done. }
  rewrite Hneg, Hpos. cbn [list_max list_min foldl]. by rewrite Ha, Hb.
Qed.

Lemma square_hull_bounds :
  list_min (hull_ys square_hull) = -10 ∧ list_max (hull_ys square_hull) = 10.
Proof.
  unfold hull_ys, square_hull, list_min, list_max. cbn [flat_map app px py foldl].
  split.
  - repeat match goal with
    | |- context [Rmin ?a ?b] =>
        first [rewrite (Rmin_left a b) by lra | rewrite (Rmin_right a b) by lra]
    end. reflexivity.
  - repeat match goal with
    | |- context [Rmax ?a ?b] =>
        first [rewrite (Rmax_left a b) by lra | rewrite (Rmax_right a b) by lra]
    end. reflexivity.
Qed.

Lemma square_scan_length : length (arange (-10) 10 1) = 20%nat.
Proof.
  unfold arange. rewrite length_fmap, length_seq.
  replace ((10 - -10) / 1) with (IZR 20) by lra. by rewrite ceilZ_IZR.
Qed.

Lemma square_profile (j : nat) :
  (j < 20)%nat → profile_of square_hull (arange (-10) 10 1) !!! j = 10.
Proof.
  intros Hj.
  assert (Hlen : (j < length (arange (-10) 10 1))%nat) by (by rewrite square_scan_length).
  pose proof (arange_lookup_total (-10) 10 1 j Hlen) as Hy.
  assert (HJ : 0 <= INR j <= 19).
  { split; [apply pos_INR|]. replace 19 with (INR 19) by (simpl; lra).
    apply le_INR. lia. }
  unfold profile_of. erewrite list_lookup_total_fmap by exact Hlen.
  rewrite Hy, square_hull_limits by lra.
  rewrite (bool_decide_eq_false_2 (-10 = 0)) by lra. cbn [andb].
  rewrite Rabs_left, Rabs_pos_eq by lra. rewrite Rmin_left by lra. lra.
Qed.

Lemma ellipse_half_width_le (w h dy : R) : 0 <= w → ellipse_half_width w h dy <= w / 2.
Proof.
  intros Hw. unfold ellipse_half_width.
  set (t := 1 - (dy / (h / 2)) ^ 2).
  assert (Ht : t <= 1) by (unfold t; nra).
  assert (Hs : sqrt (Rmax 0 t) <= 1).
  { rewrite <- sqrt_1. apply sqrt_le_1_alt. apply Rmax_lub; lra. }
  assert (H0 : 0 <= sqrt (Rmax 0 t)) by apply sqrt_pos.
  nra.
Qed.

Lemma arange_down_le (current_w w : R) : w ∈ arange current_w 0 (-2) → w <= current_w.
Proof.
  unfold arange. intros Hw. apply list_elem_of_fmap in Hw as (i & -> & _).
  pose proof (pos_INR i). lra.
Qed.

Lemma square_hull_valid_center :
  valid_center (arange (-10) 10 1) (profile_of square_hull (arange (-10) 10 1))
    (-10) 1 0.5 5 (-5) 20.
Proof.
  assert (Hp : ∀ j, (j < 20)%nat →
                    profile_of square_hull (arange (-10) 10 1) !!! j = 10)
    by apply square_profile.
  split; [|split; [|split]].
  - rewrite list_lookup_lookup_total_lt by (rewrite square_scan_length; lia).
    rewrite arange_lookup_total by (rewrite square_scan_length; lia).
    f_equal. simpl. lra.
  - rewrite Hp by lia. lra.
  - rewrite Hp by lia. apply list_elem_of_lookup. exists 0%nat.
    unfold arange. rewrite list_lookup_fmap, lookup_seq_lt.
    + cbn. f_equal. lra.
    + replace ((0 - 10 * 2) / -2) with (IZR 10) by lra. rewrite ceilZ_IZR. lia.
  - unfold ellipse_fits, ellipse_rows.
    replace ((-5 - 20 * 0.5 / 2 - -10) / 1) with (IZR 0) by lra.
    replace ((-5 + 20 * 0.5 / 2 - -10) / 1) with (IZR 10) by lra.
    rewrite !truncZ_IZR, square_scan_length. split; [lia|]. split; [lia|].
    intros j Hj. rewrite Hp by lia.
    eapply Rle_trans; [apply ellipse_half_width_le; lra | lra].
Qed.

Lemma max_centered_ellipse_fits_profile_witness :
  ∃ center_y w : R,
    calculate_max_centered_ellipse square_hull 0.5 = (center_y, w, w * 0.5)
    ∧ 0 < w <= 20.
Proof.
  destruct (max_centered_ellipse_fits_profile square_hull)
    as (cy & w & Hres & _ & _ & Hpos & Hcases & _).
  destruct square_hull_bounds as [Hmin Hmax]. rewrite Hmin, Hmax in Hpos, Hcases.
  assert (Hw : w > 0).
  { apply Hpos. exists 5%nat, (-5), 20. apply square_hull_valid_center. }
  exists cy, w. split; [exact Hres|]. split; [lra|].
  destruct Hcases as [[= _ ->]|[_ (i & Hi & _ & Hin & _)]]; [lra|].
  apply arange_down_le in Hin.
  rewrite square_profile in Hin; [lra|].
  apply lookup_lt_Some in Hi. by rewrite square_scan_length in Hi.
Defined.

(** * Further properties of the code *)

(** ** Circle intersection: the point returned *)

Lemma gci_on_first_circle p1 r1 p2 r2 chirality q :
  get_circle_intersection p1 r1 p2 r2 chirality = Some q →
  norm (q - p1)%V = Rabs r1.
Proof.
  intros Hq. apply gci_some_inv in Hq as (Hhi & Hlo & Hd & ->). cbv zeta.
  set (d := euclid_dist p1 p2) in *.
  assert (Hdd : d * d = sum_sq (p1 - p2)%V)
    by (unfold d; rewrite euclid_dist_norm; apply norm_sqr).
  pose proof (gci_chord_height r1 r2 d Hlo Hhi Hd) as Hh. cbv zeta in Hh.
  set (a := (r1 ^ 2 - r2 ^ 2 + d * d) / (2 * d)) in *.
  set (s := if bool_decide (chirality = 1%Z) then 1 else -1).
  assert (Hs : s * s = 1) by (unfold s; case_bool_decide; lra).
  set (h := sqrt (Rmax 0 (r1 ^ 2 - a ^ 2))).
  assert (Hhh : h * h = r1 ^ 2 - a ^ 2).
  { unfold h. rewrite Rmax_right by lra. by apply sqrt_sqrt. }
  unfold norm.
  replace (sum_sq _) with (Rsqr r1); [apply sqrt_Rsqr_abs|].
  unfold sum_sq, vsub in *. cbn [px py] in *.
  set (ux := px p2 - px p1) in *. set (uy := py p2 - py p1) in *.
  assert (Hu : ux * ux + uy * uy = d * d) by (rewrite Hdd; unfold ux, uy; ring).
  replace (px p1 + a * ux / d + s * h * uy / d - px p1)
    with ((a * ux + s * h * uy) / d) by (field; lra).
  replace (py p1 + a * uy / d - s * h * ux / d - py p1)
    with ((a * uy - s * h * ux) / d) by (field; lra).
  clearbody a h s ux uy d. unfold Rsqr.
  assert (Hnum : (a * ux + s * h * uy) ^ 2 + (a * uy - s * h * ux) ^ 2
                 = (d * d) * (r1 * r1)).
  { transitivity ((ux * ux + uy * uy) * (a * a + (s * s) * (h * h))); [ring|].
    rewrite Hu, Hs, Hhh. ring. }
  apply Rmult_eq_reg_l with (d * d); [|nra].
  rewrite <- Hnum. field. lra.
Qed.

(** X1. A point returned by [get_circle_intersection] lies on both
    circles: at distance [|r1|] from [p1] and [|r2|] from [p2]. *)
Theorem circle_intersection_on_both_circles :
  ∀ (p1 : Point) (r1 : R) (p2 : Point) (r2 : R) (chirality : Z) (q : Point),
    get_circle_intersection p1 r1 p2 r2 chirality = Some q →
    euclid_dist q p1 = Rabs r1 ∧ euclid_dist q p2 = Rabs r2.
Proof.
  intros p1 r1 p2 r2 chirality q Hq. rewrite !euclid_dist_norm. split.
  - by eapply gci_on_first_circle.
  - rewrite norm_vsub_sym. by eapply gci_on_second_circle.
Qed.

Lemma gci_sample_feasible (chirality : Z) :
  ∃ q, get_circle_intersection (mkPoint 0 0) 5 (mkPoint 6 0) 5 chirality = Some q.
Proof.
  destruct (get_circle_intersection _ _ _ _ _) as [q|] eqn:E; [by eauto|].
  apply gci_none_iff in E. rewrite euclid_dist_horizontal in E by lra.
  replace (5 - 5) with 0 in E by ring. rewrite Rabs_R0 in E. lra.
Qed.

Lemma circle_intersection_on_both_circles_witness :
  ∃ q, get_circle_intersection (mkPoint 0 0) 5 (mkPoint 6 0) 5 1 = Some q
       ∧ euclid_dist q (mkPoint 0 0) = Rabs 5 ∧ euclid_dist q (mkPoint 6 0) = Rabs 5.
Proof.
  destruct (gci_sample_feasible 1) as [q Hq]. exists q. split; [exact Hq|].
  exact (circle_intersection_on_both_circles _ _ _ _ _ _ Hq).
Defined.

(** X2. Exchanging the two circles exchanges the two solutions: the point
    chosen by chirality +1 for (p1, r1), (p2, r2) is the point chosen by
    chirality -1 for (p2, r2), (p1, r1), and both calls fail together. *)
Theorem circle_intersection_swap :
  ∀ (p1 : Point) (r1 : R) (p2 : Point) (r2 : R),
    get_circle_intersection p1 r1 p2 r2 1 = get_circle_intersection p2 r2 p1 r1 (-1).
Proof.
  intros p1 r1 p2 r2.
  assert (Hsym : euclid_dist p2 p1 = euclid_dist p1 p2).
  { rewrite !euclid_dist_norm. apply norm_vsub_sym. }
  destruct (get_circle_intersection p1 r1 p2 r2 1) as [q|] eqn:E1;
    destruct (get_circle_intersection p2 r2 p1 r1 (-1)) as [q'|] eqn:E2.
  - apply gci_some_inv in E1 as (Hhi & Hlo & Hd & ->).
    apply gci_some_inv in E2 as (_ & _ & _ & ->). cbv zeta.
    rewrite Hsym. set (d := euclid_dist p1 p2) in *.
    rewrite (bool_decide_eq_true_2 (1 = 1)%Z), (bool_decide_eq_false_2 (-1 = 1)%Z) by lia.
    set (a := (r1 ^ 2 - r2 ^ 2 + d * d) / (2 * d)).
    assert (Ha' : (r2 ^ 2 - r1 ^ 2 + d * d) / (2 * d) = d - a) by (unfold a; field; lra).
    rewrite Ha'.
    assert (Hh : r2 ^ 2 - (d - a) ^ 2 = r1 ^ 2 - a ^ 2) by (unfold a; field; lra).
    rewrite Hh. set (h := sqrt _).
    assert (Hdd : d * d = sum_sq (p1 - p2)%V)
      by (unfold d; rewrite euclid_dist_norm; apply norm_sqr).
    clearbody a h. unfold sum_sq, vsub in Hdd. cbn [px py] in Hdd.
    f_equal. f_equal; field; lra.
  - apply gci_none_iff in E2. rewrite Hsym in E2.
    assert (Hn : get_circle_intersection p1 r1 p2 r2 1 = None).
    { apply gci_none_iff. rewrite Rabs_minus_sym. destruct E2 as [?|[?|?]]; [left|right;left|right;right]; lra. }
    congruence.
  - apply gci_none_iff in E1.
    assert (Hn : get_circle_intersection p2 r2 p1 r1 (-1) = None).
    { apply gci_none_iff. rewrite Hsym, Rabs_minus_sym.
      destruct E1 as [?|[?|?]]; [left|right;left|right;right]; lra. }
    congruence.
  - reflexivity.
Qed.

(** ** Distance from a point to a segment *)

Lemma sum_sq_zero (v : Point) : sum_sq v = 0 → px v = 0 ∧ py v = 0.
Proof. unfold sum_sq. intros H. split; nra. Qed.

Lemma norm_le_of_sum_sq (u v : Point) : sum_sq u <= sum_sq v → norm u <= norm v.
Proof. intros H. unfold norm. by apply sqrt_le_1_alt. Qed.

Lemma clamp_unit_range (q : R) : 0 <= Rmax 0 (Rmin 1 q) <= 1.
Proof. split; [apply Rmax_l|]. apply Rmax_lub; [lra | apply Rmin_l]. Qed.

(** The clamped parameter minimises the quadratic [s ↦ s^2 - 2 q s] on
    the unit interval. *)
Lemma clamp_minimises (q s : R) :
  0 <= s <= 1 →
  let t := Rmax 0 (Rmin 1 q) in
  0 <= (s - t) * (s + t - 2 * q).
Proof.
  intros Hs t. subst t.
  destruct (Rle_or_lt 1 q) as [H1|H1].
  - rewrite Rmin_left, Rmax_right by lra.
    replace ((s - 1) * (s + 1 - 2 * q)) with ((1 - s) * (2 * q - s - 1)) by ring.
    apply Rmult_le_pos; lra.
  - rewrite Rmin_right by lra. destruct (Rle_or_lt 0 q) as [H0|H0].
    + rewrite Rmax_right by lra.
      replace ((s - q) * (s + q - 2 * q)) with ((s - q) * (s - q)) by ring.
      apply Rle_0_sqr.
    + rewrite Rmax_left by lra.
      replace ((s - 0) * (s + 0 - 2 * q)) with (s * (s - 2 * q)) by ring.
      apply Rmult_le_pos; lra.
Qed.

Lemma sum_sq_along_segment (p a b : Point) (s : R) :
  sum_sq (p - segment_point a b s)%V
  = sum_sq (p - a)%V - 2 * s * dot (p - a)%V (b - a)%V + s * s * sum_sq (b - a)%V.
Proof. unfold sum_sq, dot, segment_point, vsub, vadd, vscale. cbn [px py]. ring. Qed.

Lemma dist_point_segment_attained (p a b : Point) :
  ∃ s, 0 <= s <= 1 ∧ dist_point_segment p a b = norm (p - segment_point a b s)%V.
Proof.
  unfold dist_point_segment. cbv zeta. case_bool_decide as HL.
  - exists 0. split; [lra|]. f_equal. apply Point_eq; simpl; ring.
  - eexists. split; [apply clamp_unit_range | reflexivity].
Qed.

Lemma dist_point_segment_le (p a b : Point) (s : R) :
  0 <= s <= 1 → dist_point_segment p a b <= norm (p - segment_point a b s)%V.
Proof.
  intros Hs. unfold dist_point_segment. cbv zeta. case_bool_decide as HL.
  - apply sum_sq_zero in HL as [Hx Hy]. simpl in Hx, Hy.
    apply Req_le. f_equal. apply Point_eq; simpl; nra.
  - fold (segment_point a b (Rmax 0 (Rmin 1 (dot (p - a)%V (b - a)%V / sum_sq (b - a)%V)))).
    apply norm_le_of_sum_sq. rewrite !sum_sq_along_segment.
    set (L := sum_sq (b - a)%V) in *. set (c := dot (p - a)%V (b - a)%V).
    assert (HLpos : 0 < L) by (pose proof (sum_sq_nonneg (b - a)%V) as Hnn; unfold L in *; lra).
    pose proof (clamp_minimises (c / L) s Hs) as Hmin. cbv zeta in Hmin.
    set (t := Rmax 0 (Rmin 1 (c / L))) in *.
    assert (Hc : c = c / L * L) by (field; lra).
    assert (Hdiff : (sum_sq (p - a)%V - 2 * s * c + s * s * L)
                    - (sum_sq (p - a)%V - 2 * t * c + t * t * L)
                    = L * ((s - t) * (s + t - 2 * (c / L)))).
    { rewrite Hc at 1 2. ring. }
    assert (0 <= L * ((s - t) * (s + t - 2 * (c / L)))) by (apply Rmult_le_pos; lra).
    lra.
Qed.

(** X3. [dist_point_segment p a b] is the least distance from [p] to a
    point of the segment: it is the distance to some point of the
    segment, and no point of the segment is closer.  (When [a = b] the
    segment is the single point [a].) *)
Theorem dist_point_segment_is_minimum :
  ∀ p a b : Point,
    (∃ x, on_segment (a, b) x ∧ dist_point_segment p a b = euclid_dist p x)
    ∧ (∀ x, on_segment (a, b) x → dist_point_segment p a b <= euclid_dist p x).
Proof.
  intros p a b. split.
  - destruct (dist_point_segment_attained p a b) as (s & Hs & H).
    exists (segment_point a b s). split; [by exists s|]. by rewrite euclid_dist_norm.
  - intros x (s & Hs & ->). rewrite euclid_dist_norm. by apply dist_point_segment_le.
Qed.

Lemma segment_point_reverse (a b : Point) (s : R) :
  segment_point b a s = segment_point a b (1 - s).
Proof. apply Point_eq; simpl; ring. Qed.

Lemma dist_point_segment_sym (p a b : Point) :
  dist_point_segment p a b = dist_point_segment p b a.
Proof.
  apply Rle_antisym.
  - destruct (dist_point_segment_attained p b a) as (s & Hs & ->).
    rewrite segment_point_reverse. apply dist_point_segment_le. lra.
  - destruct (dist_point_segment_attained p a b) as (s & Hs & ->).
    rewrite segment_point_reverse. apply dist_point_segment_le. lra.
Qed.

Lemma dist_point_segment_nonneg (p a b : Point) : 0 <= dist_point_segment p a b.
Proof.
  destruct (dist_point_segment_attained p a b) as (s & _ & ->). apply sqrt_pos.
Qed.

(** X4. The distance does not depend on the direction of the segment, is
    never negative, is at most the distance to either end, and is 0 at
    the two ends. *)
Theorem dist_point_segment_symmetric_bounded :
  ∀ p a b : Point,
    dist_point_segment p a b = dist_point_segment p b a
    ∧ 0 <= dist_point_segment p a b
    ∧ dist_point_segment p a b <= euclid_dist p a
    ∧ dist_point_segment p a b <= euclid_dist p b
    ∧ dist_point_segment a a b = 0
    ∧ dist_point_segment b a b = 0.
Proof.
  intros p a b.
  assert (H0 : ∀ q a' b', dist_point_segment q a' b' <= euclid_dist q a').
  { intros q a' b'. rewrite euclid_dist_norm.
    replace a' with (segment_point a' b' 0) at 2 by (apply Point_eq; simpl; ring).
    apply dist_point_segment_le. lra. }
  assert (Hz : ∀ a' b', dist_point_segment a' a' b' = 0).
  { intros a' b'. apply Rle_antisym; [|apply dist_point_segment_nonneg].
    eapply Rle_trans; [apply H0|]. rewrite euclid_dist_norm, norm_vsub_diag. lra. }
  split; [apply dist_point_segment_sym|]. split; [apply dist_point_segment_nonneg|].
  split; [apply H0|]. split; [rewrite dist_point_segment_sym; apply H0|].
  split; [apply Hz|]. rewrite dist_point_segment_sym. apply Hz.
Qed.

(** ** Orientation and crossing tests *)

(** X6. A segment followed by one that starts where it ends counts as
    crossing exactly when the three points turn counter-clockwise:
    [intersect(A, B, B, C)] is [ccw(A, B, C)].  The orientation test itself
    answers false whenever two of its three points coincide. *)
Theorem intersect_chain_is_ccw :
  ∀ A B C : Point,
    intersect A B B C = ccw A B C
    ∧ ccw A A B = false ∧ ccw A B A = false ∧ ccw A B B = false.
Proof.
  intros A B C. unfold intersect, ccw.
  repeat split;
    repeat match goal with
           | |- context [bool_decide ?P] => destruct (decide P);
               [rewrite (bool_decide_eq_true_2 P) by assumption
               | rewrite (bool_decide_eq_false_2 P) by assumption]
           end; try reflexivity; exfalso; lra.
Qed.

Lemma ratio_in_unit (a d : R) : 0 <= a <= d → 0 < d → 0 <= a / d <= 1.
Proof.
  intros [Ha Had] Hd. pose proof (Rinv_0_lt_compat d Hd) as Hi. split.
  - apply Rmult_le_pos; lra.
  - replace 1 with (d * / d) by (field; lra). unfold Rdiv.
    apply Rmult_le_compat_r; lra.
Qed.


(** ** Distance between two segments *)

Lemma Rmin4_cases (a b c d : R) :
  let m := Rmin a (Rmin b (Rmin c d)) in
  (m = a ∨ m = b ∨ m = c ∨ m = d) ∧ m <= a ∧ m <= b ∧ m <= c ∧ m <= d.
Proof. cbv zeta. unfold Rmin. repeat destruct (Rle_dec _ _); lra. Qed.

Lemma min_dist_segments_nonneg (s1 s2 : Segment) : 0 <= min_dist_segments s1 s2.
Proof.
  destruct s1 as [p1 p2], s2 as [p3 p4]. unfold min_dist_segments.
  destruct (intersect p1 p2 p3 p4); [lra|]. cbv zeta.
  repeat apply Rmin_glb; apply dist_point_segment_nonneg.
Qed.

Lemma min_dist_segments_le_end (s1 s2 : Segment) (e x : Point) :
  e = s1.1 ∨ e = s1.2 → on_segment s2 x →
  min_dist_segments s1 s2 <= euclid_dist e x.
Proof.
  destruct s1 as [p1 p2], s2 as [p3 p4]. simpl. intros He (s & Hs & ->). simpl.
  rewrite euclid_dist_norm. unfold min_dist_segments.
  destruct (intersect p1 p2 p3 p4); [apply sqrt_pos|].
  destruct (Rmin4_cases (dist_point_segment p3 p1 p2) (dist_point_segment p4 p1 p2)
              (dist_point_segment p1 p3 p4) (dist_point_segment p2 p3 p4))
    as (_ & _ & _ & H3 & H4).
  cbv zeta in *.
  destruct He as [-> | ->].
  - etrans; [exact H3|]. by apply dist_point_segment_le.
  - etrans; [exact H4|]. by apply dist_point_segment_le.
Qed.

Lemma min_dist_segments_le_other_end (s1 s2 : Segment) (e x : Point) :
  e = s2.1 ∨ e = s2.2 → on_segment s1 x →
  min_dist_segments s1 s2 <= euclid_dist e x.
Proof.
  destruct s1 as [p1 p2], s2 as [p3 p4]. simpl. intros He (s & Hs & ->). simpl.
  rewrite euclid_dist_norm. unfold min_dist_segments.
  destruct (intersect p1 p2 p3 p4); [apply sqrt_pos|].
  destruct (Rmin4_cases (dist_point_segment p3 p1 p2) (dist_point_segment p4 p1 p2)
              (dist_point_segment p1 p3 p4) (dist_point_segment p2 p3 p4))
    as (_ & H1 & H2 & _ & _).
  cbv zeta in *.
  destruct He as [-> | ->].
  - etrans; [exact H1|]. by apply dist_point_segment_le.
  - etrans; [exact H2|]. by apply dist_point_segment_le.
Qed.

(** X8. The segment-to-segment distance is never negative and never
    exceeds the distance from an end of either segment to any point of the
    other segment. *)
Theorem min_dist_segments_bounded :
  ∀ s1 s2 : Segment,
    0 <= min_dist_segments s1 s2
    ∧ (∀ e x, (e = s1.1 ∨ e = s1.2) → on_segment s2 x →
              min_dist_segments s1 s2 <= euclid_dist e x)
    ∧ (∀ e x, (e = s2.1 ∨ e = s2.2) → on_segment s1 x →
              min_dist_segments s1 s2 <= euclid_dist e x).
Proof.
  intros s1 s2. split; [apply min_dist_segments_nonneg|]. split.
  - intros. by apply min_dist_segments_le_end.
  - intros. by apply min_dist_segments_le_other_end.
Qed.

(** ** Link lengths of the five-bar legs *)

Lemma norm_vscale (v : Point) (k : R) : norm (vscale v k) = norm v * Rabs k.
Proof.
  unfold norm, sum_sq, vscale. cbn [px py].
  replace ((px v * k) ^ 2 + (py v * k) ^ 2) with ((px v ^ 2 + py v ^ 2) * Rsqr k)
    by (unfold Rsqr; ring).
  rewrite sqrt_mult_alt by nra. by rewrite sqrt_Rsqr_abs.
Qed.

Lemma vdiv_vscale (v : Point) (n k : R) :
  n ≠ 0 → vscale (vdiv v n) k = vscale v (k / n).
Proof. intros Hn. apply Point_eq; simpl; field; done. Qed.

Lemma norm_unit_scaled (v : Point) (k : R) :
  norm v ≠ 0 → norm (vscale (vdiv v (norm v)) k) = Rabs k.
Proof.
  intros Hn. rewrite vdiv_vscale by done. rewrite norm_vscale.
  assert (0 < norm v) by (pose proof (sqrt_pos (sum_sq v)); unfold norm in *; lra).
  unfold Rdiv. rewrite Rabs_mult, (Rabs_pos_eq (/ norm v)).
  - field_simplify; [lra | done].
  - left. by apply Rinv_0_lt_compat.
Qed.

Lemma norm_vadd_vsub (s v : Point) : norm ((s + v) - s)%V = norm v.
Proof. f_equal. apply Point_eq; simpl; ring. Qed.

Lemma rear_fk_some_inv (self : FiveBarRearLeg.t) (theta1_deg theta2_deg : R)
    (foot : Point) (joints : JointSet) :
  FiveBarRearLeg.forward_kinematics self theta1_deg theta2_deg = (Some foot, joints) →
  let a := (FiveBarRearLeg.servo1_pos self
            + pol2cart (FiveBarRearLeg.l1 self)
                (radians theta1_deg + FiveBarRearLeg.offset_t1 self))%V in
  let c := (FiveBarRearLeg.servo2_pos self
            + pol2cart (FiveBarRearLeg.l3 self)
                (radians theta2_deg + FiveBarRearLeg.offset_t2 self))%V in
  ∃ b,
    get_circle_intersection a (FiveBarRearLeg.l2 self) c (FiveBarRearLeg.l4 self) (-1)
      = Some b
    ∧ 1e-6 <= norm (c - b)%V
    ∧ foot = (c + vscale (vdiv (c - b) (norm (c - b))) (FiveBarRearLeg.l5 self))%V
    ∧ joints = {[ "S1" := FiveBarRearLeg.servo1_pos self;
                  "S2" := FiveBarRearLeg.servo2_pos self;
                  "A" := a; "B" := b; "C" := c; "Foot" := foot ]}.
Proof.
  unfold FiveBarRearLeg.forward_kinematics. cbv zeta.
  destruct (get_circle_intersection _ _ _ _ _) as [b|] eqn:Hb; [|done].
  case_bool_decide as Hn; [done|]. intros [= <- <-].
  exists b. repeat split; try done. lra.
Qed.

Lemma front_fk_some_inv (self : FiveBarFrontLeg.t) (theta1_deg theta2_deg : R)
    (foot : Point) (joints : JointSet) :
  FiveBarFrontLeg.forward_kinematics self theta1_deg theta2_deg = (Some foot, joints) →
  let a := (FiveBarFrontLeg.servo1_pos self
            + pol2cart (FiveBarFrontLeg.l1 self)
                (radians theta1_deg + FiveBarFrontLeg.offset_t1 self))%V in
  let b := (FiveBarFrontLeg.servo2_pos self
            + pol2cart (FiveBarFrontLeg.l2 self)
                (radians theta2_deg + FiveBarFrontLeg.offset_t2 self))%V in
  ∃ c,
    get_circle_intersection a (FiveBarFrontLeg.l4 self) b (FiveBarFrontLeg.l3 self) (-1)
      = Some c
    ∧ 1e-6 <= norm (c - a)%V
    ∧ foot = (c + vscale (vdiv (c - a) (norm (c - a))) (FiveBarFrontLeg.l5 self))%V
    ∧ joints = {[ "S1" := FiveBarFrontLeg.servo1_pos self;
                  "S2" := FiveBarFrontLeg.servo2_pos self;
                  "A" := a; "B" := b; "C" := c; "Foot" := foot ]}.
Proof.
  unfold FiveBarFrontLeg.forward_kinematics. cbv zeta.
  destruct (get_circle_intersection _ _ _ _ _) as [c|] eqn:Hc; [|done].
  case_bool_decide as Hn; [done|]. intros [= <- <-].
  exists c. repeat split; try done. lra.
Qed.

(** X10. A pose returned by the rear five-bar respects every link: A is
    |l1| from servo 1, C is |l3| from servo 2, B is |l2| from A and |l4|
    from C, and the foot is |l5| from C on the line through B and C.  A
    foot is only returned when the distance from B to C that the code
    computes is at least 1e-6. *)
Theorem rear_pose_respects_links :
  ∀ (self : FiveBarRearLeg.t) (theta1_deg theta2_deg : R) (foot : Point)
    (joints : JointSet),
    FiveBarRearLeg.forward_kinematics self theta1_deg theta2_deg = (Some foot, joints) →
    ∃ a b c,
      joints = {[ "S1" := FiveBarRearLeg.servo1_pos self;
                  "S2" := FiveBarRearLeg.servo2_pos self;
                  "A" := a; "B" := b; "C" := c; "Foot" := foot ]}
      ∧ euclid_dist a (FiveBarRearLeg.servo1_pos self) = Rabs (FiveBarRearLeg.l1 self)
      ∧ euclid_dist c (FiveBarRearLeg.servo2_pos self) = Rabs (FiveBarRearLeg.l3 self)
      ∧ euclid_dist b a = Rabs (FiveBarRearLeg.l2 self)
      ∧ euclid_dist c b = Rabs (FiveBarRearLeg.l4 self)
      ∧ euclid_dist foot c = Rabs (FiveBarRearLeg.l5 self)
      ∧ 1e-6 <= euclid_dist c b
      ∧ foot = (c + vscale (c - b) (FiveBarRearLeg.l5 self / euclid_dist c b))%V.
Proof.
  intros self theta1_deg theta2_deg foot joints Hfk.
  apply rear_fk_some_inv in Hfk as (b & Hb & Hn & Hfoot & Hj). cbv zeta in *.
  pose proof (gci_on_first_circle _ _ _ _ _ _ Hb) as Hba.
  pose proof (gci_on_second_circle _ _ _ _ _ _ Hb) as Hcb.
  eexists _, b, _. split; [exact Hj|].
  rewrite !euclid_dist_norm, !norm_vadd_vsub, !norm_pol2cart.
  repeat split; try done.
  - rewrite Hfoot, norm_vadd_vsub. apply norm_unit_scaled. lra.
  - rewrite Hfoot. f_equal. apply vdiv_vscale. lra.
Qed.

Lemma rear_pose_respects_links_witness :
  ∃ foot joints a b c,
    FiveBarRearLeg.forward_kinematics FiveBarRearLeg.init 90 90 = (Some foot, joints)
    ∧ joints = {[ "S1" := mkPoint (-15.0) (-10.0); "S2" := mkPoint 0.0 0.0;
                  "A" := a; "B" := b; "C" := c; "Foot" := foot ]}
    ∧ euclid_dist b a = Rabs 45.0
    ∧ euclid_dist c b = Rabs 45.0
    ∧ euclid_dist foot c = Rabs 95.0.
Proof.
  destruct rear_default_pose_has_foot as (foot & joints & Hfk).
  destruct (rear_pose_respects_links FiveBarRearLeg.init 90 90 foot joints Hfk)
    as (a & b & c & Hj & _ & _ & Hba & Hcb & Hfc & _).
  exists foot, joints, a, b, c. done.
Defined.

(** X11. A pose returned by the front five-bar respects every link: A is
    |l1| from servo 1, B is |l2| from servo 2, C is |l4| from A and |l3|
    from B, and the foot is |l5| from C on the line through A and C.  A
    foot is only returned when the distance from A to C that the code
    computes is at least 1e-6. *)
Theorem front_pose_respects_links :
  ∀ (self : FiveBarFrontLeg.t) (theta1_deg theta2_deg : R) (foot : Point)
    (joints : JointSet),
    FiveBarFrontLeg.forward_kinematics self theta1_deg theta2_deg = (Some foot, joints) →
    ∃ a b c,
      joints = {[ "S1" := FiveBarFrontLeg.servo1_pos self;
                  "S2" := FiveBarFrontLeg.servo2_pos self;
                  "A" := a; "B" := b; "C" := c; "Foot" := foot ]}
      ∧ euclid_dist a (FiveBarFrontLeg.servo1_pos self) = Rabs (FiveBarFrontLeg.l1 self)
      ∧ euclid_dist b (FiveBarFrontLeg.servo2_pos self) = Rabs (FiveBarFrontLeg.l2 self)
      ∧ euclid_dist c a = Rabs (FiveBarFrontLeg.l4 self)
      ∧ euclid_dist b c = Rabs (FiveBarFrontLeg.l3 self)
      ∧ euclid_dist foot c = Rabs (FiveBarFrontLeg.l5 self)
      ∧ 1e-6 <= euclid_dist c a
      ∧ foot = (c + vscale (c - a) (FiveBarFrontLeg.l5 self / euclid_dist c a))%V.
Proof.
  intros self theta1_deg theta2_deg foot joints Hfk.
  apply front_fk_some_inv in Hfk as (c & Hc & Hn & Hfoot & Hj). cbv zeta in *.
  pose proof (gci_on_first_circle _ _ _ _ _ _ Hc) as Hca.
  pose proof (gci_on_second_circle _ _ _ _ _ _ Hc) as Hbc.
  eexists _, _, c. split; [exact Hj|].
  rewrite !euclid_dist_norm, !norm_vadd_vsub, !norm_pol2cart.
  repeat split; try done.
  - rewrite Hfoot, norm_vadd_vsub. apply norm_unit_scaled. lra.
  - rewrite Hfoot. f_equal. apply vdiv_vscale. lra.
Qed.

Lemma front_fk_none_iff_l4 (self : FiveBarFrontLeg.t) (theta1_deg theta2_deg : R) :
  (FiveBarFrontLeg.forward_kinematics self theta1_deg theta2_deg).1 = None
  ↔ FiveBarFront_closure_infeasible self theta1_deg theta2_deg
    ∨ Rabs (FiveBarFrontLeg.l4 self) < 1e-6.
Proof.
  rewrite (front_fk_none_iff self theta1_deg theta2_deg).
  unfold FiveBarFront_closure_infeasible, FiveBarFront_foot_direction, circles_infeasible.
  cbv zeta. rewrite <- gci_none_iff with (chirality := (-1)%Z).
  destruct (get_circle_intersection _ _ _ _ _) as [c|] eqn:Hc; cbn [mbind option_bind].
  - pose proof (gci_on_first_circle _ _ _ _ _ _ Hc) as Hca. split.
    + intros [? | (v & [= <-] & Hv)]; [done|]. right. by rewrite <- Hca.
    + intros [? | Hl]; [done|]. right. eexists. split; [done|]. by rewrite Hca.
  - split; intros _; by left.
Qed.

(** The front five-bar at its default lengths, both servos at 90 degrees:
    A = (-15, 35), B = (0, 45), and the closure joint exists. *)
Lemma front_default_pose_has_foot :
  ∃ foot joints, FiveBarFrontLeg.forward_kinematics FiveBarFrontLeg.init 90 90
                 = (Some foot, joints).
Proof.
  destruct (FiveBarFrontLeg.forward_kinematics FiveBarFrontLeg.init 90 90)
    as [[foot|] joints] eqn:Hfk; [by eauto|].
  exfalso.
  assert (Hnone : (FiveBarFrontLeg.forward_kinematics FiveBarFrontLeg.init 90 90).1 = None)
    by (by rewrite Hfk).
  apply front_fk_none_iff_l4 in Hnone as [Hinf | Hl].
  - unfold FiveBarFront_closure_infeasible, circles_infeasible in Hinf.
    cbv zeta in Hinf. unfold FiveBarFrontLeg.init in Hinf.
    cbn [FiveBarFrontLeg.l1 FiveBarFrontLeg.l2 FiveBarFrontLeg.l3 FiveBarFrontLeg.l4
         FiveBarFrontLeg.offset_t1 FiveBarFrontLeg.offset_t2
         FiveBarFrontLeg.servo1_pos FiveBarFrontLeg.servo2_pos] in Hinf.
    replace (radians 90 + 0.0) with (PI / 2) in Hinf by (unfold radians; lra).
    rewrite !pol2cart_quarter_turn in Hinf.
    assert (Hd : euclid_dist (mkPoint (-15.0) (-10.0) + mkPoint 0 45.0)%V
                             (mkPoint 0.0 0.0 + mkPoint 0 45.0)%V = sqrt 325).
    { unfold euclid_dist. cbn [px py vadd]. f_equal. lra. }
    rewrite Hd in Hinf.
    assert (H5 : 5 <= sqrt 325).
    { rewrite <- (sqrt_square 5) by lra. apply sqrt_le_1_alt. lra. }
    assert (H95 : sqrt 325 <= 95).
    { rewrite <- (sqrt_square 95) by lra. apply sqrt_le_1_alt. lra. }
    assert (Hr : Rabs (45.0 - 50.0) = 5)
      by (rewrite <- Rabs_Ropp, Rabs_pos_eq; lra).
    rewrite Hr in Hinf. lra.
  - unfold FiveBarFrontLeg.init in Hl. cbn [FiveBarFrontLeg.l4] in Hl.
    rewrite Rabs_pos_eq in Hl; lra.
Qed.

Lemma front_pose_respects_links_witness :
  ∃ foot joints a b c,
    FiveBarFrontLeg.forward_kinematics FiveBarFrontLeg.init 90 90 = (Some foot, joints)
    ∧ joints = {[ "S1" := mkPoint (-15.0) (-10.0); "S2" := mkPoint 0.0 0.0;
                  "A" := a; "B" := b; "C" := c; "Foot" := foot ]}
    ∧ euclid_dist c a = Rabs 45.0
    ∧ euclid_dist b c = Rabs 50.0
    ∧ euclid_dist foot c = Rabs 95.0.
Proof.
  destruct front_default_pose_has_foot as (foot & joints & Hfk).
  destruct (front_pose_respects_links FiveBarFrontLeg.init 90 90 foot joints Hfk)
    as (a & b & c & Hj & _ & _ & Hca & Hbc & Hfc & _).
  exists foot, joints, a, b, c. done.
Defined.


(** ** The serial leg *)

Lemma two_link_sum_sq (l1 l2 t1 t2 : R) :
  sum_sq (pol2cart l1 t1 + pol2cart l2 (t1 - t2))%V
  = l1 ^ 2 + l2 ^ 2 + 2 * l1 * l2 * cos t2.
Proof.
  replace (cos t2) with (cos (t1 - (t1 - t2))) by (f_equal; ring).
  rewrite cos_minus. unfold sum_sq, pol2cart, vadd. cbn [px py].
  pose proof (sin2_cos2 t1) as H1. pose proof (sin2_cos2 (t1 - t2)) as H2.
  unfold Rsqr in H1, H2.
  set (c1 := cos t1) in *. set (s1 := sin t1) in *.
  set (c2 := cos (t1 - t2)) in *. set (s2 := sin (t1 - t2)) in *.
  transitivity (l1 ^ 2 * (s1 * s1 + c1 * c1) + l2 ^ 2 * (s2 * s2 + c2 * c2)
                + 2 * l1 * l2 * (c1 * c2 + s1 * s2)); [ring|].
  rewrite H1, H2. ring.
Qed.

Lemma serial_fk_eq (self : SerialLeg.t) (theta1_deg theta2_deg : R) :
  let theta1 := radians theta1_deg + SerialLeg.offset_t1 self in
  let theta2 := radians theta2_deg + SerialLeg.offset_t2 self in
  let knee := (SerialLeg.base_pos self + pol2cart (SerialLeg.l1 self) theta1)%V in
  let foot := (knee + pol2cart (SerialLeg.l2 self) (theta1 - theta2))%V in
  SerialLeg.forward_kinematics self theta1_deg theta2_deg
  = (Some foot, {[ "Base" := SerialLeg.base_pos self; "Knee" := knee; "Foot" := foot ]})
  ∧ norm (foot - SerialLeg.base_pos self)%V
    = two_link_reach (SerialLeg.l1 self) (SerialLeg.l2 self) theta2.
Proof.
  cbv zeta. split; [reflexivity|].
  unfold two_link_reach, norm. f_equal. rewrite <- two_link_sum_sq with (t1 := radians theta1_deg + SerialLeg.offset_t1 self).
  unfold sum_sq, vadd, vsub. cbn [px py]. ring.
Qed.

(** X13. The serial leg always returns a pose with exactly the joints
    Base, Knee and Foot; the knee is |l1| from the base, the foot |l2| from
    the knee, and the distance from the foot to the base is the
    law-of-cosines value, in which the first angle does not occur.  The
    collision check of that pose answers true exactly when the distance
    from the foot to the base is below the threshold. *)
Theorem serial_pose_and_collision :
  ∀ (self : SerialLeg.t) (theta1_deg theta2_deg : R),
    ∃ knee foot,
      SerialLeg.forward_kinematics self theta1_deg theta2_deg
      = (Some foot, {[ "Base" := SerialLeg.base_pos self; "Knee" := knee; "Foot" := foot ]})
      ∧ euclid_dist knee (SerialLeg.base_pos self) = Rabs (SerialLeg.l1 self)
      ∧ euclid_dist foot knee = Rabs (SerialLeg.l2 self)
      ∧ euclid_dist foot (SerialLeg.base_pos self)
        = two_link_reach (SerialLeg.l1 self) (SerialLeg.l2 self)
            (radians theta2_deg + SerialLeg.offset_t2 self)
      ∧ SerialLeg.check_collisions self
          (SerialLeg.forward_kinematics self theta1_deg theta2_deg).2
        = Some (bool_decide (euclid_dist foot (SerialLeg.base_pos self)
                             < SerialLeg.collision_threshold self)).
Proof.
  intros self theta1_deg theta2_deg.
  destruct (serial_fk_eq self theta1_deg theta2_deg) as [Hfk Hr]. cbv zeta in *.
  eexists _, _. split; [exact Hfk|].
  rewrite !euclid_dist_norm, !norm_vadd_vsub, !norm_pol2cart.
  split; [done|]. split; [done|]. split; [exact Hr|].
  rewrite Hfk. cbn [snd]. by rewrite serial_check_collisions_spec.
Qed.


(** ** The pantograph leg *)

Lemma degrees_radians (x : R) : degrees (radians x) = x.
Proof. unfold degrees, radians. field. apply PI_neq0. Qed.

Lemma radians_degrees (x : R) : radians (degrees x) = x.
Proof. unfold degrees, radians. field. apply PI_neq0. Qed.

Lemma tan_shift_PI (x : R) : cos x ≠ 0 → tan (x + PI) = tan x.
Proof.
  intros Hc. unfold tan. rewrite neg_sin, neg_cos. field. done.
Qed.

(** [arctan2] recovers the angle of a polar point with positive radius. *)
Lemma arctan2_polar (r phi : R) :
  0 < r → - PI < phi <= PI → arctan2 (r * sin phi) (r * cos phi) = phi.
Proof.
  intros Hr [Hlo Hhi]. pose proof PI_RGT_0 as HPI. unfold arctan2.
  assert (Hquot : cos phi ≠ 0 → r * sin phi / (r * cos phi) = tan phi).
  { intros Hc. unfold tan. field. split; [done | lra]. }
  destruct (Rlt_or_le phi (- (PI / 2))) as [H1|H1];
    [|destruct (Req_dec phi (- (PI / 2))) as [H2|H2];
      [|destruct (Rlt_or_le phi (PI / 2)) as [H3|H3];
        [|destruct (Req_dec phi (PI / 2)) as [H4|H4]]]].
  - (* third quadrant *)
    assert (Hc : cos phi < 0).
    { rewrite <- cos_neg. apply cos_lt_0; lra. }
    assert (Hs : sin phi < 0) by (apply sin_lt_0_var; lra).
    rewrite bool_decide_eq_false_2 by nra.
    rewrite bool_decide_eq_true_2 by nra.
    rewrite bool_decide_eq_false_2 by nra.
    rewrite Hquot by lra. rewrite <- tan_shift_PI by lra.
    rewrite atan_tan by lra. ring.
  - subst phi. rewrite cos_neg, sin_neg, cos_PI2, sin_PI2.
    rewrite bool_decide_eq_false_2 by lra.
    rewrite bool_decide_eq_false_2 by lra.
    rewrite bool_decide_eq_false_2 by lra.
    rewrite bool_decide_eq_true_2 by lra. done.
  - assert (Hc : 0 < cos phi) by (apply cos_gt_0; lra).
    rewrite bool_decide_eq_true_2 by nra.
    rewrite Hquot by lra. apply atan_tan. lra.
  - subst phi. rewrite cos_PI2, sin_PI2.
    rewrite bool_decide_eq_false_2 by lra.
    rewrite bool_decide_eq_false_2 by lra.
    rewrite bool_decide_eq_true_2 by lra. done.
  - (* second quadrant *)
    assert (Hc : cos phi < 0) by (apply cos_lt_0; lra).
    assert (Hs : 0 <= sin phi) by (apply sin_ge_0; lra).
    rewrite bool_decide_eq_false_2 by nra.
    rewrite bool_decide_eq_true_2 by nra.
    rewrite bool_decide_eq_true_2 by nra.
    rewrite Hquot by lra.
    assert (Hc' : cos (phi - PI) ≠ 0).
    { replace (phi - PI) with (- (PI - phi)) by ring. rewrite cos_neg.
      replace (PI - phi) with (- phi + PI) by ring. rewrite neg_cos, cos_neg. lra. }
    replace (tan phi) with (tan (phi - PI)).
    + rewrite atan_tan by lra. ring.
    + rewrite <- (tan_shift_PI (phi - PI)) by done. f_equal. ring.
Qed.

Lemma pantograph_fk_some (self : PantographLeg.t) (theta1_deg theta2_deg : R) :
  PantographLeg.l_crank self ≠ 0 →
  let theta1 := radians theta1_deg + PantographLeg.offset_t1 self in
  let theta2 := radians theta2_deg + PantographLeg.offset_t2 self in
  let s2 := PantographLeg.servo2_pos self in
  let vec_thigh := pol2cart (PantographLeg.l_thigh self) theta1 in
  let vec_crank := pol2cart (PantographLeg.l_crank self) theta2 in
  let knee := (s2 + vec_thigh)%V in
  let crank := (s2 + vec_crank)%V in
  let mount := (crank + vec_thigh)%V in
  let foot := (knee + vscale (vdiv (mount - knee) (norm (mount - knee)))
                        (PantographLeg.l_shin self))%V in
  PantographLeg.forward_kinematics self theta1_deg theta2_deg
  = (Some foot,
     {[ "S1" := PantographLeg.servo1_pos self; "S2" := s2; "Knee" := knee;
        "CrankTip" := crank; "Mount" := mount; "Foot" := foot;
        "ThighConnect" := (s2 + pol2cart 35.0 theta1)%V ]})
  ∧ (mount - knee)%V = vec_crank
  ∧ norm (mount - knee)%V = Rabs (PantographLeg.l_crank self).
Proof.
  intros Hc. cbv zeta.
  assert (Hd : ((PantographLeg.servo2_pos self
                 + pol2cart (PantographLeg.l_crank self)
                     (radians theta2_deg + PantographLeg.offset_t2 self)
                 + pol2cart (PantographLeg.l_thigh self)
                     (radians theta1_deg + PantographLeg.offset_t1 self))
                - (PantographLeg.servo2_pos self
                   + pol2cart (PantographLeg.l_thigh self)
                       (radians theta1_deg + PantographLeg.offset_t1 self)))%V
               = pol2cart (PantographLeg.l_crank self)
                   (radians theta2_deg + PantographLeg.offset_t2 self))
    by apply vsub_vadd_cancel.
  assert (Hn : norm (pol2cart (PantographLeg.l_crank self)
                       (radians theta2_deg + PantographLeg.offset_t2 self))
               = Rabs (PantographLeg.l_crank self)) by apply norm_pol2cart.
  split; [|split; [exact Hd | by rewrite Hd]].
  unfold PantographLeg.forward_kinematics. cbv zeta.
  rewrite Hd, Hn. rewrite bool_decide_eq_false_2; [done|].
  by apply Rabs_no_R0.
Qed.

(** X15. A pose returned by the pantograph respects every link: the knee
    is |l_thigh| and the crank tip |l_crank| from S2, the thigh connection
    35 from S2, the coupler from CrankTip to Mount is a copy of the thigh
    from S2 to Knee, and the foot is |l_shin| from the knee. *)
Theorem pantograph_pose_respects_links :
  ∀ (self : PantographLeg.t) (theta1_deg theta2_deg : R) (foot : Point)
    (joints : JointSet),
    PantographLeg.forward_kinematics self theta1_deg theta2_deg = (Some foot, joints) →
    ∃ knee crank mount connect,
      joints = {[ "S1" := PantographLeg.servo1_pos self;
                  "S2" := PantographLeg.servo2_pos self; "Knee" := knee;
                  "CrankTip" := crank; "Mount" := mount; "Foot" := foot;
                  "ThighConnect" := connect ]}
      ∧ euclid_dist knee (PantographLeg.servo2_pos self) = Rabs (PantographLeg.l_thigh self)
      ∧ euclid_dist crank (PantographLeg.servo2_pos self) = Rabs (PantographLeg.l_crank self)
      ∧ euclid_dist connect (PantographLeg.servo2_pos self) = 35
      ∧ (mount - crank)%V = (knee - PantographLeg.servo2_pos self)%V
      ∧ euclid_dist foot knee = Rabs (PantographLeg.l_shin self).
Proof.
  intros self theta1_deg theta2_deg foot joints Hfk.
  assert (Hc : PantographLeg.l_crank self ≠ 0).
  { pose proof (pantograph_direction_norm self theta1_deg theta2_deg) as Hnorm.
    destruct (pantograph_fk_cases self theta1_deg theta2_deg) as [[_ Hnone] | [Hn _]].
    - rewrite Hnone in Hfk. discriminate.
    - cbv zeta in Hn. rewrite Hnorm in Hn. intros E. rewrite E, Rabs_R0 in Hn. done. }
  destruct (pantograph_fk_some self theta1_deg theta2_deg Hc) as (Hfk' & Hd & Hn).
  cbv zeta in *. rewrite Hfk in Hfk'. injection Hfk' as -> ->.
  eexists _, _, _, _. split; [reflexivity|].
  rewrite !euclid_dist_norm, !norm_vadd_vsub, !norm_pol2cart.
  split; [done|]. split; [done|]. split; [rewrite Rabs_pos_eq; lra|].
  split; [apply Point_eq; simpl; ring|].
  apply norm_unit_scaled. rewrite Hn. by apply Rabs_no_R0.
Qed.

Lemma pantograph_pose_respects_links_witness :
  ∃ foot joints,
    PantographLeg.forward_kinematics PantographLeg.init 90 45 = (Some foot, joints)
    ∧ joints !! "Foot" = Some foot
    ∧ ∃ knee, joints !! "Knee" = Some knee ∧ euclid_dist foot knee = Rabs 95.0.
Proof.
  assert (Hc : PantographLeg.l_crank PantographLeg.init ≠ 0)
    by (unfold PantographLeg.init; cbn [PantographLeg.l_crank]; lra).
  destruct (pantograph_fk_some PantographLeg.init 90 45 Hc) as (Hfk & _).
  cbv zeta in Hfk.
  destruct (pantograph_pose_respects_links PantographLeg.init 90 45 _ _ Hfk)
    as (knee & crank & mount & connect & Hj & _ & _ & _ & _ & Hshin).
  eexists _, _. split; [exact Hfk|]. rewrite Hj. split; [reflexivity|].
  exists knee. split; [reflexivity | exact Hshin].
Defined.

Lemma degrees_range (t : R) : -180 < degrees t <= 180 → - PI < t <= PI.
Proof.
  intros [Hlo Hhi]. rewrite <- (radians_degrees t). unfold radians.
  set (d := degrees t) in *. clearbody d.
  pose proof PI_RGT_0 as HPI. set (k := PI / 180).
  assert (HPIk : PI = 180 * k) by (unfold k; field).
  assert (Hk : 0 < k) by (unfold k; lra).
  clearbody k. rewrite HPIk. split; nra.
Qed.

(** The pantograph's check is a test on the two angles it recovers. *)
Lemma pantograph_check_collisions_link_angles (self : PantographLeg.t) (joints : JointSet) :
  PantographLeg.check_collisions self joints
  = '(ang_s1, ang_s2) ← Pantograph_link_angles joints;
    Some (if bool_decide (ang_s1 < 80) then true
          else if bool_decide (ang_s1 - ang_s2 > 170) then true
          else if bool_decide (ang_s2 > ang_s1 - 10) then true
          else false).
Proof.
  unfold PantographLeg.check_collisions, Pantograph_link_angles.
  destruct (joints !! "Knee") as [knee|]; [|done].
  destruct (joints !! "S2") as [s2|]; cbn [mbind option_bind]; [|done].
  destruct (joints !! "CrankTip") as [crank_tip|]; cbn [mbind option_bind]; [|done].
  repeat case_bool_decide; reflexivity.
Qed.

(** On a pose of the pantograph with positive thigh and crank, [arctan2]
    gives back the two link angles. *)
Lemma pantograph_link_angles_of_pose (self : PantographLeg.t)
    (theta1_deg theta2_deg : R) :
  0 < PantographLeg.l_thigh self → 0 < PantographLeg.l_crank self →
  let a1 := degrees (radians theta1_deg + PantographLeg.offset_t1 self) in
  let a2 := degrees (radians theta2_deg + PantographLeg.offset_t2 self) in
  -180 < a1 <= 180 → -180 < a2 <= 180 →
  Pantograph_link_angles (PantographLeg.forward_kinematics self theta1_deg theta2_deg).2
  = Some (a1, a2).
Proof.
  intros Ht Hc a1 a2 Ha1 Ha2.
  assert (Hc0 : PantographLeg.l_crank self ≠ 0) by lra.
  destruct (pantograph_fk_some self theta1_deg theta2_deg Hc0) as (Hfk & _ & _).
  cbv zeta in Hfk. rewrite Hfk. cbn [snd].
  match goal with |- Pantograph_link_angles ?m = _ => set (joints := m) end.
  assert (HK : joints !! "Knee" = Some (PantographLeg.servo2_pos self
                 + pol2cart (PantographLeg.l_thigh self)
                     (radians theta1_deg + PantographLeg.offset_t1 self))%V)
    by reflexivity.
  assert (HS : joints !! "S2" = Some (PantographLeg.servo2_pos self)) by reflexivity.
  assert (HC : joints !! "CrankTip" = Some (PantographLeg.servo2_pos self
                 + pol2cart (PantographLeg.l_crank self)
                     (radians theta2_deg + PantographLeg.offset_t2 self))%V)
    by reflexivity.
  clearbody joints. unfold Pantograph_link_angles.
  rewrite HK, HS, HC. cbn [mbind option_bind]. cbv zeta.
  set (t1 := radians theta1_deg + PantographLeg.offset_t1 self) in *.
  set (t2 := radians theta2_deg + PantographLeg.offset_t2 self) in *.
  pose proof degrees_range as Hdeg.
  assert (E1 : arctan2 (py (PantographLeg.servo2_pos self
                            + pol2cart (PantographLeg.l_thigh self) t1
                            - PantographLeg.servo2_pos self)%V)
                 (px (PantographLeg.servo2_pos self
                      + pol2cart (PantographLeg.l_thigh self) t1
                      - PantographLeg.servo2_pos self)%V) = t1).
  { rewrite <- (arctan2_polar (PantographLeg.l_thigh self) t1 Ht (Hdeg t1 Ha1)) at 3.
    f_equal; simpl; ring. }
  assert (E2 : arctan2 (py (PantographLeg.servo2_pos self
                            + pol2cart (PantographLeg.l_crank self) t2
                            - PantographLeg.servo2_pos self)%V)
                 (px (PantographLeg.servo2_pos self
                      + pol2cart (PantographLeg.l_crank self) t2
                      - PantographLeg.servo2_pos self)%V) = t2).
  { rewrite <- (arctan2_polar (PantographLeg.l_crank self) t2 Hc (Hdeg t2 Ha2)) at 3.
    f_equal; simpl; ring. }
  by rewrite E1, E2.
Qed.

(** X16. For a pantograph with positive thigh and crank lengths whose two
    link angles (servo angle plus offset, in degrees) lie in (-180, 180],
    the two angles that the collision check recovers with [arctan2] from
    the pose are these link angles, whatever the link lengths; and the
    check accepts the pose exactly when the recovered thigh angle is at
    least 80 and exceeds the recovered crank angle by at least 10 and at
    most 170. *)
Theorem pantograph_collision_is_angle_window :
  ∀ (self : PantographLeg.t) (theta1_deg theta2_deg : R),
    0 < PantographLeg.l_thigh self → 0 < PantographLeg.l_crank self →
    let a1 := degrees (radians theta1_deg + PantographLeg.offset_t1 self) in
    let a2 := degrees (radians theta2_deg + PantographLeg.offset_t2 self) in
    let joints := (PantographLeg.forward_kinematics self theta1_deg theta2_deg).2 in
    -180 < a1 <= 180 → -180 < a2 <= 180 →
    ∃ (ang_s1 ang_s2 : R) (r : bool),
      Pantograph_link_angles joints = Some (ang_s1, ang_s2)
      ∧ ang_s1 = a1 ∧ ang_s2 = a2
      ∧ PantographLeg.check_collisions self joints = Some r
      ∧ (r = false ↔ 80 <= ang_s1 ∧ 10 <= ang_s1 - ang_s2 <= 170).
Proof.
  intros self theta1_deg theta2_deg Ht Hc a1 a2 joints Ha1 Ha2.
  pose proof (pantograph_link_angles_of_pose self theta1_deg theta2_deg Ht Hc Ha1 Ha2)
    as Hang.
  fold a1 a2 joints in Hang.
  exists a1, a2. eexists. split; [exact Hang|]. split; [done|]. split; [done|].
  rewrite pantograph_check_collisions_link_angles, Hang. cbn [mbind option_bind].
  split; [reflexivity|].
  repeat case_bool_decide; split; intros; try done; lra.
Qed.

Lemma pantograph_collision_is_angle_window_witness :
  Pantograph_link_angles (PantographLeg.forward_kinematics PantographLeg.init 90 45).2
    = Some (degrees (radians 90 + 0.0), degrees (radians 45 + 0.0))
  ∧ PantographLeg.check_collisions PantographLeg.init
      (PantographLeg.forward_kinematics PantographLeg.init 90 45).2 = Some false.
Proof.
  assert (H90 : degrees (radians 90 + 0.0) = 90)
    by (rewrite <- (degrees_radians 90) at 2; f_equal; lra).
  assert (H45 : degrees (radians 45 + 0.0) = 45)
    by (rewrite <- (degrees_radians 45) at 2; f_equal; lra).
  destruct (pantograph_collision_is_angle_window PantographLeg.init 90 45)
    as (ang_s1 & ang_s2 & r & Hang & E1 & E2 & Hcc & Hr).
  - unfold PantographLeg.init. cbn [PantographLeg.l_thigh]. lra.
  - unfold PantographLeg.init. cbn [PantographLeg.l_crank]. lra.
  - unfold PantographLeg.init. cbn [PantographLeg.offset_t1]. rewrite H90. lra.
  - unfold PantographLeg.init. cbn [PantographLeg.offset_t2]. rewrite H45. lra.
  - unfold PantographLeg.init in E1, E2.
    cbn [PantographLeg.offset_t1 PantographLeg.offset_t2] in E1, E2.
    rewrite E1, E2 in Hang. split; [exact Hang|].
    rewrite Hcc. f_equal. apply Hr. rewrite E1, E2, H90, H45. lra.
Defined.

(** ** Collision checks: missing joints and the threshold *)

Lemma collision_chain_verdict (th : R) (segments : list Segment) (servos : list Point)
    (d1 d2 d3 : R) :
  (if existsb (λ seg, existsb (λ servo, hits_servo th seg servo) servos) segments
   then Some true
   else if bool_decide (d1 < th) then Some true
   else if bool_decide (d2 < th) then Some true
   else if bool_decide (d3 < th) then Some true
   else Some false)
  = Some (collision_verdict th segments servos [d1; d2; d3]).
Proof.
  unfold collision_verdict. destruct (existsb _ segments); [done|]. cbn [existsb orb].
  repeat (case_bool_decide; [done|]). done.
Qed.

Lemma rear_check_collisions_lookup (self : FiveBarRearLeg.t) (joints : JointSet) :
  FiveBarRearLeg.check_collisions self joints
  = s1 ← joints !! "S1"; s2 ← joints !! "S2"; a ← joints !! "A";
    b ← joints !! "B"; c ← joints !! "C"; foot ← joints !! "Foot";
    Some (collision_verdict (FiveBarRearLeg.collision_threshold self)
            [(s1, a); (s2, c); (a, b); (b, c); (c, foot)] [s1; s2]
            [min_dist_segments (s1, a) (s2, c); min_dist_segments (s1, a) (b, c);
             min_dist_segments (s2, c) (a, b)]).
Proof.
  unfold FiveBarRearLeg.check_collisions, FiveBarRearLeg._hits_servo.
  destruct (joints !! "S1") as [s1|]; [|done].
  destruct (joints !! "S2") as [s2|]; cbn [mbind option_bind];
    [|by destruct (joints !! "A")].
  destruct (joints !! "A") as [a|]; cbn [mbind option_bind]; [|done].
  destruct (joints !! "B") as [b|]; cbn [mbind option_bind];
    [|by destruct (joints !! "C")].
  destruct (joints !! "C") as [c|]; cbn [mbind option_bind]; [|done].
  destruct (joints !! "Foot") as [foot|]; cbn [mbind option_bind]; [|done].
  apply collision_chain_verdict.
Qed.

Lemma front_check_collisions_lookup (self : FiveBarFrontLeg.t) (joints : JointSet) :
  FiveBarFrontLeg.check_collisions self joints
  = s1 ← joints !! "S1"; s2 ← joints !! "S2"; a ← joints !! "A";
    b ← joints !! "B"; c ← joints !! "C"; foot ← joints !! "Foot";
    Some (collision_verdict (FiveBarFrontLeg.collision_threshold self)
            [(s1, a); (s2, b); (a, c); (b, c); (c, foot)] [s1; s2]
            [min_dist_segments (s1, a) (s2, b); min_dist_segments (s1, a) (b, c);
             min_dist_segments (s2, b) (a, c)]).
Proof.
  unfold FiveBarFrontLeg.check_collisions, FiveBarFrontLeg._hits_servo.
  destruct (joints !! "S1") as [s1|]; [|done].
  destruct (joints !! "S2") as [s2|]; cbn [mbind option_bind];
    [|by destruct (joints !! "A")].
  destruct (joints !! "A") as [a|]; cbn [mbind option_bind]; [|done].
  destruct (joints !! "B") as [b|]; cbn [mbind option_bind]; [|done].
  destruct (joints !! "C") as [c|]; cbn [mbind option_bind]; [|done].
  destruct (joints !! "Foot") as [foot|]; cbn [mbind option_bind]; [|done].
  apply collision_chain_verdict.
Qed.

Lemma six_lookups_none {A} (joints : JointSet)
    (k : Point → Point → Point → Point → Point → Point → A) :
  (s1 ← joints !! "S1"; s2 ← joints !! "S2"; a ← joints !! "A";
   b ← joints !! "B"; c ← joints !! "C"; foot ← joints !! "Foot";
   Some (k s1 s2 a b c foot)) = None
  ↔ ∃ name, name ∈ fivebar_joint_names ∧ joints !! name = None.
Proof.
  unfold fivebar_joint_names. split.
  - destruct (joints !! "S1") eqn:E1; [|exists "S1"; split; [set_solver | done]].
    destruct (joints !! "S2") eqn:E2; [|exists "S2"; split; [set_solver | done]].
    destruct (joints !! "A") eqn:E3; [|exists "A"; split; [set_solver | done]].
    destruct (joints !! "B") eqn:E4; [|exists "B"; split; [set_solver | done]].
    destruct (joints !! "C") eqn:E5; [|exists "C"; split; [set_solver | done]].
    destruct (joints !! "Foot") eqn:E6; [|exists "Foot"; split; [set_solver | done]].
    done.
  - intros (name & Hin & Hnone). apply list_elem_of_In in Hin. simpl in Hin.
    destruct Hin as [<-|[<-|[<-|[<-|[<-|[<-|[]]]]]]]; rewrite Hnone;
      cbn [mbind option_bind]; try done;
      repeat (match goal with
              | |- context [?m !! ?key] => destruct (m !! key)
              end; cbn [mbind option_bind]; try done).
Qed.

Lemma six_lookups_agree {A} (joints joints' : JointSet)
    (k : Point → Point → Point → Point → Point → Point → A) :
  (∀ name, name ∈ fivebar_joint_names → joints !! name = joints' !! name) →
  (s1 ← joints !! "S1"; s2 ← joints !! "S2"; a ← joints !! "A";
   b ← joints !! "B"; c ← joints !! "C"; foot ← joints !! "Foot";
   Some (k s1 s2 a b c foot))
  = (s1 ← joints' !! "S1"; s2 ← joints' !! "S2"; a ← joints' !! "A";
     b ← joints' !! "B"; c ← joints' !! "C"; foot ← joints' !! "Foot";
     Some (k s1 s2 a b c foot)).
Proof.
  intros H. unfold fivebar_joint_names in H.
  rewrite (H "S1"), (H "S2"), (H "A"), (H "B"), (H "C"), (H "Foot") by set_solver.
  done.
Qed.

(** X17. The collision checks of both five-bar variants fail with a
    missing-key error exactly when one of the joints S1, S2, A, B, C, Foot
    is absent from the mapping, and their answer depends on these six
    entries only: any further entries are ignored. *)
Theorem fivebar_check_collisions_reads_six_joints :
  (∀ (self : FiveBarRearLeg.t) (joints : JointSet),
     FiveBarRearLeg.check_collisions self joints = None
     ↔ ∃ name, name ∈ fivebar_joint_names ∧ joints !! name = None)
  ∧ (∀ (self : FiveBarFrontLeg.t) (joints : JointSet),
     FiveBarFrontLeg.check_collisions self joints = None
     ↔ ∃ name, name ∈ fivebar_joint_names ∧ joints !! name = None)
  ∧ (∀ (self : FiveBarRearLeg.t) (joints joints' : JointSet),
     (∀ name, name ∈ fivebar_joint_names → joints !! name = joints' !! name) →
     FiveBarRearLeg.check_collisions self joints
     = FiveBarRearLeg.check_collisions self joints')
  ∧ (∀ (self : FiveBarFrontLeg.t) (joints joints' : JointSet),
     (∀ name, name ∈ fivebar_joint_names → joints !! name = joints' !! name) →
     FiveBarFrontLeg.check_collisions self joints
     = FiveBarFrontLeg.check_collisions self joints').
Proof.
  split; [|split; [|split]].
  - intros. rewrite rear_check_collisions_lookup. apply six_lookups_none.
  - intros. rewrite front_check_collisions_lookup. apply six_lookups_none.
  - intros self joints joints' H. rewrite !rear_check_collisions_lookup.
    by apply six_lookups_agree.
  - intros self joints joints' H. rewrite !front_check_collisions_lookup.
    by apply six_lookups_agree.
Qed.

Lemma hits_servo_mono (th th' : R) (seg : Segment) (servo : Point) :
  th <= th' → hits_servo th seg servo = true → hits_servo th' seg servo = true.
Proof.
  intros Hle. rewrite !hits_servo_iff. unfold servo_hit.
  intros (? & ? & ?). repeat split; try done. lra.
Qed.

Lemma collision_verdict_mono (th th' : R) segments servos gaps :
  th <= th' →
  collision_verdict th segments servos gaps = true →
  collision_verdict th' segments servos gaps = true.
Proof.
  intros Hle. unfold collision_verdict. rewrite !orb_true_iff, !existsb_exists.
  intros [(seg & Hseg & H) | (d & Hd & H)].
  - left. exists seg. split; [done|]. apply existsb_exists in H as (servo & Hs & H).
    apply existsb_exists. exists servo. split; [done|]. by eapply hits_servo_mono.
  - right. exists d. split; [done|]. apply bool_decide_eq_true in H.
    apply bool_decide_eq_true. lra.
Qed.

Lemma collision_verdict_nonpos (th : R) segments servos gaps :
  th <= 0 → Forall (λ d, 0 <= d) gaps →
  collision_verdict th segments servos gaps = false.
Proof.
  intros Hth Hg. unfold collision_verdict.
  apply orb_false_iff. split.
  - apply not_true_is_false. rewrite servo_loop_iff.
    intros (seg & servo & _ & _ & _ & _ & Hd).
    pose proof (dist_point_segment_nonneg servo seg.1 seg.2). lra.
  - apply not_true_is_false. rewrite existsb_exists.
    intros (d & Hd & H). apply bool_decide_eq_true in H.
    rewrite Forall_forall in Hg. apply list_elem_of_In, Hg in Hd. lra.
Qed.


(** X18. Raising the collision threshold never clears a collision: a joint
    set reported as colliding stays so under any larger threshold, for the
    serial leg and both five-bar variants; and with a threshold of zero or
    less none of the three ever reports a collision.  The pantograph's
    check does not read the threshold, nor any other attribute of the
    leg. *)
Theorem collision_threshold_monotone :
  (∀ (self self' : FiveBarRearLeg.t) (joints : JointSet),
     FiveBarRearLeg.collision_threshold self <= FiveBarRearLeg.collision_threshold self' →
     FiveBarRearLeg.check_collisions self joints = Some true →
     FiveBarRearLeg.check_collisions self' joints = Some true)
  ∧ (∀ (self self' : FiveBarFrontLeg.t) (joints : JointSet),
     FiveBarFrontLeg.collision_threshold self <= FiveBarFrontLeg.collision_threshold self' →
     FiveBarFrontLeg.check_collisions self joints = Some true →
     FiveBarFrontLeg.check_collisions self' joints = Some true)
  ∧ (∀ (self self' : SerialLeg.t) (joints : JointSet),
     SerialLeg.collision_threshold self <= SerialLeg.collision_threshold self' →
     SerialLeg.check_collisions self joints = Some true →
     SerialLeg.check_collisions self' joints = Some true)
  ∧ (∀ (self : FiveBarRearLeg.t) (joints : JointSet),
     FiveBarRearLeg.collision_threshold self <= 0 →
     FiveBarRearLeg.check_collisions self joints ≠ Some true)
  ∧ (∀ (self : FiveBarFrontLeg.t) (joints : JointSet),
     FiveBarFrontLeg.collision_threshold self <= 0 →
     FiveBarFrontLeg.check_collisions self joints ≠ Some true)
  ∧ (∀ (self : SerialLeg.t) (joints : JointSet),
     SerialLeg.collision_threshold self <= 0 →
     SerialLeg.check_collisions self joints ≠ Some true)
  ∧ (∀ (self self' : PantographLeg.t) (joints : JointSet),
     PantographLeg.check_collisions self joints
     = PantographLeg.check_collisions self' joints).
Proof.
  repeat apply conj.
  - intros self self' joints Hle. rewrite !rear_check_collisions_lookup.
    destruct (joints !! "S1"), (joints !! "S2"), (joints !! "A"), (joints !! "B"),
      (joints !! "C"), (joints !! "Foot"); cbn [mbind option_bind]; try done.
    intros [= H]. f_equal. by eapply collision_verdict_mono.
  - intros self self' joints Hle. rewrite !front_check_collisions_lookup.
    destruct (joints !! "S1"), (joints !! "S2"), (joints !! "A"), (joints !! "B"),
      (joints !! "C"), (joints !! "Foot"); cbn [mbind option_bind]; try done.
    intros [= H]. f_equal. by eapply collision_verdict_mono.
  - intros self self' joints Hle. unfold SerialLeg.check_collisions.
    destruct (joints !! "Foot"), (joints !! "Base"); cbn [mbind option_bind]; try done.
    repeat case_bool_decide; try done. lra.
  - intros self joints Hth. rewrite rear_check_collisions_lookup.
    destruct (joints !! "S1"), (joints !! "S2"), (joints !! "A"), (joints !! "B"),
      (joints !! "C"), (joints !! "Foot"); cbn [mbind option_bind]; try done.
    rewrite collision_verdict_nonpos;
      first [done | repeat (constructor; try apply min_dist_segments_nonneg)].
  - intros self joints Hth. rewrite front_check_collisions_lookup.
    destruct (joints !! "S1"), (joints !! "S2"), (joints !! "A"), (joints !! "B"),
      (joints !! "C"), (joints !! "Foot"); cbn [mbind option_bind]; try done.
    rewrite collision_verdict_nonpos;
      first [done | repeat (constructor; try apply min_dist_segments_nonneg)].
  - intros self joints Hth. unfold SerialLeg.check_collisions.
    destruct (joints !! "Foot") as [f|], (joints !! "Base") as [b|];
      cbn [mbind option_bind]; try done.
    case_bool_decide as H; [|done].
    pose proof (sqrt_pos (sum_sq (f - b)%V)). unfold norm in H. lra.
  - reflexivity.
Qed.

(** ** Parameter updates: outcome and frame *)

(** X19. Each [update_params] raises a missing-key error exactly when the
    mapping lacks one of the keys it reads, and the error names the first
    such key in reading order; otherwise it returns normally.  Keys it
    does not read play no part. *)
Theorem update_params_outcome :
  (∀ (params : gmap string R) (self : SerialLeg.t),
     (SerialLeg.update_params params self).2
     = update_outcome SerialLeg_param_names params)
  ∧ (∀ (params : gmap string R) (self : PantographLeg.t),
     (PantographLeg.update_params params self).2
     = update_outcome PantographLeg_param_names params)
  ∧ (∀ (params : gmap string R) (self : FiveBarRearLeg.t),
     (FiveBarRearLeg.update_params params self).2
     = update_outcome FiveBarRearLeg_param_names params)
  ∧ (∀ (params : gmap string R) (self : FiveBarFrontLeg.t),
     (FiveBarFrontLeg.update_params params self).2
     = update_outcome FiveBarFrontLeg_param_names params).
Proof.
  repeat apply conj; intros params self.
  - unfold SerialLeg.update_params, SerialLeg_param_names.
    run_update; decide_missing; reflexivity.
  - unfold PantographLeg.update_params, PantographLeg_param_names.
    run_update; decide_missing; reflexivity.
  - unfold FiveBarRearLeg.update_params, FiveBarRearLeg_param_names.
    run_update; decide_missing; reflexivity.
  - unfold FiveBarFrontLeg.update_params, FiveBarFrontLeg_param_names.
    run_update; decide_missing; reflexivity.
Qed.

(** X20. [update_params] writes the link lengths and nothing else: the
    angle offsets, the servo (or base) positions and the collision
    threshold are the same after the call, whether it returns or raises;
    and when it returns, every length attribute holds the value stored
    under its key. *)
Theorem update_params_sets_lengths_only :
  (∀ (params : gmap string R) (self : SerialLeg.t),
     let self' := (SerialLeg.update_params params self).1 in
     (SerialLeg.offset_t1 self' = SerialLeg.offset_t1 self
      ∧ SerialLeg.offset_t2 self' = SerialLeg.offset_t2 self
      ∧ SerialLeg.base_pos self' = SerialLeg.base_pos self
      ∧ SerialLeg.collision_threshold self' = SerialLeg.collision_threshold self)
     ∧ (update_outcome SerialLeg_param_names params = Ok tt →
        params !! "L1 (S1->Knee)" = Some (SerialLeg.l1 self')
        ∧ params !! "L2 (Knee->Foot)" = Some (SerialLeg.l2 self')))
  ∧ (∀ (params : gmap string R) (self : PantographLeg.t),
     let self' := (PantographLeg.update_params params self).1 in
     (PantographLeg.offset_t1 self' = PantographLeg.offset_t1 self
      ∧ PantographLeg.offset_t2 self' = PantographLeg.offset_t2 self
      ∧ PantographLeg.servo1_pos self' = PantographLeg.servo1_pos self
      ∧ PantographLeg.servo2_pos self' = PantographLeg.servo2_pos self
      ∧ PantographLeg.collision_threshold self' = PantographLeg.collision_threshold self)
     ∧ (update_outcome PantographLeg_param_names params = Ok tt →
        params !! "L_Thigh (S2->Knee)" = Some (PantographLeg.l_thigh self')
        ∧ params !! "L_Crank (S2->Link)" = Some (PantographLeg.l_crank self')
        ∧ params !! "L_Shin (Knee->Foot)" = Some (PantographLeg.l_shin self')))
  ∧ (∀ (params : gmap string R) (self : FiveBarRearLeg.t),
     let self' := (FiveBarRearLeg.update_params params self).1 in
     (FiveBarRearLeg.offset_t1 self' = FiveBarRearLeg.offset_t1 self
      ∧ FiveBarRearLeg.offset_t2 self' = FiveBarRearLeg.offset_t2 self
      ∧ FiveBarRearLeg.servo1_pos self' = FiveBarRearLeg.servo1_pos self
      ∧ FiveBarRearLeg.servo2_pos self' = FiveBarRearLeg.servo2_pos self
      ∧ FiveBarRearLeg.collision_threshold self' = FiveBarRearLeg.collision_threshold self)
     ∧ (update_outcome FiveBarRearLeg_param_names params = Ok tt →
        params !! "L1 (S1->A)" = Some (FiveBarRearLeg.l1 self')
        ∧ params !! "L2 (A->B)" = Some (FiveBarRearLeg.l2 self')
        ∧ params !! "L3 (S2->C)" = Some (FiveBarRearLeg.l3 self')
        ∧ params !! "L4 (B->C)" = Some (FiveBarRearLeg.l4 self')
        ∧ params !! "L5 (Ext. C)" = Some (FiveBarRearLeg.l5 self')))
  ∧ (∀ (params : gmap string R) (self : FiveBarFrontLeg.t),
     let self' := (FiveBarFrontLeg.update_params params self).1 in
     (FiveBarFrontLeg.offset_t1 self' = FiveBarFrontLeg.offset_t1 self
      ∧ FiveBarFrontLeg.offset_t2 self' = FiveBarFrontLeg.offset_t2 self
      ∧ FiveBarFrontLeg.servo1_pos self' = FiveBarFrontLeg.servo1_pos self
      ∧ FiveBarFrontLeg.servo2_pos self' = FiveBarFrontLeg.servo2_pos self
      ∧ FiveBarFrontLeg.collision_threshold self' = FiveBarFrontLeg.collision_threshold self)
     ∧ (update_outcome FiveBarFrontLeg_param_names params = Ok tt →
        params !! "L1 (S1->A)" = Some (FiveBarFrontLeg.l1 self')
        ∧ params !! "L2 (S2->B)" = Some (FiveBarFrontLeg.l2 self')
        ∧ params !! "L3 (B->C)" = Some (FiveBarFrontLeg.l3 self')
        ∧ params !! "L4 (A->C)" = Some (FiveBarFrontLeg.l4 self')
        ∧ params !! "L5 (Ext. C)" = Some (FiveBarFrontLeg.l5 self'))).
Proof.
  repeat apply conj; intros params self; cbv zeta.
  - unfold SerialLeg.update_params, SerialLeg_param_names.
    run_update; (split; [done|]); decide_missing; done.
  - unfold PantographLeg.update_params, PantographLeg_param_names.
    run_update; (split; [done|]); decide_missing; done.
  - unfold FiveBarRearLeg.update_params, FiveBarRearLeg_param_names.
    run_update; (split; [done|]); decide_missing; done.
  - unfold FiveBarFrontLeg.update_params, FiveBarFrontLeg_param_names.
    run_update; (split; [done|]); decide_missing; done.
Qed.

(** ** The workspace scan: the cloud is exactly the accepted feet *)

Lemma scan_cells_exact {L : Type} `{!LegModel L} (self : L)
    (cells : list (R * R)) (acc : list Point) :
  (∀ theta1 theta2 foot joints,
     forward_kinematics self theta1 theta2 = (Some foot, joints) →
     is_Some (check_collisions self joints)) →
  for_each cells (λ c, scan_cell self c.1 c.2) acc
  = Some (acc ++ omap (accepted_foot self) cells).
Proof.
  intros Hcc. revert acc. induction cells as [|[t1 t2] cells IH]; intros acc.
  - cbn. by rewrite app_nil_r.
  - cbn [for_each omap list_omap fst snd].
    assert (Hcell : scan_cell self t1 t2 acc
                    = Some (acc ++ option_list (accepted_foot self (t1, t2)))).
    { unfold scan_cell, accepted_foot. cbn [fst snd].
      destruct (forward_kinematics self t1 t2) as [[p|] joints] eqn:Hfk;
        [|by rewrite app_nil_r].
      destruct (Hcc _ _ _ _ Hfk) as [c Hc]. rewrite Hc. cbn [mbind option_bind].
      destruct c; cbn [negb option_list]; [by rewrite app_nil_r | done]. }
    rewrite Hcell. cbn [mbind option_bind]. rewrite IH. f_equal.
    rewrite <- app_assoc. f_equal.
    by destruct (accepted_foot self (t1, t2)).
Qed.

Lemma sweep_exact {L : Type} `{!LegModel L} (self : L) (resolution : nat) :
  (∀ theta1 theta2 foot joints,
     forward_kinematics self theta1 theta2 = (Some foot, joints) →
     is_Some (check_collisions self joints)) →
  let scan_range := linspace 0 180 resolution in
  sweep self scan_range
  = Some (omap (accepted_foot self) (list_prod scan_range scan_range)).
Proof.
  intros Hcc scan_range.
  destruct (sweep_grid_generic self resolution) as (Hflat & _).
  fold scan_range in Hflat. rewrite Hflat. by rewrite scan_cells_exact.
Qed.

Lemma length_omap_le {A B} (f : A → option B) (l : list A) :
  (length (omap f l) ≤ length l)%nat.
Proof. induction l as [|x l IH]; cbn; [lia|]. destruct (f x); cbn; lia. Qed.

(** X21. For each of the four leg variants the scan never fails, and the
    cloud it collects is exactly the list of feet of the accepted grid
    cells (forward kinematics found a foot, the collision check answered
    false), in row-major order of the angle grid, theta1 outermost: no
    accepted cell is dropped, none is repeated, and the cloud has at most
    [resolution * resolution] points. *)
Theorem sweep_collects_accepted_feet :
  (∀ (self : SerialLeg.t) (resolution : nat),
     let scan_range := linspace 0 180 resolution in
     ∃ points, sweep self scan_range = Some points
       ∧ points = omap (accepted_foot self) (list_prod scan_range scan_range)
       ∧ (length points ≤ resolution * resolution)%nat)
  ∧ (∀ (self : PantographLeg.t) (resolution : nat),
     let scan_range := linspace 0 180 resolution in
     ∃ points, sweep self scan_range = Some points
       ∧ points = omap (accepted_foot self) (list_prod scan_range scan_range)
       ∧ (length points ≤ resolution * resolution)%nat)
  ∧ (∀ (self : FiveBarFrontLeg.t) (resolution : nat),
     let scan_range := linspace 0 180 resolution in
     ∃ points, sweep self scan_range = Some points
       ∧ points = omap (accepted_foot self) (list_prod scan_range scan_range)
       ∧ (length points ≤ resolution * resolution)%nat)
  ∧ (∀ (self : FiveBarRearLeg.t) (resolution : nat),
     let scan_range := linspace 0 180 resolution in
     ∃ points, sweep self scan_range = Some points
       ∧ points = omap (accepted_foot self) (list_prod scan_range scan_range)
       ∧ (length points ≤ resolution * resolution)%nat).
Proof.
  assert (Hlen : ∀ {L} `{!LegModel L} (self : L) resolution,
             (length (omap (accepted_foot self)
                        (list_prod (linspace 0 180 resolution) (linspace 0 180 resolution)))
              ≤ resolution * resolution)%nat).
  { intros. etrans; [apply length_omap_le|].
    by rewrite length_prod, linspace_length. }
  repeat apply conj; intros self resolution scan_range;
    eexists; (split; [apply sweep_exact | split; [reflexivity | apply Hlen]]);
    intros theta1 theta2 foot joints.
  - apply serial_cc_defined.
  - apply pantograph_cc_defined.
  - apply front_cc_defined.
  - apply rear_cc_defined.
Qed.

(** X22. When the scan collects between one and three points,
    [get_workspace] returns them with area 0 and no hull line, and the
    triangulation is never called; with no point at all it returns empty
    lists, area 0 and no hull line. *)
Theorem get_workspace_small_cloud :
  ∀ (L : Type) (M : LegModel L) (Delaunay : list Point → option (list Simplex))
    (self : L) (resolution : nat) (points : list Point),
    sweep self (linspace 0 180 resolution) = Some points →
    (length points < 4)%nat →
    get_workspace Delaunay self resolution
    = Some (px <$> points, py <$> points, 0.0, []).
Proof.
  intros L M Delaunay self resolution points Hs Hlen.
  unfold get_workspace. cbv zeta. rewrite Hs. cbn [mbind option_bind].
  destruct points as [|p points]; [done|].
  unfold calculate_concave_hull.
  rewrite bool_decide_eq_true_2 by done. done.
Qed.

Lemma get_workspace_small_cloud_witness :
  ∃ points,
    sweep SerialLeg.init (linspace 0 180 1) = Some points
    ∧ get_workspace two_triangles SerialLeg.init 1
      = Some (px <$> points, py <$> points, 0.0, []).
Proof.
  pose proof (sweep_exact SerialLeg.init 1 (serial_cc_defined SerialLeg.init)) as Hs.
  cbv zeta in Hs. eexists. split; [exact Hs|].
  apply (get_workspace_small_cloud _ _ two_triangles SerialLeg.init 1 _ Hs).
  eapply Nat.le_lt_trans; [apply length_omap_le|].
  rewrite length_prod, linspace_length. lia.
Defined.

(** ** The alpha shape: true areas and short boundary lines *)




Section AlphaShapeFacts.

Variables (points : list Point) (alpha : R).



End AlphaShapeFacts.






(** ** The ellipse fitter returns the widest valid candidate *)

Lemma arange_down_descending (start stop step : R) (i j : nat) (x y : R) :
  step <= 0 → (i ≤ j)%nat →
  arange start stop step !! i = Some x → arange start stop step !! j = Some y →
  y <= x.
Proof.
  unfold arange. intros Hstep Hij Hx Hy.
  rewrite list_lookup_fmap in Hx, Hy.
  destruct (seq 0 _ !! i) as [i'|] eqn:Ei; [|done].
  destruct (seq 0 _ !! j) as [j'|] eqn:Ej; [|done].
  apply lookup_seq in Ei as [-> _]. apply lookup_seq in Ej as [-> _].
  cbn in Hx, Hy. injection Hx as <-. injection Hy as <-.
  assert (INR i <= INR j) by (by apply le_INR). nra.
Qed.

Section WidthSearchMax.

Variables (scan_ys profile_radius : list R) (min_y resolution aspect_ratio : R).
Variables (best_width center_y : R).

(** On a descending list of candidates, the inner search does not pass
    over a fitting width: any fitting candidate is at most the width
    found, or at most the best width so far. *)
Lemma find_valid_w_max (test_widths : list R) (w : R) :
  (∀ i j x y, (i ≤ j)%nat → test_widths !! i = Some x → test_widths !! j = Some y →
              y <= x) →
  w ∈ test_widths →
  ellipse_fits scan_ys profile_radius min_y resolution center_y w (w * aspect_ratio) →
  w <= Rmax best_width
         (find_valid_w scan_ys profile_radius min_y resolution aspect_ratio
            best_width center_y test_widths).
Proof.
  intros Hdesc Hin Hfit. induction test_widths as [|w_cand rest IH].
  { by apply elem_of_nil in Hin. }
  assert (Hhead : w <= w_cand).
  { apply list_elem_of_lookup in Hin as [k Hk].
    apply (Hdesc 0%nat k w_cand w); [lia | done | done]. }
  assert (Hdesc' : ∀ i j x y, (i ≤ j)%nat → rest !! i = Some x → rest !! j = Some y →
                              y <= x).
  { intros i j x y Hij Hx Hy. apply (Hdesc (S i) (S j) x y); [lia | done | done]. }
  cbn [find_valid_w].
  destruct (decide (w_cand <= best_width)) as [Hle|Hgt].
  { rewrite (bool_decide_eq_true_2 _ Hle). pose proof (Rmax_l best_width 0.0). lra. }
  rewrite (bool_decide_eq_false_2 _ Hgt).
  destruct (ellipse_rows min_y resolution center_y (w_cand * aspect_ratio / 2.0))
    as [idx_start idx_end] eqn:Hrows.
  apply elem_of_cons in Hin as [->|Hin].
  - unfold ellipse_fits in Hfit.
    replace (w_cand * aspect_ratio / 2) with (w_cand * aspect_ratio / 2.0) in Hfit by lra.
    rewrite Hrows in Hfit. destruct Hfit as (Hs & He & Hall).
    rewrite (bool_decide_eq_false_2 (idx_start < 0)%Z) by lia.
    rewrite (bool_decide_eq_false_2 (idx_end >= _)%Z) by lia. cbn [orb].
    replace (ellipse_collides _ _ _ _ _ _ _) with false; [apply Rmax_r|].
    symmetry. apply ellipse_collides_false.
    by replace (2 * (w_cand * aspect_ratio / 2.0)) with (w_cand * aspect_ratio) by lra.
  - destruct (_ || _); [by apply IH|].
    destruct (ellipse_collides _ _ _ _ _ _ _); [by apply IH|].
    etrans; [exact Hhead | apply Rmax_r].
Qed.

End WidthSearchMax.

Section CenterSearchMax.

Variables (scan_ys profile_radius : list R) (min_y resolution aspect_ratio : R).

Lemma center_step_max (st : R * R) (i : nat) (center_y w : R) :
  valid_center scan_ys profile_radius min_y resolution aspect_ratio i center_y w →
  w <= (center_step scan_ys profile_radius min_y resolution aspect_ratio st (i, center_y)).1.
Proof.
  destruct st as [best_width best_y]. intros (_ & Hp & Hw & Hfit).
  unfold center_step. rewrite bool_decide_eq_false_2 by lra. cbv zeta.
  replace (profile_radius !!! i * 2) with (profile_radius !!! i * 2.0) in Hw by lra.
  replace (-2) with (-2.0) in Hw by lra.
  assert (Hneg : -2.0 <= 0) by lra.
  pose proof (find_valid_w_max scan_ys profile_radius min_y resolution aspect_ratio
                best_width center_y _ w
                (λ a b x y, arange_down_descending (profile_radius !!! i * 2.0) 0 (-2.0)
                              a b x y Hneg) Hw Hfit) as Hmax.
  case_bool_decide as Hv; cbn [fst].
  - rewrite Rmax_right in Hmax by lra. done.
  - rewrite Rmax_left in Hmax by lra. done.
Qed.

Lemma center_loop_max (rows : list (nat * R)) (st : R * R) (i : nat) (center_y w : R) :
  (i, center_y) ∈ rows →
  valid_center scan_ys profile_radius min_y resolution aspect_ratio i center_y w →
  w <= (foldl (center_step scan_ys profile_radius min_y resolution aspect_ratio) st rows).1.
Proof.
  intros Hin Hvalid. revert st.
  induction rows as [|ic rows IH]; intros st; [by apply elem_of_nil in Hin|].
  cbn [foldl]. apply elem_of_cons in Hin as [<-|Hin].
  - eapply Rle_trans; [|apply center_loop_mono]. by apply center_step_max.
  - by apply IH.
Qed.

End CenterSearchMax.

Lemma max_centered_ellipse_widest (hull_lines : list Segment) (aspect_ratio : R)
    (i : nat) (center_y w : R) :
  let min_y := list_min (hull_ys hull_lines) in
  let scan_ys := arange min_y (list_max (hull_ys hull_lines)) 1 in
  let profile_radius := profile_of hull_lines scan_ys in
  valid_center scan_ys profile_radius min_y 1 aspect_ratio i center_y w →
  w <= (calculate_max_centered_ellipse hull_lines aspect_ratio).1.2.
Proof.
  intros min_y scan_ys profile_radius Hvalid.
  pose proof (max_centered_ellipse_complete hull_lines aspect_ratio i center_y w Hvalid)
    as Hpos.
  subst profile_radius scan_ys min_y.
  assert (E0 : 0.0 = 0) by lra. assert (E1 : 1.0 = 1) by lra.
  assert (Hi : (i, center_y) ∈ imap (λ i y, (i, y))
                 (arange (list_min (hull_ys hull_lines)) (list_max (hull_ys hull_lines)) 1)).
  { destruct Hvalid as (Hi & _).
    exact (elem_of_lookup_imap_2 (λ (i : nat) (y : R), (i, y)) _ center_y i Hi). }
  revert Hpos. unfold calculate_max_centered_ellipse. rewrite E0.
  destruct hull_lines as [|seg hull_lines]; [cbn; lra|].
  destruct (hull_ys (seg :: hull_lines)) as [|y0 ys] eqn:Hys; [cbn; lra|].
  cbv zeta. rewrite E1. intros _.
  match goal with
  | |- context [foldl (center_step ?sy ?pr ?my ?re ?ar) ?s0 ?rows] =>
    pose proof (center_loop_max sy pr my re ar rows s0 i center_y w Hi Hvalid) as H
  end.
  by destruct (foldl _ _ _) as [best_width best_y].
Qed.

(** X25. The ellipse the fitter returns is the widest valid one: whenever
    a sampled row can carry an ellipse of some width tried from that row
    (profile radius at least 1, the ellipse within the sampled rows and
    inside the profile on each of them), the returned width is at least
    that width. *)
Theorem max_centered_ellipse_is_widest :
  ∀ (hull_lines : list Segment) (aspect_ratio : R) (i : nat) (center_y w : R),
    let min_y := list_min (hull_ys hull_lines) in
    let scan_ys := arange min_y (list_max (hull_ys hull_lines)) 1 in
    let profile_radius := profile_of hull_lines scan_ys in
    valid_center scan_ys profile_radius min_y 1 aspect_ratio i center_y w →
    w <= (calculate_max_centered_ellipse hull_lines aspect_ratio).1.2.
Proof. apply max_centered_ellipse_widest. Qed.

Lemma max_centered_ellipse_is_widest_witness :
  20 <= (calculate_max_centered_ellipse square_hull 0.5).1.2.
Proof.
  apply (max_centered_ellipse_is_widest square_hull 0.5 5 (-5) 20).
  destruct square_hull_bounds as [Hmin Hmax]. rewrite Hmin, Hmax.
  apply square_hull_valid_center.
Defined.

(** ** Scan limits: the nearest walls on either side of the centre line *)

Lemma list_max_spec (x : R) (l : list R) :
  list_max (x :: l) ∈ x :: l ∧ ∀ z, z ∈ x :: l → z <= list_max (x :: l).
Proof.
  unfold list_max. revert x. induction l as [|a l IH]; intros x.
  - cbn. split; [left|]. intros z Hz. apply list_elem_of_singleton in Hz. lra.
  - cbn [foldl]. destruct (IH (Rmax x a)) as [Hin Hub]. split.
    + apply elem_of_cons in Hin as [Hin|Hin]; [|by do 2 right].
      rewrite Hin. unfold Rmax. destruct (Rle_dec x a); [right; left | left].
    + intros z Hz.
      assert (Hm : Rmax x a <= foldl Rmax (Rmax x a) l) by (apply Hub; left).
      pose proof (Rmax_l x a). pose proof (Rmax_r x a).
      apply elem_of_cons in Hz as [->|Hz]; [lra|].
      apply elem_of_cons in Hz as [->|Hz]; [lra|].
      apply Hub. by right.
Qed.

Lemma list_min_spec (x : R) (l : list R) :
  list_min (x :: l) ∈ x :: l ∧ ∀ z, z ∈ x :: l → list_min (x :: l) <= z.
Proof.
  unfold list_min. revert x. induction l as [|a l IH]; intros x.
  - cbn. split; [left|]. intros z Hz. apply list_elem_of_singleton in Hz. lra.
  - cbn [foldl]. destruct (IH (Rmin x a)) as [Hin Hlb]. split.
    + apply elem_of_cons in Hin as [Hin|Hin]; [|by do 2 right].
      rewrite Hin. unfold Rmin. destruct (Rle_dec x a); [left | right; left].
    + intros z Hz.
      assert (Hm : foldl Rmin (Rmin x a) l <= Rmin x a) by (apply Hlb; left).
      pose proof (Rmin_l x a). pose proof (Rmin_r x a).
      apply elem_of_cons in Hz as [->|Hz]; [lra|].
      apply elem_of_cons in Hz as [->|Hz]; [lra|].
      apply Hlb. by right.
Qed.

(** The abscissae [get_scan_limits_at_y] collects are exactly the walls on
    the scan line. *)
Lemma scan_crossings_iff (y : R) (hull_lines : list Segment) (x : R) :
  x ∈ flat_map (λ '(p1, p2),
        if (bool_decide (py p1 <= y) && bool_decide (y <= py p2))
           || (bool_decide (py p2 <= y) && bool_decide (y <= py p1))
        then
          if bool_decide (Rabs (py p2 - py p1) < 1e-5) then []
          else
            let t := (y - py p1) / (py p2 - py p1) in
            let x_inter := px p1 + t * (px p2 - px p1) in
            [x_inter]
        else []) hull_lines
  ↔ wall_at hull_lines y x.
Proof.
  rewrite list_elem_of_In, in_flat_map. unfold wall_at, on_segment. split.
  - intros ([p1 p2] & Hseg & Hx). apply list_elem_of_In in Hseg.
    exists (p1, p2). split; [done|]. cbn [fst snd].
    destruct (_ || _) eqn:Hrange; [|by destruct Hx].
    case_bool_decide as Hflat; [by destruct Hx|].
    cbv zeta in Hx. destruct Hx as [<-|[]].
    split; [lra|].
    assert (Hd : py p2 - py p1 ≠ 0).
    { intros E. rewrite E, Rabs_R0 in Hflat. lra. }
    exists ((y - py p1) / (py p2 - py p1)). split.
    + apply orb_true_iff in Hrange as [H|H]; apply andb_true_iff in H as [H1 H2];
        apply bool_decide_eq_true in H1, H2.
      * apply ratio_in_unit; [lra|].
        destruct (Rle_lt_or_eq_dec _ _ (Rle_trans _ _ _ H1 H2)); lra.
      * replace ((y - py p1) / (py p2 - py p1)) with ((py p1 - y) / (py p1 - py p2))
          by (field; lra).
        apply ratio_in_unit; [lra|].
        destruct (Rle_lt_or_eq_dec _ _ (Rle_trans _ _ _ H1 H2)); lra.
    + apply Point_eq; simpl; field; lra.
  - intros ([p1 p2] & Hseg & Hsteep & s & Hs & Heq). cbn [fst snd] in *.
    exists (p1, p2). split; [by apply list_elem_of_In|].
    injection Heq as Hx Hy.
    assert (Hd : py p2 - py p1 ≠ 0).
    { intros E. rewrite E, Rabs_R0 in Hsteep. lra. }
    assert (Hrange : (bool_decide (py p1 <= y) && bool_decide (y <= py p2))
                     || (bool_decide (py p2 <= y) && bool_decide (y <= py p1)) = true).
    { apply orb_true_iff. destruct (Rle_or_lt (py p1) (py p2)).
      - left. apply andb_true_iff. split; apply bool_decide_eq_true; nra.
      - right. apply andb_true_iff. split; apply bool_decide_eq_true; nra. }
    rewrite Hrange. rewrite bool_decide_eq_false_2 by lra.
    cbv zeta. left. rewrite Hx, Hy. field. lra.
Qed.

(** X26. On a scan line that has a wall of the hull left of -0.1 and a
    wall right of 0.1, [get_scan_limits_at_y] returns the nearest such
    wall on each side: both limits are walls, the left one is the largest
    abscissa below -0.1 and the right one the smallest above 0.1.  On any
    other scan line it returns (0, 0).  Walls within 0.1 of the centre
    line and nearly horizontal segments (height difference below 1e-5)
    are never taken into account. *)
Theorem scan_limits_nearest_walls :
  ∀ (y : R) (hull_lines : list Segment),
    let lims := get_scan_limits_at_y y hull_lines in
    let left_wall := ∃ x, wall_at hull_lines y x ∧ x < -0.1 in
    let right_wall := ∃ x, wall_at hull_lines y x ∧ x > 0.1 in
    (left_wall ∧ right_wall →
       lims.1 < -0.1 ∧ 0.1 < lims.2
       ∧ wall_at hull_lines y lims.1 ∧ wall_at hull_lines y lims.2
       ∧ (∀ x, wall_at hull_lines y x → x < -0.1 → x <= lims.1)
       ∧ (∀ x, wall_at hull_lines y x → x > 0.1 → lims.2 <= x))
    ∧ (¬ (left_wall ∧ right_wall) → lims = (0, 0)).
Proof.
  intros y hull_lines lims left_wall right_wall.
  subst lims. unfold get_scan_limits_at_y. cbv zeta.
  pose proof (scan_crossings_iff y hull_lines) as Hiff.
  set (xs := flat_map _ hull_lines) in *. clearbody xs.
  assert (Hneg : ∀ x, x ∈ filter (λ x, x < -0.1) xs ↔ wall_at hull_lines y x ∧ x < -0.1).
  { intros x. rewrite list_elem_of_filter, Hiff. tauto. }
  assert (Hpos : ∀ x, x ∈ filter (λ x, x > 0.1) xs ↔ wall_at hull_lines y x ∧ x > 0.1).
  { intros x. rewrite list_elem_of_filter, Hiff. tauto. }
  destruct xs as [|x0 xs'] eqn:Exs.
  { split; [|done]. intros [(x & Hw & _) _]. apply Hiff in Hw. by apply elem_of_nil in Hw. }
  rewrite <- Exs in *. clear Exs.
  destruct (filter (λ x, x < -0.1) xs) as [|n negs] eqn:En.
  { destruct xs; (split; [|done]); intros [(x & Hx) _]; apply Hneg in Hx;
      by apply elem_of_nil in Hx. }
  destruct (filter (λ x, x > 0.1) xs) as [|p poss] eqn:Ep.
  { destruct xs; (split; [|done]); intros [_ (x & Hx)]; apply Hpos in Hx;
      by apply elem_of_nil in Hx. }
  destruct (list_max_spec n negs) as [Hmax_in Hmax].
  destruct (list_min_spec p poss) as [Hmin_in Hmin].
  apply Hneg in Hmax_in as [Hwl Hl]. apply Hpos in Hmin_in as [Hwr Hr].
  cbn [fst snd]. split.
  - intros _. repeat split; try done.
    + intros x Hw Hx. apply Hmax, Hneg. done.
    + intros x Hw Hx. apply Hmin, Hpos. done.
  - intros Hno. exfalso. apply Hno. split; [by exists (list_max (n :: negs))|].
    by exists (list_min (p :: poss)).
Qed.

(** ** The widget stack: placed rectangles stay inside the panel *)

Lemma check_space_true (height : R) (self : StackLayout.t) :
  StackLayout.check_space height self = true
  ↔ StackLayout.bottom_limit self <= StackLayout.current_y self - height.
Proof.
  unfold StackLayout.check_space. case_bool_decide; split; intros; try done; lra.
Qed.

(** One call: the panel is unchanged, the cursor does not move up, and a
    rectangle that is placed spans the panel, sits between the bottom
    limit and the old cursor, and ends above the new cursor. *)
Lemma run_call_inv (c : layout_call) (self self' : StackLayout.t) (r : option Rect) :
  0 <= StackLayout.padding self → call_sizes_nonneg c →
  run_call c self = (self', r) →
  (StackLayout.x self' = StackLayout.x self
   ∧ StackLayout.bottom_limit self' = StackLayout.bottom_limit self
   ∧ StackLayout.width self' = StackLayout.width self
   ∧ StackLayout.top_y self' = StackLayout.top_y self
   ∧ StackLayout.padding self' = StackLayout.padding self)
  ∧ StackLayout.current_y self' <= StackLayout.current_y self
  ∧ ∀ rect, r = Some rect →
      rx rect = StackLayout.x self ∧ rw rect = StackLayout.width self
      ∧ StackLayout.bottom_limit self <= ry rect
      ∧ ry rect + rh rect <= StackLayout.current_y self
      ∧ StackLayout.current_y self' <= ry rect.
Proof.
  intros Hpad Hsz. destruct self as [x0 bl w ty cy pad]. cbn in Hpad.
  destruct c as [[size|]|size| |height|val_max|height]; cbn in Hsz;
    unfold run_call, StackLayout.add_space, StackLayout.add_header,
      StackLayout.add_separator, StackLayout.add_radio, StackLayout.add_slider,
      StackLayout.add_button, StackLayout.set_current_y;
    cbn [StackLayout.x StackLayout.bottom_limit StackLayout.width StackLayout.top_y
         StackLayout.current_y StackLayout.padding].
  - intros [= <- <-]. cbn. repeat split; try done; lra.
  - intros [= <- <-]. cbn. repeat split; try done; lra.
  - destruct (StackLayout.check_space size _) eqn:Hc; cbn; intros [= <- <-]; cbn;
      repeat split; try done; lra.
  - destruct (StackLayout.check_space 0.01 _) eqn:Hc; cbn; intros [= <- <-]; cbn;
      repeat split; try done; lra.
  - destruct (StackLayout.check_space height _) eqn:Hc; cbn; intros [= <- <-]; cbn.
    + apply check_space_true in Hc. cbn in Hc.
      repeat split; try done; try lra;
        match goal with H : Some _ = Some _ |- _ => injection H as <-; cbn; lra end.
    + repeat split; try done; lra.
  - rewrite (bool_decide_eq_false_2 (1%Z = 0%Z)) by lia.
    rewrite (bool_decide_eq_true_2 (0%Z = 0%Z)) by done.
    rewrite (bool_decide_eq_true_2 (0%Z = (1 - 1)%Z)) by lia.
    destruct (StackLayout.check_space (0.02 + 0.025) _) eqn:Hc; cbn; intros [= <- <-]; cbn.
    + apply check_space_true in Hc. cbn in Hc.
      repeat split; try done; try lra;
        match goal with H : Some _ = Some _ |- _ =>
          injection H as <-; cbn; change (IZR (1 - 1)) with 0; first [lra | field]
        end.
    + repeat split; try done; lra.
  - destruct (StackLayout.check_space height _) eqn:Hc; cbn; intros [= <- <-]; cbn.
    + apply check_space_true in Hc. cbn in Hc.
      repeat split; try done; try lra;
        match goal with H : Some _ = Some _ |- _ => injection H as <-; cbn; lra end.
    + repeat split; try done; lra.
Qed.

Lemma run_calls_inv (cs : list layout_call) (self self' : StackLayout.t) (rs : list Rect) :
  0 <= StackLayout.padding self → Forall call_sizes_nonneg cs →
  run_calls cs self = (self', rs) →
  StackLayout.current_y self' <= StackLayout.current_y self
  ∧ Forall (λ rect, rx rect = StackLayout.x self ∧ rw rect = StackLayout.width self
                    ∧ StackLayout.bottom_limit self <= ry rect
                    ∧ ry rect + rh rect <= StackLayout.current_y self) rs
  ∧ stacked rs.
Proof.
  intros Hpad Hsz. revert self self' rs Hpad.
  induction Hsz as [|c cs Hc Hcs IH]; intros self self' rs Hpad.
  - intros [= <- <-]. cbn. split; [lra | done].
  - cbn [run_calls].
    destruct (run_call c self) as [s1 r] eqn:Hcall.
    destruct (run_calls cs s1) as [s2 rs'] eqn:Hrest. intros [= <- <-].
    destruct (run_call_inv c self s1 r Hpad Hc Hcall)
      as ((Ex & Eb & Ew & Et & Ep) & Hcur & Hrect).
    assert (Hpad1 : 0 <= StackLayout.padding s1) by (rewrite Ep; done).
    destruct (IH s1 s2 rs' Hpad1 Hrest) as (Hcur' & Hin & Hst).
    rewrite Ex, Eb, Ew in Hin.
    split; [lra|]. split.
    + apply Forall_app. split.
      * destruct r as [rect|]; [|done]. cbn. constructor; [|done].
        destruct (Hrect rect eq_refl) as (? & ? & ? & ? & ?). done.
      * eapply Forall_impl; [exact Hin|]. cbn. intros rect (? & ? & ? & ?).
        repeat split; try done. lra.
    + destruct r as [rect|]; [|done]. cbn. split; [|done].
      destruct (Hrect rect eq_refl) as (? & ? & ? & ? & ?).
      eapply Forall_impl; [exact Hin|]. cbn. intros r' (? & ? & ? & ?). lra.
Qed.

(** X27. Whatever sequence of full-width widgets, headers, separators and
    gaps is added to a stack with non-negative padding and sizes, starting
    with the cursor at or below the top: the cursor never moves up, every
    axes rectangle created (radio, single-column slider, button) spans the
    panel and lies between its bottom limit and its top, and the
    rectangles are stacked, each entirely below the earlier ones. *)
Theorem stack_widgets_stay_inside_panel :
  ∀ (calls : list layout_call) (self self' : StackLayout.t) (rects : list Rect),
    0 <= StackLayout.padding self →
    Forall call_sizes_nonneg calls →
    StackLayout.current_y self <= StackLayout.top_y self →
    run_calls calls self = (self', rects) →
    StackLayout.current_y self' <= StackLayout.current_y self
    ∧ Forall (inside_panel self) rects
    ∧ stacked rects.
Proof.
  intros calls self self' rects Hpad Hsz Htop Hrun.
  destruct (run_calls_inv calls self self' rects Hpad Hsz Hrun) as (Hcur & Hin & Hst).
  split; [done|]. split; [|done].
  eapply Forall_impl; [exact Hin|]. unfold inside_panel. intros rect (? & ? & ? & ?).
  repeat split; try done. lra.
Qed.

Lemma stack_widgets_stay_inside_panel_witness :
  StackLayout.current_y (run_calls build_static_ui_calls dashboard_panel).1
    <= StackLayout.current_y dashboard_panel
  ∧ Forall (inside_panel dashboard_panel)
      (run_calls build_static_ui_calls dashboard_panel).2
  ∧ stacked (run_calls build_static_ui_calls dashboard_panel).2.
Proof.
  apply (stack_widgets_stay_inside_panel build_static_ui_calls dashboard_panel).
  - cbn. lra.
  - unfold build_static_ui_calls. repeat constructor; cbn; lra.
  - cbn. lra.
  - apply surjective_pairing.
Defined.

(** ** Sliders in two columns *)

(** X28. A row of two sliders: when the slider of column 0 is placed, the
    slider of column 1 is placed too; both bars have the same bottom and
    the same height 0.025, the first starts at the left edge of the panel,
    the second one padding after the end of the first, and it ends at the
    right edge of the panel; the bars are above the bottom limit and the
    cursor ends 0.06 below where it was. *)
Theorem slider_row_two_columns :
  ∀ (self s1 : StackLayout.t) (val_max0 val_max1 : R) (p0 : SliderPlacement),
    StackLayout.add_slider val_max0 2 0 self = Some (s1, Some p0) →
    ∃ s2 p1,
      StackLayout.add_slider val_max1 2 1 s1 = Some (s2, Some p1)
      ∧ ry (bar p1) = ry (bar p0)
      ∧ rh (bar p0) = 0.025 ∧ rh (bar p1) = 0.025
      ∧ rx (bar p0) = StackLayout.x self
      ∧ rx (bar p1) = rx (bar p0) + rw (bar p0) + StackLayout.padding self
      ∧ rx (bar p1) + rw (bar p1) = StackLayout.x self + StackLayout.width self
      ∧ StackLayout.bottom_limit self <= ry (bar p0)
      ∧ StackLayout.current_y s2 = StackLayout.current_y self - 0.06.
Proof.
  intros [x0 bl w ty cy pad] s1 vm0 vm1 p0.
  unfold StackLayout.add_slider, StackLayout.add_space, StackLayout.set_current_y.
  cbn [StackLayout.x StackLayout.bottom_limit StackLayout.width StackLayout.top_y
       StackLayout.current_y StackLayout.padding].
  rewrite (bool_decide_eq_false_2 (2%Z = 0%Z)) by lia.
  rewrite (bool_decide_eq_true_2 (0%Z = 0%Z)) by done.
  rewrite (bool_decide_eq_false_2 (0%Z = (2 - 1)%Z)) by lia.
  rewrite (bool_decide_eq_false_2 (1%Z = 0%Z)) by lia.
  rewrite (bool_decide_eq_true_2 (1%Z = (2 - 1)%Z)) by lia.
  change (IZR (2 - 1)) with 1.
  destruct (StackLayout.check_space (0.02 + 0.025) _) eqn:Hc; cbn [andb negb]; [|done].
  apply check_space_true in Hc. cbn in Hc.
  intros [= <- <-]. cbn [andb].
  cbn [StackLayout.x StackLayout.bottom_limit StackLayout.width StackLayout.top_y
       StackLayout.current_y StackLayout.padding].
  eexists _, _. split; [reflexivity|]. cbn [bar rx ry rw rh StackLayout.current_y].
  repeat split; try lra; field.
Qed.

Lemma slider_row_two_columns_witness :
  ∃ s1 p0 s2 p1,
    StackLayout.add_slider 105 2 0 dashboard_panel = Some (s1, Some p0)
    ∧ StackLayout.add_slider 105 2 1 s1 = Some (s2, Some p1)
    ∧ ry (bar p1) = ry (bar p0)
    ∧ rx (bar p1) + rw (bar p1) = 0.70 + 0.28.
Proof.
  assert (H0 : ∃ s1 p0,
             StackLayout.add_slider 105 2 0 dashboard_panel = Some (s1, Some p0)).
  { unfold StackLayout.add_slider, dashboard_panel, StackLayout.init,
      StackLayout.check_space.
    cbn [StackLayout.x StackLayout.bottom_limit StackLayout.width StackLayout.top_y
         StackLayout.current_y StackLayout.padding rx ry rw rh].
    rewrite (bool_decide_eq_false_2 (2%Z = 0%Z)) by lia.
    rewrite (bool_decide_eq_true_2 (0%Z = 0%Z)) by done.
    rewrite (bool_decide_eq_false_2 (_ < 0.02)) by lra.
    cbn [andb negb]. by eexists _, _. }
  destruct H0 as (s1 & p0 & H0).
  destruct (slider_row_two_columns dashboard_panel s1 105 105 p0 H0)
    as (s2 & p1 & H1 & Hy & _ & _ & _ & _ & Hr & _).
  exists s1, p0, s2, p1. done.
Defined.

(** X29. [add_slider] checks the remaining space for column 0 only: in any
    other column the slider is always placed, and its bar is put 0.025
    below the cursor whether or not that is above the bottom limit.  With
    [cols = 0] the call fails on the division. *)
Theorem slider_later_columns_unchecked :
  ∀ (self : StackLayout.t) (val_max : R) (cols col_idx : Z),
    (cols = 0%Z → StackLayout.add_slider val_max cols col_idx self = None)
    ∧ (cols ≠ 0%Z → col_idx ≠ 0%Z →
       ∃ s' p, StackLayout.add_slider val_max cols col_idx self = Some (s', Some p)
               ∧ ry (bar p) = StackLayout.current_y self - 0.025
               ∧ y_text p = StackLayout.current_y self + 0.005
               ∧ StackLayout.current_y s'
                 = (if bool_decide (col_idx = (cols - 1)%Z)
                    then StackLayout.current_y self - 0.04
                    else StackLayout.current_y self)).
Proof.
  intros self val_max cols col_idx. unfold StackLayout.add_slider. split.
  - intros ->. by rewrite bool_decide_eq_true_2.
  - intros Hc Hk. rewrite (bool_decide_eq_false_2 _ Hc), (bool_decide_eq_false_2 _ Hk).
    cbn [andb]. eexists _, _. split; [reflexivity|].
    cbn [bar ry y_text]. split; [done|]. split; [done|].
    case_bool_decide; cbn; [lra | done].
Qed.

(** ** The parameter sliders of the dashboard and the workspace button *)

Lemma slider_step_length (st st' : StackLayout.t * list SliderPlacement)
    (ip : nat * (R * R * R)) :
  slider_step st ip = Some st' → (length st'.2 ≤ S (length st.2))%nat.
Proof.
  destruct st as [layout sliders], ip as [i [[val v_min] v_max]]. unfold slider_step.
  destruct (StackLayout.add_slider _ _ _ _) as [[layout' [p|]]|];
    cbn [mbind option_bind]; intros [= <-]; cbn [snd]; [|lia].
  rewrite length_app. cbn. lia.
Qed.

Lemma slider_loop_length (rows : list (nat * (R * R * R)))
    (st st' : StackLayout.t * list SliderPlacement) :
  for_each rows (λ ip st, slider_step st ip) st = Some st' →
  (length st'.2 ≤ length st.2 + length rows)%nat.
Proof.
  revert st. induction rows as [|ip rows IH]; intros st.
  - intros [= <-]. cbn. lia.
  - cbn [for_each]. destruct (slider_step st ip) as [st1|] eqn:Hstep; [|done].
    cbn [mbind option_bind]. intros Hrest. apply IH in Hrest.
    apply slider_step_length in Hstep. cbn [length]. lia.
Qed.

(** The last slider, the gap and the button, from the cursor [cy] at
    which the last slider is added: the top of the button against the
    bottom of the bar. *)
Lemma last_slider_then_button (layout layout1 : StackLayout.t) (val_max : R)
    (col_idx : Z) (p : SliderPlacement) (btn : Rect) :
  (col_idx = 0 ∨ col_idx = 1)%Z →
  StackLayout.add_slider val_max 2 col_idx layout = Some (layout1, Some p) →
  (StackLayout.add_button 0.06 (StackLayout.add_space (Some 0.02) layout1)).2 = Some btn →
  rx btn = StackLayout.x layout
  ∧ rh (bar p) = 0.025 ∧ rh btn = 0.06
  ∧ ry btn + rh btn
    = (if bool_decide (col_idx = 0%Z) then ry (bar p) + 0.005 else ry (bar p) - 0.035)
  ∧ (col_idx = 0%Z → rx (bar p) = StackLayout.x layout).
Proof.
  destruct layout as [x0 bl w ty cy pad]. intros Hk.
  unfold StackLayout.add_slider, StackLayout.add_button, StackLayout.add_space,
    StackLayout.set_current_y.
  cbn [StackLayout.x StackLayout.bottom_limit StackLayout.width StackLayout.top_y
       StackLayout.current_y StackLayout.padding].
  rewrite (bool_decide_eq_false_2 (2%Z = 0%Z)) by lia.
  change (IZR (2 - 1)) with 1.
  destruct Hk as [-> | ->].
  - rewrite (bool_decide_eq_true_2 (0%Z = 0%Z)) by done.
    rewrite (bool_decide_eq_false_2 (0%Z = (2 - 1)%Z)) by lia.
    destruct (StackLayout.check_space (0.02 + 0.025) _); cbn [andb negb]; [|done].
    intros [= <- <-].
    cbn [StackLayout.x StackLayout.bottom_limit StackLayout.width StackLayout.top_y
         StackLayout.current_y StackLayout.padding].
    destruct (StackLayout.check_space 0.06 _); cbn [negb snd]; [|done].
    intros [= <-]. cbn. repeat split; intros; lra.
  - rewrite (bool_decide_eq_false_2 (1%Z = 0%Z)) by lia.
    rewrite (bool_decide_eq_true_2 (1%Z = (2 - 1)%Z)) by lia.
    cbn [andb]. intros [= <- <-].
    cbn [StackLayout.x StackLayout.bottom_limit StackLayout.width StackLayout.top_y
         StackLayout.current_y StackLayout.padding].
    destruct (StackLayout.check_space 0.06 _); cbn [negb snd]; [|done].
    intros [= <-]. cbn. repeat split; intros; first [lra | lia].
Qed.

(** X30. In the layout [update_dynamic_sliders] builds, when every
    parameter got its slider and the workspace button was placed: with an
    odd number of parameters (pantograph, five-bar) the last slider sits
    alone in column 0, the cursor is not moved past its bar, and the
    button, which starts at the same left edge, reaches 0.005 above the
    bottom of that bar, so the two axes overlap; with an even number
    (serial leg) the top of the button is 0.035 below the last bar. *)
Theorem dynamic_sliders_button_overlap :
  ∀ (dynamic_start_y : R) (params : list (R * R * R)) (layout layout' : StackLayout.t)
    (sliders : list SliderPlacement) (btn : Rect),
    update_dynamic_sliders dynamic_start_y params layout
      = Some (layout', sliders, Some btn) →
    length sliders = length params →
    params ≠ [] →
    ∃ p, last sliders = Some p
      ∧ rh (bar p) = 0.025
      ∧ (Nat.Odd (length params) →
           rx btn = rx (bar p)
           ∧ ry (bar p) < ry btn + rh btn
           ∧ ry btn + rh btn = ry (bar p) + 0.005
           ∧ ry btn < ry (bar p) + rh (bar p))
      ∧ (Nat.Even (length params) → ry btn + rh btn = ry (bar p) - 0.035).
Proof.
  intros start params layout layout' sliders btn Hrun Hlen Hne.
  unfold update_dynamic_sliders in Hrun.
  destruct (StackLayout.add_header 0.025 _) as [layout0 header_param] eqn:Hh.
  destruct (for_each _ _ _) as [[layoutn slidersn]|] eqn:Hloop;
    cbn [mbind option_bind] in Hrun; [|done].
  destruct (StackLayout.add_button 0.06 _) as [layoutb ax_btn] eqn:Hb.
  injection Hrun as <- <- ->.
  destruct (exists_last Hne) as (init & [[val v_min] v_max] & ->).
  rewrite imap_app, for_each_app in Hloop. cbn [imap for_each] in Hloop.
  destruct (for_each (imap _ init) _ _) as [[layoutk slidersk]|] eqn:Hinit;
    cbn [mbind option_bind] in Hloop; [|done].
  apply slider_loop_length in Hinit. cbn [snd length] in Hinit.
  rewrite length_imap in Hinit.
  rewrite length_app in Hlen. cbn [length] in Hlen.
  rewrite Nat.add_0_r in Hloop.
  unfold slider_step in Hloop.
  destruct (StackLayout.add_slider v_max 2 _ layoutk) as [[layout1 [p|]]|] eqn:Hs;
    cbn [mbind option_bind] in Hloop; [| |done].
  2: { injection Hloop as <- <-. lia. }
  injection Hloop as <- <-.
  exists p. split; [by rewrite last_snoc|].
  assert (Hk : (Z.of_nat (length init) `mod` 2 = 0 ∨ Z.of_nat (length init) `mod` 2 = 1)%Z)
    by (pose proof (Z.mod_pos_bound (Z.of_nat (length init)) 2); lia).
  assert (Hbtn : (StackLayout.add_button 0.06
                    (StackLayout.add_space (Some 0.02) layout1)).2 = Some btn)
    by (by rewrite Hb).
  destruct (last_slider_then_button layoutk layout1 v_max _ p btn Hk Hs Hbtn)
    as (Hx & Hhp & Hhb & Htop & Hx0).
  split; [done|]. rewrite length_app. cbn [length]. split.
  - intros [m Hm].
    assert (E : (Z.of_nat (length init) `mod` 2 = 0)%Z).
    { replace (length init) with (2 * m)%nat by lia.
      rewrite Nat2Z.inj_mul. apply Z.mod_divide; [lia|]. by apply Z.divide_factor_l. }
    rewrite E in Htop, Hx0. rewrite bool_decide_eq_true_2 in Htop by done.
    specialize (Hx0 eq_refl). repeat split; lra.
  - intros [m Hm].
    assert (E : (Z.of_nat (length init) `mod` 2 = 1)%Z).
    { replace (length init) with (2 * (m - 1) + 1)%nat by lia.
      rewrite Nat2Z.inj_add, Nat2Z.inj_mul.
      rewrite Z.add_comm, Z.mul_comm, Z.mod_add by lia. done. }
    rewrite E in Htop. rewrite bool_decide_eq_false_2 in Htop by lia. done.
Qed.

Lemma add_header_cursor (size : R) (self : StackLayout.t) :
  0 <= size →
  let self' := (StackLayout.add_header size self).1 in
  StackLayout.bottom_limit self' = StackLayout.bottom_limit self
  ∧ StackLayout.current_y self - size - 0.005 <= StackLayout.current_y self'.
Proof.
  intros Hs. unfold StackLayout.add_header.
  destruct (StackLayout.check_space size self); cbn; lra.
Qed.

Lemma add_slider_two_columns_cursor (val_max : R) (col_idx : Z) (self : StackLayout.t) :
  (col_idx = 0 ∨ col_idx = 1)%Z →
  StackLayout.bottom_limit self <= StackLayout.current_y self - 0.045 →
  ∃ self' p,
    StackLayout.add_slider val_max 2 col_idx self = Some (self', Some p)
    ∧ StackLayout.bottom_limit self' = StackLayout.bottom_limit self
    ∧ StackLayout.current_y self - 0.04 <= StackLayout.current_y self'.
Proof.
  intros Hk Hroom. unfold StackLayout.add_slider.
  rewrite (bool_decide_eq_false_2 (2%Z = 0%Z)) by lia.
  assert (Hc : StackLayout.check_space (0.02 + 0.025) self = true)
    by (apply check_space_true; lra).
  rewrite Hc. destruct Hk as [-> | ->].
  - rewrite (bool_decide_eq_true_2 (0%Z = 0%Z)) by done.
    rewrite (bool_decide_eq_false_2 (0%Z = (2 - 1)%Z)) by lia.
    cbn [andb negb]. eexists _, _. split; [reflexivity|]. cbn. lra.
  - rewrite (bool_decide_eq_false_2 (1%Z = 0%Z)) by lia.
    rewrite (bool_decide_eq_true_2 (1%Z = (2 - 1)%Z)) by lia.
    cbn [andb negb]. eexists _, _. split; [reflexivity|]. cbn. lra.
Qed.

(** The three parameters of the pantograph, laid out from a cursor at
    0.5 on the panel of the dashboard. *)
Lemma dynamic_sliders_pantograph_run :
  ∃ layout' sliders btn,
    update_dynamic_sliders 0.5 [(95.0, 10.0, 105.0); (10.0, 10.0, 55.0); (95.0, 10.0, 95.0)]
      dashboard_panel = Some (layout', sliders, Some btn)
    ∧ length sliders = 3%nat.
Proof.
  unfold update_dynamic_sliders.
  pose proof (add_header_cursor 0.025 (StackLayout.set_cursor 0.5 dashboard_panel)
                ltac:(lra)) as [Hb0 Hc0].
  destruct (StackLayout.add_header 0.025 _) as [L0 header_param]. cbn in Hb0, Hc0.
  change (imap _ _) with [(0%nat, (95.0, 10.0, 105.0)); (1%nat, (10.0, 10.0, 55.0));
                          (2%nat, (95.0, 10.0, 95.0))].
  cbn [for_each]. unfold slider_step.
  change (Z.of_nat 0 `mod` 2)%Z with 0%Z. change (Z.of_nat 1 `mod` 2)%Z with 1%Z.
  change (Z.of_nat 2 `mod` 2)%Z with 0%Z.
  destruct (add_slider_two_columns_cursor 105.0 0 L0) as (L1 & p1 & -> & Hb1 & Hc1);
    [by left | lra |]. cbn [mbind option_bind].
  destruct (add_slider_two_columns_cursor 55.0 1 L1) as (L2 & p2 & -> & Hb2 & Hc2);
    [by right | lra |]. cbn [mbind option_bind].
  destruct (add_slider_two_columns_cursor 95.0 0 L2) as (L3 & p3 & -> & Hb3 & Hc3);
    [by left | lra |]. cbn [mbind option_bind app].
  unfold StackLayout.add_button.
  assert (Hc : StackLayout.check_space 0.06 (StackLayout.add_space (Some 0.02) L3) = true)
    by (apply check_space_true; cbn; lra).
  rewrite Hc. cbn [negb]. eexists _, _, _. split; reflexivity.
Qed.

Lemma dynamic_sliders_button_overlap_witness :
  ∃ layout' sliders btn p,
    update_dynamic_sliders 0.5 [(95.0, 10.0, 105.0); (10.0, 10.0, 55.0); (95.0, 10.0, 95.0)]
      dashboard_panel = Some (layout', sliders, Some btn)
    ∧ last sliders = Some p
    ∧ ry btn + rh btn = ry (bar p) + 0.005.
Proof.
  destruct dynamic_sliders_pantograph_run as (layout' & sliders & btn & Hrun & Hlen).
  destruct (dynamic_sliders_button_overlap _ _ _ _ _ _ Hrun Hlen ltac:(done))
    as (p & Hlast & _ & Hodd & _).
  exists layout', sliders, btn, p. split; [exact Hrun|]. split; [exact Hlast|].
  apply Hodd. by exists 1%nat.
Defined.
